(** * The iCUE command adapter ([helpers/icue-python/icue_helper.py])

    A shallow embedding of the adapter and the properties of its
    command-line contract.  The vendor package [cuesdk] and the Python
    runtime are outside the repository.  The SDK object is a record of
    methods acting on an abstract world state.  The classes that the
    adapter imports from the package at lines 7-14 are taken as version 4
    of the package declares them (the imported names
    [CorsairDeviceFilter] and [CorsairSessionState] are names of that
    version).  Of the runtime, [int] on a string and [json.loads] are
    parameters of the embedding; [json.dumps], [print] and [sys.exit] are
    modelled just far enough to follow the adapter's control flow. *)

From Stdlib Require Import ZArith QArith Ascii String List Bool Lia Sorted.
From stdpp Require Import base option list gmap strings pretty.

Local Open Scope Z_scope.
Local Open Scope string_scope.
Local Open Scope list_scope.

(** ** Python values *)

(** The values that flow through the adapter: what [json.loads] can
    return, what [getattr] on an SDK object can yield, and what is handed
    to [json.dumps].  A float is its exact rational value, or one of the
    two non-finite kinds.  [POpaque] is any other object (an enum member,
    a bytes object, ...), of which only the type name is kept: it has no
    [__int__] and [json.dumps] refuses it. *)
Set Warnings "-register-all".

Inductive pyfloat :=
| FFinite (q : Q)
| FInf
| FNan.

Inductive pyval :=
| PNone
| PBool (b : bool)
| PInt (n : Z)
| PFloat (f : pyfloat)
| PStr (s : string)
| PList (l : list pyval)
| PDict (kvs : list (string * pyval))
| POpaque (tyname : string).

(** Exceptions deriving from [Exception].  Only the split between
    [TypeError] and the rest is observed by the adapter (line 130 and
    line 138), together with [str(e)] (line 230). *)
Inductive exn_class :=
  TypeError | ValueError | KeyError | IndexError | OverflowError | AttributeError | OtherError.

Record exn := mk_exn { exn_cls : exn_class; exn_str : string }.

Definition is_TypeError (e : exn) : bool :=
  match exn_cls e with TypeError => true | _ => false end.

(** The result of an operation that can raise. *)
Definition result (A : Type) : Type := exn + A.

Definition py_type_name (v : pyval) : string :=
  match v with
  | PNone => "NoneType"
  | PBool _ => "bool"
  | PInt _ => "int"
  | PFloat _ => "float"
  | PStr _ => "str"
  | PList _ => "list"
  | PDict _ => "dict"
  | POpaque t => t
  end.

(** *** [json.dumps] *)

(** What [json.dumps] accepts: everything but the opaque objects. *)
Fixpoint json_serializable (v : pyval) : bool :=
  match v with
  | POpaque _ => false
  | PList l => forallb json_serializable l
  | PDict kvs => forallb (fun kv => json_serializable (snd kv)) kvs
  | _ => true
  end.

(** The first opaque object met, whose type the error message names. *)
Fixpoint first_opaque (v : pyval) : option string :=
  match v with
  | POpaque t => Some t
  | PList l =>
      (fix go (l : list pyval) : option string :=
         match l with
         | [] => None
         | x :: r => match first_opaque x with Some t => Some t | None => go r end
         end) l
  | PDict kvs =>
      (fix go (l : list (string * pyval)) : option string :=
         match l with
         | [] => None
         | (_, x) :: r => match first_opaque x with Some t => Some t | None => go r end
         end) kvs
  | _ => None
  end.

(** [json.dumps(obj, ensure_ascii=False)]: the document that will be
    printed, or the [TypeError] raised on an object it cannot encode.
    The printed line is kept as the document itself, not as text. *)
Definition json_dumps (obj : pyval) : result pyval :=
  if json_serializable obj then inr obj
  else inl (mk_exn TypeError
              ("Object of type " ++ default "object" (first_opaque obj)
                 ++ " is not JSON serializable")).

(** [f'{n}'] and [str(n)] for an [int]. *)
Definition str_of_int (n : Z) : string := pretty n.

(** ** The vendor SDK *)

(** Modelled from the spec: the status vocabulary of [cuesdk] is not in
    the repository ("every SDK call returns a status code from a fixed
    vendor error vocabulary; Success is the only non-error value").  These
    are the status objects that the methods of the SDK return: Success,
    or another member, kept by its name. *)
Inductive CorsairError :=
| CE_Success
| CE_Other (name : string).

Global Instance CorsairError_eq_dec : EqDecision CorsairError.
Proof. solve_decision. Defined.

(** [str(err)] for a status object that the SDK returned. *)
Definition str_of_err (err : CorsairError) : string :=
  "CorsairError." ++
  match err with
  | CE_Success => "CE_Success"
  | CE_Other name => name
  end.

(** [err != CorsairError.CE_Success] *)
Definition failed (err : CorsairError) : bool := bool_decide (err <> CE_Success).

(** A status as the adapter holds it: the object that a method of the
    SDK returned, or the class attribute [CorsairError.CE_Success] that
    the adapter names itself where the SDK gave no status (lines 112, 118
    and 147).  In [cuesdk] 4 the members of [CorsairError] are class
    attributes holding plain integers, and [CE_Success] is 0. *)
Inductive Status :=
| Returned (err : CorsairError)
| Attribute_Success.

(** [err != CorsairError.CE_Success] *)
Definition failed_status (s : Status) : bool :=
  match s with
  | Returned err => failed err
  | Attribute_Success => false
  end.

(** [str(err)]; the attribute prints as the integer it is. *)
Definition str_of_status (s : Status) : string :=
  match s with
  | Returned err => str_of_err err
  | Attribute_Success => "0"
  end.

(** [CorsairError.CE_Unknown] (line 140): [cuesdk] 4 has no member of
    that name, so reading the attribute raises. *)
Definition no_CE_Unknown : exn :=
  mk_exn AttributeError "type object 'CorsairError' has no attribute 'CE_Unknown'".

(** An element of the enumeration: only its [device_id] attribute is
    read ([PNone] when the attribute is missing). *)
Record Device := { device_id : pyval }.

(** The [info] object of [get_device_info], attribute by attribute.
    [info_type] is [None] when [info.type] is missing or [None], and
    otherwise holds [getattr(info.type, 'name', None)]. *)
Record DeviceInfo := {
  info_type : option pyval;
  info_model : pyval;
  info_serial : pyval;
  info_led_count : pyval;
  info_channel_count : pyval
}.

Record LedPosition := {
  lp_led_id : pyval;
  lp_top : pyval;
  lp_left : pyval;
  lp_height : pyval;
  lp_width : pyval
}.

(** The [positions] object; [led_positions] is [None] when the attribute
    is missing or [None]. *)
Record Positions := { led_positions : option (list LedPosition) }.

(** What a position entry point returns: a tuple [(positions, err)], or
    a bare value that is not a tuple. *)
Inductive PosRet :=
| PosTuple (positions : option Positions) (err : CorsairError)
| PosBare (positions : option Positions).

(** [CorsairLedColor], in [cuesdk] 4 (the release from which the names
    [CorsairDeviceFilter] and [CorsairSessionState] imported at lines
    7-14 exist) a dataclass of five fields, none of which has a
    default. *)
Record CorsairLedColor := { c_id : Z; c_r : Z; c_g : Z; c_b : Z; c_a : Z }.

(** [CorsairLedColor(led_id, r, g, b)], the call of lines 185 and 200:
    four positional arguments for a class that needs five.  The call
    raises once its arguments are evaluated, whatever they are; the
    message is the one of the interpreter (Python 3.10 and later) for a
    function called by its qualified name. *)
Definition missing_alpha : exn :=
  mk_exn TypeError "CorsairLedColor.__init__() missing 1 required positional argument: 'a'".

Definition new_color (led_id r g b : Z) : result CorsairLedColor := inl missing_alpha.

(** The two ways a buffered-write entry point is called (lines 137 and
    139): with the target and the colours, or with the colours alone. *)
Inductive BufArgs :=
| WithTarget (dev_id : string) (colors : list CorsairLedColor)
| ColorsOnly (colors : list CorsairLedColor).

(** An SDK method acts on the state [W] of the SDK and of the hardware
    behind it, and returns or raises.  A return value that the adapter
    cannot unpack (line 41, line 51, line 112) raises at the call site
    and is counted as a raising call.  The entry points that the adapter
    probes with [getattr] and [callable] are optional. *)
Record CueSdk (W : Type) := {
  sdk_new : W -> result unit * W;
  sdk_connect : W -> result CorsairError * W;
  ready_wait : Q -> W -> bool * W;
  sdk_get_devices : W -> result (option (list Device) * CorsairError) * W;
  sdk_get_device_info : pyval -> W -> result (option DeviceInfo * CorsairError) * W;
  sdk_get_led_positions_by_device_index : option (Z -> W -> result PosRet * W);
  sdk_get_led_positions_by_device_id : option (string -> W -> result PosRet * W);
  sdk_get_led_positions : option (string -> W -> result PosRet * W);
  sdk_set_led_colors_buffer_by_device_index :
    option (Z -> list CorsairLedColor -> W -> result CorsairError * W);
  sdk_set_led_colors_buffer_by_device_id : option (BufArgs -> W -> result CorsairError * W);
  sdk_set_led_colors_buffer : option (BufArgs -> W -> result CorsairError * W);
  sdk_set_led_colors_flush_buffer : option (W -> result CorsairError * W)
}.

Arguments sdk_new {W}.
Arguments sdk_connect {W}.
Arguments ready_wait {W}.
Arguments sdk_get_devices {W}.
Arguments sdk_get_device_info {W}.
Arguments sdk_get_led_positions_by_device_index {W}.
Arguments sdk_get_led_positions_by_device_id {W}.
Arguments sdk_get_led_positions {W}.
Arguments sdk_set_led_colors_buffer_by_device_index {W}.
Arguments sdk_set_led_colors_buffer_by_device_id {W}.
Arguments sdk_set_led_colors_buffer {W}.
Arguments sdk_set_led_colors_flush_buffer {W}.

(** The calls made to the SDK, with what each one answered.  This log
    is ghost state: the source keeps no such record, the properties
    below are stated on it. *)
Inductive PosApi := ByDeviceIndex | ByDeviceId | Generic.

Inductive SdkCall :=
| CallNew (r : result unit)
| CallConnect (r : result CorsairError)
| CallWait (timeout_sec : Q) (connected : bool)
| CallGetDevices (r : result (option (list Device) * CorsairError))
| CallGetDeviceInfo (dev_id : pyval) (r : result (option DeviceInfo * CorsairError))
| CallPositionsByIndex (idx : Z) (r : result PosRet)
| CallPositions (api : PosApi) (dev_id : string) (r : result PosRet)
| CallBufferByIndex (idx : Z) (colors : list CorsairLedColor) (r : result CorsairError)
| CallBuffer (api : PosApi) (args : BufArgs) (r : result CorsairError)
| CallFlush (r : result CorsairError).

(** ** The process *)

(** How a computation ends: it returns, it raises an exception deriving
    from [Exception], or [sys.exit(code)] was called.  [SystemExit] does
    not derive from [Exception], so no handler of the source catches
    it. *)
Inductive outcome (A : Type) :=
| Ret (a : A)
| Raise (e : exn)
| Exit (code : Z).

Arguments Ret {A}.
Arguments Raise {A}.
Arguments Exit {A}.

(** The state of the process: the state of the SDK, the lines printed
    on standard output (one document each, [print] ending the line), what
    is left to read on standard input, and the log of the calls. *)
Record Proc (W : Type) := mkProc {
  world : W;
  stdout : list pyval;
  stdin : string;
  calls : list SdkCall
}.

Arguments mkProc {W}.
Arguments world {W}.
Arguments stdout {W}.
Arguments stdin {W}.
Arguments calls {W}.

Definition M (W A : Type) : Type := Proc W -> outcome A * Proc W.

Definition ret {W A} (a : A) : M W A := fun st => (Ret a, st).

Definition raise {W A} (e : exn) : M W A := fun st => (Raise e, st).

Definition bind {W A B} (m : M W A) (k : A -> M W B) : M W B :=
  fun st =>
    match m st with
    | (Ret a, st') => k a st'
    | (Raise e, st') => (Raise e, st')
    | (Exit c, st') => (Exit c, st')
    end.

(** [try: m except <filter>: h] *)
Definition try_except {W A} (m : M W A) (catches : exn -> bool) (h : exn -> M W A) : M W A :=
  fun st =>
    match m st with
    | (Raise e, st') => if catches e then h e st' else (Raise e, st')
    | r => r
    end.

Definition lift {W A} (r : result A) : M W A :=
  match r with
  | inl e => raise e
  | inr a => ret a
  end.

(** An SDK call: the world moves on and the call is logged. *)
Definition call {W A} (f : W -> result A * W) (ev : result A -> SdkCall) : M W A :=
  fun st =>
    let '(r, w) := f (world st) in
    lift r (mkProc w (stdout st) (stdin st) (calls st ++ [ev r])).

(** [print(line)], which is taken to succeed. *)
Definition print {W} (line : pyval) : M W unit :=
  fun st => (Ret tt, mkProc (world st) (stdout st ++ [line]) (stdin st) (calls st)).

(** [sys.exit(code)] *)
Definition sys_exit {W A} (code : Z) : M W A := fun st => (Exit code, st).

(** [sys.stdin.read()] *)
Definition stdin_read {W} : M W string :=
  fun st => (Ret (stdin st), mkProc (world st) (stdout st) "" (calls st)).

Declare Scope proc_scope.
Delimit Scope proc_scope with proc.

Notation "x <- m ;; k" := (bind m (fun x => k))
  (at level 100, m at next level, right associativity) : proc_scope.
Notation "m ;; k" := (bind m (fun _ => k))
  (at level 100, right associativity) : proc_scope.

Local Open Scope proc_scope.

(** [if cond: body], where the code goes on after the [if]. *)
Definition when {W} (cond : bool) (body : M W unit) : M W unit :=
  if cond then body else ret tt.

(** ** The adapter *)

(** A Device Descriptor, the dictionary built at lines 56-64. *)
Record Entry := {
  e_index : Z;
  e_device_id : pyval;
  e_type : pyval;
  e_model : pyval;
  e_serial : pyval;
  e_led_count : pyval;
  e_channel_count : pyval
}.

Definition entry_json (e : Entry) : pyval :=
  PDict [("index", PInt (e_index e)); ("device_id", e_device_id e); ("type", e_type e);
         ("model", e_model e); ("serial", e_serial e); ("led_count", e_led_count e);
         ("channel_count", e_channel_count e)].

(** [Union[int, str]] *)
Inductive Ident :=
| IInt (i : Z)
| IStr (s : string).

(** The three values returned at line 70. *)
Record Enumeration := {
  en_result : list Entry;
  index_to_id : gmap Z string;
  id_to_index : gmap string Z
}.

Definition empty_enumeration : Enumeration :=
  {| en_result := []; index_to_id := ∅; id_to_index := ∅ |}.

(** Lines 54-64. *)
Definition make_entry (idx : Z) (dev_id : pyval) (info : DeviceInfo) : Entry :=
  {| e_index := idx;
     e_device_id := dev_id;
     e_type := match info_type info with
               | Some name => name
               | None => PStr "None"
               end;
     e_model := info_model info;
     e_serial := info_serial info;
     e_led_count := info_led_count info;
     e_channel_count := info_channel_count info |}.

(** Lines 65-68. *)
Definition record_device (acc : Enumeration) (idx : Z) (dev_id : pyval) (info : DeviceInfo)
  : Enumeration :=
  {| en_result := en_result acc ++ [make_entry idx dev_id info];
     index_to_id := match dev_id with
                    | PStr s => <[idx := s]> (index_to_id acc)
                    | _ => index_to_id acc
                    end;
     id_to_index := match dev_id with
                    | PStr s => <[s := idx]> (id_to_index acc)
                    | _ => id_to_index acc
                    end |}.

Definition led_json (lp : LedPosition) : pyval :=
  PDict [("led_id", lp_led_id lp); ("top", lp_top lp); ("left", lp_left lp);
         ("height", lp_height lp); ("width", lp_width lp)].

(** Line 112 and line 118. *)
Definition unpack_positions (res : PosRet) : option Positions * Status :=
  match res with
  | PosTuple positions err => (positions, Returned err)
  | PosBare positions => (positions, Attribute_Success)
  end.

(** [getattr(positions, 'led_positions', []) or []] *)
Definition leds_of (positions : Positions) : list LedPosition :=
  default [] (led_positions positions).

(** [for item in v]: the items of a list, the keys of a dictionary, the
    characters of a string. *)
Definition py_iter (v : pyval) : result (list pyval) :=
  match v with
  | PList l => inr l
  | PDict kvs => inr (map (fun kv => PStr (fst kv)) kvs)
  | PStr s => inr (map (fun c => PStr (String c EmptyString)) (list_ascii_of_string s))
  | _ => inl (mk_exn TypeError ("'" ++ py_type_name v ++ "' object is not iterable"))
  end.

Fixpoint assoc (key : string) (kvs : list (string * pyval)) : option pyval :=
  match kvs with
  | [] => None
  | (k, v) :: rest => if String.eqb k key then Some v else assoc key rest
  end.

(** [item[key]] for a string [key]. *)
Definition py_getitem (item : pyval) (key : string) : result pyval :=
  match item with
  | PDict kvs =>
      match assoc key kvs with
      | Some v => inr v
      | None => inl (mk_exn KeyError ("'" ++ key ++ "'"))
      end
  | PList _ => inl (mk_exn TypeError "list indices must be integers or slices, not str")
  | PStr _ => inl (mk_exn TypeError "string indices must be integers, not 'str'")
  | _ => inl (mk_exn TypeError ("'" ++ py_type_name item ++ "' object is not subscriptable"))
  end.

Definition rbind {A B} (r : result A) (k : A -> result B) : result B :=
  match r with
  | inl e => inl e
  | inr a => k a
  end.

Section Runtime.

(** [int(s)] for a [str]: a builtin of the runtime, taken as it is.  It
    returns the integer that the string denotes or raises. *)
Variable int_str : string -> result Z.

(** [int(v)] *)
Definition py_int (v : pyval) : result Z :=
  match v with
  | PInt n => inr n
  | PBool b => inr (if b then 1 else 0)
  | PFloat (FFinite q) => inr (Z.quot (Qnum q) (Z.pos (Qden q)))
  | PFloat FInf => inl (mk_exn OverflowError "cannot convert float infinity to integer")
  | PFloat FNan => inl (mk_exn ValueError "cannot convert float NaN to integer")
  | PStr s => int_str s
  | _ => inl (mk_exn TypeError
                ("int() argument must be a string, a bytes-like object or a real number, not '"
                   ++ py_type_name v ++ "'"))
  end.

(** Lines 73-78. *)
Definition is_int_str (s : string) : bool :=
  match int_str s with
  | inr _ => true
  | inl _ => false
  end.

(** [int(device_identifier) if is_int_str(device_identifier) else
    device_identifier] (lines 152, 172 and 197) *)
Definition parse_ident (device_identifier : string) : Ident :=
  match int_str device_identifier with
  | inr i => IInt i
  | inl _ => IStr device_identifier
  end.

(** Lines 181-185: for each LED that has an id, in order, the id is
    converted and the assignment is made; the first call that raises ends
    the loop. *)
Fixpoint uniform_colors (r g b : Z) (lps : list LedPosition) : result (list CorsairLedColor) :=
  match lps with
  | [] => inr []
  | lp :: rest =>
      match lp_led_id lp with
      | PNone => uniform_colors r g b rest
      | lid =>
          match py_int lid with
          | inl e => inl e
          | inr n =>
              match new_color n r g b with
              | inl e => inl e
              | inr c =>
                  match uniform_colors r g b rest with
                  | inl e => inl e
                  | inr cs => inr (c :: cs)
                  end
              end
          end
      end
  end.

(** [int(item[key])] *)
Definition int_field (item : pyval) (key : string) : result Z :=
  rbind (py_getitem item key) py_int.

(** Line 200: the four fields are converted from left to right, then
    the class is called. *)
Definition item_color (item : pyval) : result CorsairLedColor :=
  rbind (int_field item "led_id") (fun lid =>
  rbind (int_field item "r") (fun r =>
  rbind (int_field item "g") (fun g =>
  rbind (int_field item "b") (fun b =>
  new_color lid r g b)))).

(** Lines 198-200, over the items already drawn from the payload. *)
Fixpoint items_colors (items : list pyval) : result (list CorsairLedColor) :=
  match items with
  | [] => inr []
  | item :: rest =>
      rbind (item_color item) (fun c =>
      rbind (items_colors rest) (fun cs => inr (c :: cs)))
  end.

Definition payload_colors (leds_payload : pyval) : result (list CorsairLedColor) :=
  rbind (py_iter leds_payload) items_colors.

End Runtime.

(** [argv[i]] *)
Definition argv_get (argv : list string) (i : nat) : result string :=
  match nth_error argv i with
  | Some a => inr a
  | None => inl (mk_exn IndexError "list index out of range")
  end.

Definition default_timeout : Q := 5.

Definition usage : string :=
  "Usage: list_devices | list_leds <deviceId|index> | set_color <r> <g> <b> [deviceId|index] | set_leds <deviceId|index> <jsonArray>".

Definition err_obj (msg : string) : pyval := PDict [("error", PStr msg)].

Definition ok_obj : pyval := PDict [("ok", PBool true)].

Section Adapter.

Context {W : Type}.

(** [json.loads], a facility of the runtime. *)
Variable json_loads : string -> result pyval.

(** [int] on a string, the builtin of the runtime. *)
Variable int_str : string -> result Z.

(** The object returned by [CueSdk()]. *)
Variable sdk : CueSdk W.

(** Lines 19-21. *)
Definition json_out {A} (obj : pyval) (code : Z) : M W A :=
  line <- lift (json_dumps obj) ;;
  print line ;;
  sys_exit code.

(** [ready.wait(timeout_sec)]: whether the connected notification was
    observed before the timeout. *)
Definition wait (timeout_sec : Q) : M W bool :=
  fun st =>
    let '(connected, w) := ready_wait sdk timeout_sec (world st) in
    (Ret connected,
     mkProc w (stdout st) (stdin st) (calls st ++ [CallWait timeout_sec connected])).

(** Lines 24-37. *)
Definition connect_sdk (timeout_sec : Q) : M W unit :=
  call (sdk_new sdk) CallNew ;;
  err <- call (sdk_connect sdk) CallConnect ;;
  when (failed err)
    (json_out (PDict [("error", PStr "Failed to connect to iCUE. Ensure iCUE is running and SDK is enabled.");
                      ("code", PStr (str_of_err err))]) 1) ;;
  wait timeout_sec ;;
  ret tt.

(** Lines 49-68: the loop over [enumerate(devices or [])]. *)
Fixpoint enumerate_from (idx : Z) (devices : list Device) (acc : Enumeration)
  : M W Enumeration :=
  match devices with
  | [] => ret acc
  | d :: rest =>
      let dev_id := device_id d in
      r <- call (sdk_get_device_info sdk dev_id) (CallGetDeviceInfo dev_id) ;;
      let '(info, ierr) := r in
      match failed ierr, info with
      | false, Some info => enumerate_from (idx + 1) rest (record_device acc idx dev_id info)
      | _, _ => enumerate_from (idx + 1) rest acc
      end
  end.

(** Lines 40-70. *)
Definition get_devices_with_indexes : M W Enumeration :=
  r <- call (sdk_get_devices sdk) CallGetDevices ;;
  let '(devices, err) := r in
  when (failed err)
    (json_out (PDict [("error", PStr "Could not enumerate devices");
                      ("code", PStr (str_of_err err))]) 1) ;;
  enumerate_from 0 (default [] devices) empty_enumeration.

(** Lines 81-97. *)
Definition to_device_id (ident : Ident) : M W string :=
  en <- get_devices_with_indexes ;;
  match ident with
  | IInt i =>
      match index_to_id en !! i with
      | Some dev_id => ret dev_id
      | None => json_out (err_obj ("Index out of range: " ++ str_of_int i)) 1
      end
  | IStr s =>
      if is_int_str int_str s then
        idx <- lift (py_int int_str (PStr s)) ;;
        match index_to_id en !! idx with
        | Some dev_id => ret dev_id
        | None => json_out (err_obj ("Index out of range: " ++ s)) 1
        end
      else
        match id_to_index en !! s with
        | Some _ => ret s
        | None => json_out (err_obj ("Unknown device identifier: " ++ s)) 1
        end
  end.

(** Lines 100-103. *)
Definition list_devices_cmd : M W unit :=
  connect_sdk default_timeout ;;
  en <- get_devices_with_indexes ;;
  json_out (PDict [("ok", PBool true); ("devices", PList (map entry_json (en_result en)))]) 0.

(** Lines 114-119: the first entry point that is callable. *)
Fixpoint first_position_api (dev_id : string)
    (names : list (PosApi * option (string -> W -> result PosRet * W)))
  : M W (option Positions * Status) :=
  match names with
  | [] => json_out (err_obj "No LED position API available in cuesdk") 1
  | (api, Some fn) :: _ =>
      res <- call (fn dev_id) (CallPositions api dev_id) ;;
      ret (unpack_positions res)
  | (_, None) :: rest => first_position_api dev_id rest
  end.

(** Lines 106-120. *)
Definition get_led_positions (ident : Ident) : M W (option Positions * Status) :=
  let by_id :=
    dev_id <- to_device_id ident ;;
    first_position_api dev_id
      [(ByDeviceId, sdk_get_led_positions_by_device_id sdk);
       (Generic, sdk_get_led_positions sdk)] in
  match ident, sdk_get_led_positions_by_device_index sdk with
  | IInt i, Some fn =>
      res <- call (fn i) (CallPositionsByIndex i) ;;
      ret (unpack_positions res)
  | _, _ => by_id
  end.

(** Lines 133-140.  When no entry point is callable, line 140 reads
    [CorsairError.CE_Unknown]. *)
Fixpoint first_buffer_api (dev_id : string) (colors : list CorsairLedColor)
    (names : list (PosApi * option (BufArgs -> W -> result CorsairError * W)))
  : M W CorsairError :=
  match names with
  | [] => raise no_CE_Unknown
  | (api, Some fn) :: _ =>
      try_except
        (call (fn (WithTarget dev_id colors)) (CallBuffer api (WithTarget dev_id colors)))
        is_TypeError
        (fun _ => call (fn (ColorsOnly colors)) (CallBuffer api (ColorsOnly colors)))
  | (_, None) :: rest => first_buffer_api dev_id colors rest
  end.

(** Lines 123-140. *)
Definition set_colors_buffer (ident : Ident) (colors : list CorsairLedColor)
  : M W CorsairError :=
  let by_id :=
    dev_id <- to_device_id ident ;;
    first_buffer_api dev_id colors
      [(ByDeviceId, sdk_set_led_colors_buffer_by_device_id sdk);
       (Generic, sdk_set_led_colors_buffer sdk)] in
  match ident, sdk_set_led_colors_buffer_by_device_index sdk with
  | IInt i, Some fn =>
      try_except (call (fn i colors) (CallBufferByIndex i colors)) is_TypeError
        (fun _ => by_id)
  | _, _ => by_id
  end.

(** Lines 143-147. *)
Definition flush_colors : M W Status :=
  match sdk_set_led_colors_flush_buffer sdk with
  | Some fn => err <- call fn CallFlush ;; ret (Returned err)
  | None => ret Attribute_Success
  end.

(** Lines 150-165. *)
Definition list_leds_cmd (device_identifier : string) : M W unit :=
  connect_sdk default_timeout ;;
  let ident := parse_ident int_str device_identifier in
  r <- get_led_positions ident ;;
  let '(positions, err) := r in
  match failed_status err, positions with
  | false, Some positions =>
      json_out (PDict [("ok", PBool true); ("device", PStr device_identifier);
                       ("leds", PList (map led_json (leds_of positions)))]) 0
  | _, _ =>
      json_out (PDict [("error", PStr "Could not get LED positions");
                       ("code", PStr (str_of_status err));
                       ("device", PStr device_identifier)]) 1
  end.

(** Lines 178-191: the body of the loop over the targets. *)
Definition color_target (r g b : Z) (ident : Ident) : M W unit :=
  q <- get_led_positions ident ;;
  let '(positions, perr) := q in
  match failed_status perr, positions with
  | false, Some positions =>
      colors <- lift (uniform_colors int_str r g b (leds_of positions)) ;;
      match colors with
      | [] => ret tt
      | _ =>
          err <- set_colors_buffer ident colors ;;
          if failed err then ret tt
          else (flush_colors ;; ret tt)
      end
  | _, _ => ret tt
  end.

Fixpoint color_targets (r g b : Z) (targets : list Ident) : M W unit :=
  match targets with
  | [] => ret tt
  | ident :: rest => color_target r g b ident ;; color_targets r g b rest
  end.

(** Lines 168-192.  An empty identifier is falsy at line 171. *)
Definition set_color_cmd (r g b : Z) (device_identifier : option string) : M W unit :=
  connect_sdk default_timeout ;;
  targets <-
    match device_identifier with
    | Some (String c s) => ret [parse_ident int_str (String c s)]
    | _ =>
        en <- get_devices_with_indexes ;;
        ret (map (fun d => IInt (e_index d)) (en_result en))
    end ;;
  color_targets r g b targets ;;
  json_out ok_obj 0.

(** Lines 195-205. *)
Definition set_leds_cmd (device_identifier : string) (leds_payload : pyval) : M W unit :=
  connect_sdk default_timeout ;;
  let ident := parse_ident int_str device_identifier in
  colors <- lift (payload_colors int_str leds_payload) ;;
  err <- set_colors_buffer ident colors ;;
  when (failed err)
    (json_out (PDict [("error", PStr "Failed to set LED colors");
                      ("code", PStr (str_of_err err))]) 1) ;;
  flush_colors ;;
  json_out ok_obj 0.

(** Lines 214-228: the body of the [try]. *)
Definition dispatch (argv : list string) (cmd : string) : M W unit :=
  let n := length argv in
  if String.eqb cmd "list_devices" then
    list_devices_cmd
  else if (String.eqb cmd "list_leds" && (2 <=? n)%nat)%bool then
    a1 <- lift (argv_get argv 1) ;;
    list_leds_cmd a1
  else if (String.eqb cmd "set_color" && ((n =? 4)%nat || (n =? 5)%nat))%bool then
    a1 <- lift (argv_get argv 1) ;;
    r <- lift (py_int int_str (PStr a1)) ;;
    a2 <- lift (argv_get argv 2) ;;
    g <- lift (py_int int_str (PStr a2)) ;;
    a3 <- lift (argv_get argv 3) ;;
    b <- lift (py_int int_str (PStr a3)) ;;
    device_identifier <-
      (if (n =? 5)%nat then a4 <- lift (argv_get argv 4) ;; ret (Some a4)
       else ret None) ;;
    set_color_cmd r g b device_identifier
  else if (String.eqb cmd "set_leds" && (3 <=? n)%nat)%bool then
    device_identifier <- lift (argv_get argv 1) ;;
    payload <-
      (if (3 <=? n)%nat then a2 <- lift (argv_get argv 2) ;; lift (json_loads a2)
       else text <- stdin_read ;; lift (json_loads text)) ;;
    set_leds_cmd device_identifier payload
  else
    json_out (err_obj "Bad arguments") 1.

(** Lines 208-230; [argv] is [sys.argv[1:]]. *)
Definition main (argv : list string) : M W unit :=
  match argv with
  | [] => json_out (err_obj usage) 1
  | cmd :: _ =>
      try_except (dispatch argv cmd) (fun _ => true)
        (fun e => json_out (err_obj (exn_str e)) 1)
  end.

(** The exit status of the interpreter: that of [sys.exit], 0 when
    [main] returns, 1 on an exception nobody caught. *)
Definition exit_status {A} (o : outcome A) : Z :=
  match o with
  | Ret _ => 0
  | Raise _ => 1
  | Exit code => code
  end.

(** A fresh process: nothing printed yet, no SDK call made. *)
Definition fresh (w : W) (input : string) : Proc W := mkProc w [] input [].

(** One invocation: what was printed, the exit status, and the final
    state of the process. *)
Definition invoke (argv : list string) (w : W) (input : string)
  : list pyval * Z * Proc W :=
  let '(o, st) := main argv (fresh w input) in
  (stdout st, exit_status o, st).

End Adapter.

(** ** Vocabulary of the properties *)

(** The success object of each command (section 6 of the contract). *)
Definition success_object (cmd : string) (obj : pyval) : Prop :=
  (cmd = "list_devices" /\ exists ds, obj = PDict [("ok", PBool true); ("devices", PList ds)])
  \/ (cmd = "list_leds" /\
      exists dev leds, obj = PDict [("ok", PBool true); ("device", PStr dev); ("leds", PList leds)])
  \/ ((cmd = "set_color" \/ cmd = "set_leds") /\ obj = ok_obj).

(** An object that has the key [error], holding a string. *)
Definition error_object (obj : pyval) : Prop :=
  exists kvs msg, obj = PDict kvs /\ assoc "error" kvs = Some (PStr msg).

(** The output discipline: the exit status matches the document. *)
Definition good_exit (cmd : string) (code : Z) (obj : pyval) : Prop :=
  (code = 0 /\ success_object cmd obj) \/ (code = 1 /\ error_object obj).

(** How a computation may end: [Goes] may return, raise or exit;
    [Leaves] never returns; [Exits] always exits. *)
Inductive ending := Goes | Leaves | Exits.

Section Discipline.

Context {W : Type}.

(** From the state [st], a computation either goes on (or raises)
    having printed nothing, or prints one document and exits under the
    discipline.  The [ending] tells which of these may happen. *)
Definition post (cmd : string) (k : ending) {A} (st : Proc W)
    (r : outcome A * Proc W) : Prop :=
  match r with
  | (Ret _, st') => k = Goes /\ stdout st' = stdout st
  | (Raise _, st') => k <> Exits /\ stdout st' = stdout st
  | (Exit code, st') => exists obj, stdout st' = stdout st ++ [obj] /\ good_exit cmd code obj
  end.

Definition obeys (cmd : string) (k : ending) {A} (m : M W A) : Prop :=
  forall st, post cmd k st (m st).

(** Every SDK call that a computation makes satisfies [P], and the
    calls made before it stay in the log. *)
Definition emits (P : SdkCall -> Prop) {A} (m : M W A) : Prop :=
  forall st, exists new, calls (m st).2 = calls st ++ new /\ Forall P new.

End Discipline.

(** The handler of line 229. *)
Definition top_handler {W : Type} (e : exn) : M W unit := json_out (err_obj (exn_str e)) 1.

(** The colours handed to a buffered-write entry point. *)
Definition written_colors (c : SdkCall) : option (list CorsairLedColor) :=
  match c with
  | CallBufferByIndex _ colors _ => Some colors
  | CallBuffer _ (WithTarget _ colors) _ => Some colors
  | CallBuffer _ (ColorsOnly colors) _ => Some colors
  | _ => None
  end.

(** The buffered writes attempted, oldest first. *)
Definition write_attempts (log : list SdkCall) : list (list CorsairLedColor) :=
  omap written_colors log.

(** A position query of the log: whom it addressed, by index or by id,
    and what the entry point did. *)
Definition position_query (c : SdkCall) : option ((Z + string) * result PosRet) :=
  match c with
  | CallPositionsByIndex i r => Some (inl i, r)
  | CallPositions _ dev_id r => Some (inr dev_id, r)
  | _ => None
  end.

Definition position_queries (log : list SdkCall) : list ((Z + string) * result PosRet) :=
  omap position_query log.

(** What a call is for. *)
Inductive kind := KSession | KEnumeration | KPosition | KWrite | KFlush.

Definition kind_of (c : SdkCall) : kind :=
  match c with
  | CallNew _ | CallConnect _ | CallWait _ _ => KSession
  | CallGetDevices _ | CallGetDeviceInfo _ _ => KEnumeration
  | CallPositionsByIndex _ _ | CallPositions _ _ _ => KPosition
  | CallBufferByIndex _ _ _ | CallBuffer _ _ _ => KWrite
  | CallFlush _ => KFlush
  end.

(** Every buffered write that the call may be carries colours that
    satisfy [Q]. *)
Definition carrying (Q : list CorsairLedColor -> Prop) (c : SdkCall) : Prop :=
  forall colors, written_colors c = Some colors -> Q colors.


(** ** The fan-out of [set_color] *)

(** An answer of a position entry point that makes lines 179-187 pass
    the device over: a status other than Success, no positions, or
    positions none of which has an LED id. *)
Definition passed_over (res : PosRet) : Prop :=
  match unpack_positions res with
  | (Some positions, status) =>
      failed_status status = true
      \/ Forall (fun lp => lp_led_id lp = PNone) (leds_of positions)
  | (None, _) => True
  end.

(** The descriptor that a position query addressed, by the index it is
    listed with or by its device id, with an answer that passes the
    device over. *)
Definition queried (e : Entry) (q : (Z + string) * result PosRet) : Prop :=
  (q.1 = inl (e_index e) \/ exists dev_id, e_device_id e = PStr dev_id /\ q.1 = inr dev_id)
  /\ exists res, q.2 = inr res /\ passed_over res.

Section Cooperation.

Context {W : Type}.
Variable int_str : string -> result Z.

(** What a step adds to the log, printing nothing. *)
Definition adds (st st' : Proc W) (new : list SdkCall) : Prop :=
  calls st' = calls st ++ new /\ stdout st' = stdout st.

(** An entry point that returns whenever it is called, with an answer
    that satisfies [Q]. *)
Definition answers {A} (Q : A -> Prop) (f : W -> result A * W) : Prop :=
  forall w, exists a w', f w = (inr a, w') /\ Q a.

(** The position entry points never raise, and what they answer passes
    the device over. *)
Record unlit (sdk : CueSdk W) : Prop := {
  positions_by_index_answers :
    forall fn i, sdk_get_led_positions_by_device_index sdk = Some fn ->
                 answers passed_over (fn i);
  positions_by_id_answers :
    forall fn dev_id, sdk_get_led_positions_by_device_id sdk = Some fn ->
                      answers passed_over (fn dev_id);
  positions_answers :
    forall fn dev_id, sdk_get_led_positions sdk = Some fn ->
                      answers passed_over (fn dev_id)
}.

Definition has_position_api (sdk : CueSdk W) : Prop :=
  is_Some (sdk_get_led_positions_by_device_index sdk)
  \/ is_Some (sdk_get_led_positions_by_device_id sdk)
  \/ is_Some (sdk_get_led_positions sdk).

(** The index of the descriptor [e] resolves, whenever the adapter
    asks, to the device id of [e]. *)
Definition resolves (sdk : CueSdk W) (e : Entry) : Prop :=
  exists dev_id,
    e_device_id e = PStr dev_id
    /\ forall st, exists st', to_device_id int_str sdk (IInt (e_index e)) st = (Ret dev_id, st').

(** Either the SDK takes indices for positions, so that nothing has to
    be resolved, or the index of every descriptor resolves to its id. *)
Definition addressable (sdk : CueSdk W) (en : Enumeration) : Prop :=
  is_Some (sdk_get_led_positions_by_device_index sdk)
  \/ forall e, e ∈ en_result en -> resolves sdk e.

End Cooperation.

(** ** The enumeration, seen from its answers *)

(** The string device ids among the descriptors. *)
Definition string_id (e : Entry) : option string :=
  match e_device_id e with
  | PStr s => Some s
  | _ => None
  end.

Definition string_ids (l : list Entry) : list string := omap string_id l.

(** The two mappings, rebuilt from the descriptors alone. *)
Definition note_index (m : gmap Z string) (e : Entry) : gmap Z string :=
  match e_device_id e with
  | PStr s => <[e_index e := s]> m
  | _ => m
  end.

Definition note_id (m : gmap string Z) (e : Entry) : gmap string Z :=
  match e_device_id e with
  | PStr s => <[s := e_index e]> m
  | _ => m
  end.

Definition index_map (l : list Entry) : gmap Z string := foldl note_index ∅ l.

Definition id_map (l : list Entry) : gmap string Z := foldl note_id ∅ l.

(** The log entry of an info query that returned. *)
Definition info_event (d : Device) (a : option DeviceInfo * CorsairError) : SdkCall :=
  CallGetDeviceInfo (device_id d) (inr a).

(** The descriptors that the loop of lines 49-68 builds from the
    answers of the info queries, the first device having index [idx]. *)
Fixpoint described (idx : Z) (devices : list Device)
    (answers : list (option DeviceInfo * CorsairError)) : list Entry :=
  match devices, answers with
  | d :: ds, (info, ierr) :: rest =>
      match failed ierr, info with
      | false, Some info => make_entry idx (device_id d) info :: described (idx + 1) ds rest
      | _, _ => described (idx + 1) ds rest
      end
  | _, _ => []
  end.

(** ** Scripted SDKs *)

(** A deterministic SDK without state, for the concrete runs below. *)
Record Script := {
  s_connect : CorsairError;
  s_connected : bool;
  s_devices : list Device;
  s_info : pyval -> option DeviceInfo * CorsairError;
  s_by_index : bool;
  s_positions_at : Z -> PosRet;
  s_positions_of : string -> PosRet;
  s_write : CorsairError
}.

Definition scripted (s : Script) : CueSdk unit :=
  {| sdk_new := fun w => (inr tt, w);
     sdk_connect := fun w => (inr (s_connect s), w);
     ready_wait := fun _ w => (s_connected s, w);
     sdk_get_devices := fun w => (inr (Some (s_devices s), CE_Success), w);
     sdk_get_device_info := fun dev_id w => (inr (s_info s dev_id), w);
     sdk_get_led_positions_by_device_index :=
       if s_by_index s then Some (fun i w => (inr (s_positions_at s i), w)) else None;
     sdk_get_led_positions_by_device_id := None;
     sdk_get_led_positions := Some (fun dev_id w => (inr (s_positions_of s dev_id), w));
     sdk_set_led_colors_buffer_by_device_index :=
       if s_by_index s then Some (fun _ _ w => (inr (s_write s), w)) else None;
     sdk_set_led_colors_buffer_by_device_id := None;
     sdk_set_led_colors_buffer := Some (fun _ w => (inr (s_write s), w));
     sdk_set_led_colors_flush_buffer := Some (fun w => (inr CE_Success, w)) |}.

Definition keyboard_info : DeviceInfo :=
  {| info_type := Some (PStr "CDT_Keyboard");
     info_model := PStr "K70";
     info_serial := PStr "";
     info_led_count := PInt 2;
     info_channel_count := PInt 0 |}.

Definition led (n : Z) : LedPosition :=
  {| lp_led_id := PInt n;
     lp_top := PFloat (FFinite 0);
     lp_left := PFloat (FFinite 0);
     lp_height := PFloat (FFinite 1);
     lp_width := PFloat (FFinite 1) |}.

(** Three devices; the info query of the second one fails, and the
    position query of the first one fails. *)
Definition desk : Script :=
  {| s_connect := CE_Success;
     s_connected := false;
     s_devices := [ {| device_id := PStr "{kbd}" |};
                    {| device_id := PStr "{gone}" |};
                    {| device_id := PStr "{fan}" |} ];
     s_info := fun dev_id =>
       match dev_id with
       | PStr "{gone}" => (None, CE_Other "CE_DeviceNotFound")
       | _ => (Some keyboard_info, CE_Success)
       end;
     s_by_index := false;
     s_positions_at := fun _ => PosTuple None (CE_Other "CE_InvalidArguments");
     s_positions_of := fun dev_id =>
       if String.eqb dev_id "{fan}"
       then PosTuple (Some {| led_positions := Some [led 1; led 2] |}) CE_Success
       else PosTuple None (CE_Other "CE_DeviceNotFound");
     s_write := CE_Success |}.

(** The same devices behind an SDK that has the index-addressed entry
    points. *)
Definition desk_by_index : Script :=
  {| s_connect := CE_Success;
     s_connected := true;
     s_devices := s_devices desk;
     s_info := s_info desk;
     s_by_index := true;
     s_positions_at := fun i =>
       if Z.eqb i 2
       then PosTuple (Some {| led_positions := Some [led 1; led 2] |}) CE_Success
       else PosTuple None (CE_Other "CE_InvalidArguments");
     s_positions_of := s_positions_of desk;
     s_write := CE_Success |}.

(** Two devices whose ids read as integers: the id of each one is an
    index too, and not its own. *)
Definition numbered : Script :=
  {| s_connect := CE_Success;
     s_connected := true;
     s_devices := [ {| device_id := PStr "7" |}; {| device_id := PStr "0" |} ];
     s_info := fun _ => (Some keyboard_info, CE_Success);
     s_by_index := false;
     s_positions_at := fun _ => PosTuple None (CE_Other "CE_InvalidArguments");
     s_positions_of := fun _ => PosTuple (Some {| led_positions := Some [led 1] |}) CE_Success;
     s_write := CE_Success |}.

(** The enumeration that a scripted SDK yields from a state of the
    process, and the state it leaves. *)
Definition enumeration_at (s : Script) (st : Proc unit) : Enumeration :=
  match (get_devices_with_indexes (scripted s) st).1 with
  | Ret en => en
  | _ => empty_enumeration
  end.

Definition after_enumeration_at (s : Script) (st : Proc unit) : Proc unit :=
  (get_devices_with_indexes (scripted s) st).2.

Definition first_enumeration (s : Script) : Enumeration := enumeration_at s (fresh tt "").

Definition after_enumeration (s : Script) : Proc unit := after_enumeration_at s (fresh tt "").

(** The process once the session is established. *)
Definition connected (s : Script) : Proc unit :=
  (connect_sdk (scripted s) default_timeout (fresh tt "")).2.

(** An SDK that refuses the session. *)
Definition refused : Script :=
  {| s_connect := CE_Other "CE_NotConnected";
     s_connected := false;
     s_devices := [];
     s_info := fun _ => (None, CE_Other "CE_NotConnected");
     s_by_index := false;
     s_positions_at := fun _ => PosTuple None (CE_Other "CE_NotConnected");
     s_positions_of := fun _ => PosTuple None (CE_Other "CE_NotConnected");
     s_write := CE_Other "CE_NotConnected" |}.

(** ** A runtime for the concrete runs *)

Definition dq : string := String (ascii_of_nat 34) EmptyString.

Definition one_red_led : string :=
  "[{" ++ dq ++ "led_id" ++ dq ++ ": 3, " ++ dq ++ "r" ++ dq ++ ": 255, "
       ++ dq ++ "g" ++ dq ++ ": 0, " ++ dq ++ "b" ++ dq ++ ": 0}]".

(** A [json.loads] that knows two documents, the empty array and
    [one_red_led]; it stands for [json.loads] in the runs below, which
    give it these two and a text that is no document. *)
Definition loads_known (text : string) : result pyval :=
  if String.eqb text "[]" then inr (PList [])
  else if String.eqb text one_red_led
  then inr (PList [PDict [("led_id", PInt 3); ("r", PInt 255); ("g", PInt 0); ("b", PInt 0)]])
  else inl (mk_exn ValueError "Expecting value: line 1 column 1 (char 0)").

(** An [int] that knows a few literals; it stands for [int] in the
    runs below, whose other strings [int] rejects with this message. *)
Definition int_known (s : string) : result Z :=
  match s with
  | "0" => inr 0
  | "1" => inr 1
  | "2" => inr 2
  | "7" => inr 7
  | "-7" => inr (-7)
  | "128" => inr 128
  | "255" => inr 255
  | _ => inl (mk_exn ValueError ("invalid literal for int() with base 10: '" ++ s ++ "'"))
  end.


(** Two devices with nothing to colour: the position query of the first
    one fails, and the second one has no LED. *)
Definition dark : Script :=
  {| s_connect := CE_Success;
     s_connected := true;
     s_devices := [ {| device_id := PStr "{kbd}" |}; {| device_id := PStr "{fan}" |} ];
     s_info := fun _ => (Some keyboard_info, CE_Success);
     s_by_index := false;
     s_positions_at := fun _ => PosTuple None (CE_Other "CE_InvalidArguments");
     s_positions_of := fun dev_id =>
       if String.eqb dev_id "{fan}"
       then PosTuple (Some {| led_positions := Some [] |}) CE_Success
       else PosTuple None (CE_Other "CE_DeviceNotFound");
     s_write := CE_Success |}.

(** Two devices to which the SDK gives the same id. *)
Definition twins : Script :=
  {| s_connect := CE_Success;
     s_connected := true;
     s_devices := [ {| device_id := PStr "{twin}" |}; {| device_id := PStr "{twin}" |} ];
     s_info := fun _ => (Some keyboard_info, CE_Success);
     s_by_index := false;
     s_positions_at := fun _ => PosTuple None (CE_Other "CE_InvalidArguments");
     s_positions_of := fun _ => PosTuple None (CE_Other "CE_DeviceNotFound");
     s_write := CE_Success |}.

(** The calls of a step that neither writes nor flushes. *)
Definition reads_only (new : list SdkCall) : Prop :=
  Forall (fun c => kind_of c <> KWrite /\ kind_of c <> KFlush) new.
(** ** Vocabulary of the further properties *)

(** A computation that leaves standard input as it found it. *)
Definition keeps_stdin {W A : Type} (m : M W A) : Prop :=
  forall st, stdin (m st).2 = stdin st.

(** A computation that makes no SDK call. *)
Definition silent_to_sdk {W A : Type} (m : M W A) : Prop :=
  forall st, calls (m st).2 = calls st.

(** The three calls that establish the session, in their order. *)
Definition session_opening (connected : bool) : list SdkCall :=
  [CallNew (inr tt); CallConnect (inr CE_Success); CallWait default_timeout connected].

(** The log of an invocation that never had a session: nothing, a
    constructor that raised, or a connect call that raised or answered a
    status other than Success. *)
Definition no_session (log : list SdkCall) : Prop :=
  log = []
  \/ (exists e, log = [CallNew (inl e)])
  \/ (exists r, log = [CallNew (inr tt); CallConnect r] /\ r <> inr CE_Success).

(** The log of an invocation starts with the session, if it has one. *)
Definition session_first (log : list SdkCall) : Prop :=
  no_session log \/ exists connected rest, log = session_opening connected ++ rest.

(** A computation that, started with an empty log, leaves a log that
    starts with the session. *)
Definition opens {W A : Type} (m : M W A) : Prop :=
  forall st, calls st = [] -> session_first (calls (m st).2).

(** A buffered write that answered Success. *)
Definition wrote_ok (c : SdkCall) : bool :=
  match c with
  | CallBufferByIndex _ _ (inr CE_Success) => true
  | CallBuffer _ _ (inr CE_Success) => true
  | _ => false
  end.

(** Every flush of the log comes right after a buffered write that
    answered Success; [prev_ok] tells whether the call before the log
    was one. *)
Fixpoint flushes_follow_writes (prev_ok : bool) (log : list SdkCall) : bool :=
  match log with
  | [] => true
  | c :: rest =>
      match c with
      | CallFlush _ => prev_ok
      | _ => true
      end && flushes_follow_writes (wrote_ok c) rest
  end.

Definition last_wrote_ok (prev_ok : bool) (log : list SdkCall) : bool :=
  match last log with
  | Some c => wrote_ok c
  | None => prev_ok
  end.

(** A computation that keeps the flushes of the log behind successful
    writes. *)
Definition keeps_tidy {W A : Type} (m : M W A) : Prop :=
  forall st,
    flushes_follow_writes false (calls st) = true ->
    flushes_follow_writes false (calls (m st).2) = true.


(** The exception with which a logged call ended, if it raised. *)
Definition raised (c : SdkCall) : option exn :=
  match c with
  | CallNew (inl e) | CallConnect (inl e) | CallGetDevices (inl e)
  | CallGetDeviceInfo _ (inl e) | CallPositionsByIndex _ (inl e)
  | CallPositions _ _ (inl e) | CallBufferByIndex _ _ (inl e)
  | CallBuffer _ _ (inl e) | CallFlush (inl e) => Some e
  | _ => None
  end.

(** A computation whose last SDK call, when it raised, is the reason
    why the computation raised. *)
Definition relays {W A : Type} (m : M W A) : Prop :=
  forall st, exists new,
    calls (m st).2 = calls st ++ new
    /\ forall c e, last new = Some c -> raised c = Some e -> (m st).1 = Raise e.

(** A computation that makes at least one SDK call. *)
Definition calls_first {W A : Type} (m : M W A) : Prop :=
  forall st, exists c rest, calls (m st).2 = calls st ++ c :: rest.

(** ** Further scripted SDKs *)

(** One device whose serial number is an object that the encoder does
    not know. *)
Definition sealed : Script :=
  {| s_connect := CE_Success;
     s_connected := true;
     s_devices := [ {| device_id := PStr "{kbd}" |} ];
     s_info := fun _ =>
       (Some {| info_type := Some (PStr "CDT_Keyboard");
                info_model := PStr "K70";
                info_serial := POpaque "bytes";
                info_led_count := PInt 2;
                info_channel_count := PInt 0 |}, CE_Success);
     s_by_index := false;
     s_positions_at := fun _ => PosTuple None (CE_Other "CE_InvalidArguments");
     s_positions_of := fun _ => PosTuple None (CE_Other "CE_InvalidArguments");
     s_write := CE_Success |}.

(** Two devices, the second of which has no [device_id]. *)
Definition nameless : Script :=
  {| s_connect := CE_Success;
     s_connected := true;
     s_devices := [ {| device_id := PStr "{kbd}" |}; {| device_id := PNone |} ];
     s_info := fun _ => (Some keyboard_info, CE_Success);
     s_by_index := false;
     s_positions_at := fun _ => PosTuple None (CE_Other "CE_InvalidArguments");
     s_positions_of := fun _ => PosTuple (Some {| led_positions := Some [led 1] |}) CE_Success;
     s_write := CE_Success |}.

(** The SDK of [desk] when the enumeration is refused. *)
Definition unlisted : CueSdk unit :=
  {| sdk_new := sdk_new (scripted desk);
     sdk_connect := sdk_connect (scripted desk);
     ready_wait := ready_wait (scripted desk);
     sdk_get_devices := fun w => (inr (None, CE_Other "CE_NotConnected"), w);
     sdk_get_device_info := sdk_get_device_info (scripted desk);
     sdk_get_led_positions_by_device_index := None;
     sdk_get_led_positions_by_device_id := None;
     sdk_get_led_positions := sdk_get_led_positions (scripted desk);
     sdk_set_led_colors_buffer_by_device_index := None;
     sdk_set_led_colors_buffer_by_device_id := None;
     sdk_set_led_colors_buffer := sdk_set_led_colors_buffer (scripted desk);
     sdk_set_led_colors_flush_buffer := sdk_set_led_colors_flush_buffer (scripted desk) |}.

(** The SDK of [desk] without any buffered-write entry point. *)
Definition read_only : CueSdk unit :=
  {| sdk_new := sdk_new (scripted desk);
     sdk_connect := sdk_connect (scripted desk);
     ready_wait := ready_wait (scripted desk);
     sdk_get_devices := sdk_get_devices (scripted desk);
     sdk_get_device_info := sdk_get_device_info (scripted desk);
     sdk_get_led_positions_by_device_index := None;
     sdk_get_led_positions_by_device_id := None;
     sdk_get_led_positions := sdk_get_led_positions (scripted desk);
     sdk_set_led_colors_buffer_by_device_index := None;
     sdk_set_led_colors_buffer_by_device_id := None;
     sdk_set_led_colors_buffer := None;
     sdk_set_led_colors_flush_buffer := sdk_set_led_colors_flush_buffer (scripted desk) |}.

(** The SDK of [desk] when the position query raises. *)
Definition broken_positions : CueSdk unit :=
  {| sdk_new := sdk_new (scripted desk);
     sdk_connect := sdk_connect (scripted desk);
     ready_wait := ready_wait (scripted desk);
     sdk_get_devices := sdk_get_devices (scripted desk);
     sdk_get_device_info := sdk_get_device_info (scripted desk);
     sdk_get_led_positions_by_device_index := None;
     sdk_get_led_positions_by_device_id := None;
     sdk_get_led_positions :=
       Some (fun _ w => (inl (mk_exn OtherError "library not loaded"), w));
     sdk_set_led_colors_buffer_by_device_index := None;
     sdk_set_led_colors_buffer_by_device_id := None;
     sdk_set_led_colors_buffer := sdk_set_led_colors_buffer (scripted desk);
     sdk_set_led_colors_flush_buffer := sdk_set_led_colors_flush_buffer (scripted desk) |}.

(** Every buffered write of the log that answered Success is followed
    at once by a flush. *)
Fixpoint writes_are_flushed (log : list SdkCall) : bool :=
  match log with
  | [] => true
  | c :: rest =>
      (if wrote_ok c
       then match rest with
            | CallFlush _ :: _ => true
            | _ => false
            end
       else true)
      && writes_are_flushed rest
  end.

(** A computation that leaves no successful write without its flush. *)
Definition settles {W A : Type} (m : M W A) : Prop :=
  forall st,
    writes_are_flushed (calls st) = true ->
    writes_are_flushed (calls (m st).2) = true.

(** A computation whose only successful write, if it makes one, is its
    last call, after which it returns Success. *)
Definition writes_last {W : Type} (m : M W CorsairError) : Prop :=
  forall st, exists quiet,
    Forall (fun c => wrote_ok c = false) quiet
    /\ (calls (m st).2 = calls st ++ quiet
        \/ exists c,
             wrote_ok c = true
             /\ calls (m st).2 = calls st ++ quiet ++ [c]
             /\ (m st).1 = Ret CE_Success).
(** * Properties *)

Example str_of_int_examples :
  str_of_int 0 = "0" /\ str_of_int (-1) = "-1" /\ str_of_int 255 = "255".
Proof. repeat split; vm_compute; reflexivity. Qed.

Lemma error_object_not_success cmd obj : error_object obj -> ~ success_object cmd obj.
Proof.
  intros (kvs & msg & -> & Hk) [(_ & ds & H) | [(_ & dev & leds & H) | (_ & H)]];
    inversion H; subst; discriminate.
Qed.

Section DisciplineLemmas.

Context {W : Type}.
Variable sdk : CueSdk W.
Variable cmd : string.

Lemma obeys_ret {A} (a : A) : obeys (W:=W) cmd Goes (ret a).
Proof. intros st. simpl. auto. Qed.

Lemma obeys_raise {A} k (e : exn) : k <> Exits -> obeys (W:=W) (A:=A) cmd k (raise e).
Proof. intros Hk st. simpl. auto. Qed.

Lemma obeys_lift {A} (r : result A) : obeys (W:=W) cmd Goes (lift r).
Proof. destruct r; [apply obeys_raise; discriminate | apply obeys_ret]. Qed.

Lemma obeys_bind {A B} k (m : M W A) (f : A -> M W B) :
  k <> Exits -> obeys cmd Goes m -> (forall a, obeys cmd k (f a)) -> obeys cmd k (bind m f).
Proof.
  intros Hk Hm Hf st. specialize (Hm st). unfold bind.
  destruct (m st) as [[a | e | c] st']; simpl in *; [ | tauto | exact Hm].
  destruct Hm as [_ Hm]. specialize (Hf a st').
  destruct (f a st') as [[a' | e' | c'] st'']; simpl in *; rewrite <- Hm; exact Hf.
Qed.

Lemma obeys_try {A} k (m : M W A) catches h :
  obeys cmd k m -> (forall e, obeys cmd k (h e)) -> obeys cmd k (try_except m catches h).
Proof.
  intros Hm Hh st. specialize (Hm st). unfold try_except.
  destruct (m st) as [[a | e | c] st']; simpl in *; auto.
  destruct (catches e); simpl; auto. specialize (Hh e st'). destruct Hm as [_ Hm].
  destruct (h e st') as [[a' | e' | c'] st'']; simpl in *; rewrite <- Hm; exact Hh.
Qed.

(** A handler that catches everything and always exits. *)
Lemma obeys_try_all {A} (m : M W A) h :
  obeys cmd Leaves m -> (forall e, obeys cmd Exits (h e)) ->
  obeys cmd Exits (try_except m (fun _ => true) h).
Proof.
  intros Hm Hh st. specialize (Hm st). unfold try_except.
  destruct (m st) as [[a | e | c] st']; simpl in *; auto.
  - destruct Hm; discriminate.
  - specialize (Hh e st'). destruct Hm as [_ Hm].
    destruct (h e st') as [[a' | e' | c'] st'']; simpl in *; rewrite <- Hm; exact Hh.
Qed.

Lemma obeys_call {A} (f : W -> result A * W) ev : obeys cmd Goes (call f ev).
Proof.
  intros st. unfold call. destruct (f (world st)) as [[e | a] w]; simpl; auto.
Qed.

Lemma obeys_wait t : obeys cmd Goes (wait sdk t).
Proof.
  intros st. unfold wait. destruct (ready_wait sdk t (world st)); simpl; auto.
Qed.

Lemma obeys_stdin_read : obeys (W:=W) cmd Goes stdin_read.
Proof. intros st. simpl. auto. Qed.

Lemma obeys_when b (body : M W unit) : obeys cmd Goes body -> obeys cmd Goes (when b body).
Proof. destruct b; simpl; auto using obeys_ret. Qed.

Lemma obeys_json_out {A} k obj code :
  k <> Exits -> good_exit cmd code obj -> obeys (W:=W) cmd k (json_out (A:=A) obj code).
Proof.
  intros Hk He st. unfold json_out, bind, json_dumps.
  destruct (json_serializable obj); simpl; auto.
  exists obj. auto.
Qed.

Lemma obeys_json_out_error {A} k obj :
  k <> Exits -> error_object obj -> obeys (W:=W) cmd k (json_out (A:=A) obj 1).
Proof. intros Hk He. apply obeys_json_out; [exact Hk | right; auto]. Qed.

Lemma obeys_json_out_success {A} k obj :
  k <> Exits -> success_object cmd obj -> obeys (W:=W) cmd k (json_out (A:=A) obj 0).
Proof. intros Hk He. apply obeys_json_out; [exact Hk | left; auto]. Qed.

(** An error made of a message alone can always be printed. *)
Lemma obeys_json_out_err_obj {A} k msg : obeys (W:=W) cmd k (json_out (A:=A) (err_obj msg) 1).
Proof.
  intros st. unfold json_out, bind. simpl. exists (err_obj msg).
  split; [reflexivity | right; split; [reflexivity | ]].
  exists [("error", PStr msg)], msg. split; reflexivity.
Qed.

End DisciplineLemmas.

Lemma error_object_intro msg rest : error_object (PDict (("error", PStr msg) :: rest)).
Proof. exists (("error", PStr msg) :: rest), msg. split; reflexivity. Qed.

Lemma error_object_err_obj msg : error_object (err_obj msg).
Proof. apply error_object_intro. Qed.

Create HintDb discipline.

#[export] Hint Resolve error_object_intro error_object_err_obj : discipline.
#[export] Hint Resolve obeys_ret obeys_raise obeys_lift obeys_call obeys_wait
  obeys_stdin_read obeys_when obeys_json_out_error obeys_json_out_err_obj : discipline.
#[export] Hint Extern 1 (_ <> Exits) => discriminate : discipline.

(** One step of a discipline proof: peel a bind, or close a leaf. *)
Ltac obey_step :=
  lazymatch goal with
  | |- obeys _ _ (bind _ _) => apply obeys_bind; [discriminate | | intros ? ]
  | |- obeys _ _ (try_except _ _ _) => apply obeys_try; [ | intros ? ]
  | |- obeys _ _ (when _ _) => apply obeys_when
  | |- obeys _ _ _ => solve [auto with discipline]
  | |- _ <> Exits => discriminate
  end.

Ltac obey := repeat obey_step.

Section DisciplineOfTheAdapter.

Context {W : Type}.
Variable int_str : string -> result Z.
Variable sdk : CueSdk W.
Variable cmd : string.

Lemma obeys_connect_sdk t : obeys cmd Goes (connect_sdk sdk t).
Proof. unfold connect_sdk. obey. Qed.

Lemma obeys_enumerate_from devices : forall idx acc,
  obeys cmd Goes (enumerate_from sdk idx devices acc).
Proof.
  induction devices as [| d rest IH]; intros idx acc; simpl.
  - obey.
  - obey. destruct a as [info ierr]. destruct (failed ierr), info; apply IH.
Qed.

Lemma obeys_get_devices_with_indexes : obeys cmd Goes (get_devices_with_indexes sdk).
Proof.
  unfold get_devices_with_indexes. obey. destruct a as [devices err]. obey.
  apply obeys_enumerate_from.
Qed.

Local Hint Resolve obeys_get_devices_with_indexes : discipline.

Lemma obeys_to_device_id ident : obeys cmd Goes (to_device_id int_str sdk ident).
Proof.
  unfold to_device_id. obey.
  destruct ident as [i | s].
  - destruct (index_to_id a !! i); obey.
  - destruct (is_int_str int_str s).
    + obey. destruct (index_to_id a !! a0); obey.
    + destruct (id_to_index a !! s); obey.
Qed.

Local Hint Resolve obeys_to_device_id : discipline.

Lemma obeys_first_position_api dev_id names :
  obeys (W:=W) cmd Goes (first_position_api dev_id names).
Proof.
  induction names as [| [api [fn |]] rest IH]; simpl; obey.
Qed.

Local Hint Resolve obeys_first_position_api : discipline.

Lemma obeys_get_led_positions ident : obeys cmd Goes (get_led_positions int_str sdk ident).
Proof.
  unfold get_led_positions.
  destruct ident as [i | s]; [destruct (sdk_get_led_positions_by_device_index sdk) | ]; obey.
Qed.

Lemma obeys_first_buffer_api dev_id colors names :
  obeys (W:=W) cmd Goes (first_buffer_api dev_id colors names).
Proof.
  induction names as [| [api [fn |]] rest IH]; simpl; obey.
Qed.

Local Hint Resolve obeys_first_buffer_api : discipline.

Lemma obeys_set_colors_buffer ident colors :
  obeys cmd Goes (set_colors_buffer int_str sdk ident colors).
Proof.
  unfold set_colors_buffer.
  destruct ident as [i | s];
    [destruct (sdk_set_led_colors_buffer_by_device_index sdk) | ]; obey.
Qed.

Lemma obeys_flush_colors : obeys cmd Goes (flush_colors sdk).
Proof. unfold flush_colors. destruct (sdk_set_led_colors_flush_buffer sdk); obey. Qed.

Local Hint Resolve obeys_get_led_positions obeys_set_colors_buffer obeys_flush_colors
  : discipline.

Lemma obeys_color_target r g b ident : obeys cmd Goes (color_target int_str sdk r g b ident).
Proof.
  unfold color_target. obey. destruct a as [positions perr].
  destruct (failed_status perr), positions; obey.
  destruct a; obey.
  destruct (failed a0); obey.
Qed.

Local Hint Resolve obeys_color_target : discipline.

Lemma obeys_color_targets r g b targets : obeys cmd Goes (color_targets int_str sdk r g b targets).
Proof.
  induction targets as [| ident rest IH]; simpl; obey.
Qed.

End DisciplineOfTheAdapter.

#[export] Hint Resolve obeys_connect_sdk obeys_get_devices_with_indexes obeys_to_device_id
  obeys_get_led_positions obeys_set_colors_buffer obeys_flush_colors
  obeys_color_targets : discipline.

Section DisciplineOfTheCommands.

Context {W : Type}.
Variable json_loads : string -> result pyval.
Variable int_str : string -> result Z.
Variable sdk : CueSdk W.

Lemma obeys_list_devices_cmd : obeys "list_devices" Leaves (list_devices_cmd sdk).
Proof.
  unfold list_devices_cmd. obey. apply obeys_json_out_success; [discriminate | ].
  left. split; [reflexivity | eauto].
Qed.

Lemma obeys_list_leds_cmd dev : obeys "list_leds" Leaves (list_leds_cmd int_str sdk dev).
Proof.
  unfold list_leds_cmd. obey. destruct a0 as [positions err].
  destruct (failed_status err), positions; obey.
  apply obeys_json_out_success; [discriminate | ]. right; left. split; [reflexivity | eauto].
Qed.

Lemma obeys_set_color_cmd r g b dev :
  obeys "set_color" Leaves (set_color_cmd int_str sdk r g b dev).
Proof.
  unfold set_color_cmd. obey.
  - destruct dev as [[| c s] |]; obey.
  - apply obeys_json_out_success; [discriminate | ]. right; right. split; [left |]; reflexivity.
Qed.

Lemma obeys_set_leds_cmd dev payload :
  obeys "set_leds" Leaves (set_leds_cmd int_str sdk dev payload).
Proof.
  unfold set_leds_cmd. obey.
  apply obeys_json_out_success; [discriminate | ]. right; right. split; [right |]; reflexivity.
Qed.

Lemma obeys_dispatch argv cmd : obeys cmd Leaves (dispatch json_loads int_str sdk argv cmd).
Proof.
  unfold dispatch.
  destruct (String.eqb_spec cmd "list_devices") as [-> | _].
  { apply obeys_list_devices_cmd. }
  destruct (String.eqb_spec cmd "list_leds") as [-> | _];
    cbn [String.eqb Ascii.eqb Bool.eqb andb].
  { destruct (2 <=? length argv)%nat; obey. apply obeys_list_leds_cmd. }
  destruct (String.eqb_spec cmd "set_color") as [-> | _];
    cbn [String.eqb Ascii.eqb Bool.eqb andb].
  { destruct ((length argv =? 4)%nat || (length argv =? 5)%nat)%bool; obey.
    - destruct (length argv =? 5)%nat; obey.
    - apply obeys_set_color_cmd. }
  destruct (String.eqb_spec cmd "set_leds") as [-> | _];
    cbn [String.eqb Ascii.eqb Bool.eqb andb].
  { destruct (3 <=? length argv)%nat; obey. apply obeys_set_leds_cmd. }
  obey.
Qed.

Lemma obeys_main argv : obeys (hd "" argv) Exits (main json_loads int_str sdk argv).
Proof.
  destruct argv as [| cmd rest]; simpl.
  - apply obeys_json_out_err_obj.
  - apply obeys_try_all; [apply obeys_dispatch | intros e; apply obeys_json_out_err_obj].
Qed.

End DisciplineOfTheCommands.

(** ** The output contract *)

(** C1.  Whatever the arguments, the SDK and its state, an invocation
    prints exactly one document; the exit status is 0 exactly when the
    document is the success object of the command named by the first
    argument, and otherwise it is 1 and the document has an [error]
    key. *)
Theorem one_document_per_invocation {W : Type} (json_loads : string -> result pyval)
    (int_str : string -> result Z) (sdk : CueSdk W) (argv : list string) (w : W) (input : string) :
  let '(out, code, _) := invoke json_loads int_str sdk argv w input in
  exists obj,
    out = [obj]
    /\ (code = 0 <-> success_object (hd "" argv) obj)
    /\ (code = 0 \/ (code = 1 /\ error_object obj)).
Proof.
  unfold invoke. pose proof (obeys_main json_loads int_str sdk argv (fresh w input)) as H.
  destruct (main json_loads int_str sdk argv (fresh w input)) as [[a | e | code] st]; simpl in H.
  - destruct H; discriminate.
  - destruct H as [H _]. congruence.
  - destruct H as (obj & Hout & Hgood). exists obj. split; [exact Hout | ].
    destruct Hgood as [[-> Hs] | [-> He]].
    + split; [tauto | left; reflexivity].
    + split; [ | right; auto].
      split; [discriminate | intros Hs; exfalso; eapply error_object_not_success; eauto].
Qed.

(** C3.  [set_leds] with the identifier alone does not read the array
    from standard input: the guard of line 223 asks for three arguments,
    so the invocation falls to the last branch, answers "Bad arguments"
    with status 1, makes no SDK call and leaves standard input unread.
    The reading of standard input at line 225 is never reached. *)
Theorem set_leds_without_payload_is_rejected {W : Type}
    (json_loads : string -> result pyval)
    (int_str : string -> result Z) (sdk : CueSdk W) (dev : string) (w : W)
    (input : string) :
  invoke json_loads int_str sdk ["set_leds"; dev] w input
  = ([err_obj "Bad arguments"], 1, mkProc w [err_obj "Bad arguments"] input []).
Proof. reflexivity. Qed.

(** ** Session establishment *)

(** C7.  When the connect call answers a status other than Success,
    [connect_sdk] prints the error with the status and exits with 1,
    without waiting.  When it answers Success, [connect_sdk] waits with
    the timeout (5 seconds by default) and returns whether or not the
    connected notification was observed, having printed nothing. *)
Theorem session_establishment {W : Type} (sdk : CueSdk W) (st : Proc W) (w1 w2 : W)
    (err : CorsairError) :
  sdk_new sdk (world st) = (inr tt, w1) ->
  sdk_connect sdk w1 = (inr err, w2) ->
  (err <> CE_Success ->
     connect_sdk sdk default_timeout st
     = (Exit 1,
        mkProc w2
          (stdout st ++
             [PDict [("error", PStr "Failed to connect to iCUE. Ensure iCUE is running and SDK is enabled.");
                     ("code", PStr (str_of_err err))]])
          (stdin st)
          (calls st ++ [CallNew (inr tt); CallConnect (inr err)])))
  /\ (err = CE_Success ->
      forall connected w3,
        ready_wait sdk default_timeout w2 = (connected, w3) ->
        connect_sdk sdk default_timeout st
        = (Ret tt,
           mkProc w3 (stdout st) (stdin st)
             (calls st ++ [CallNew (inr tt); CallConnect (inr err);
                           CallWait default_timeout connected])))
  /\ default_timeout = 5%Q.
Proof.
  intros Hnew Hconnect. split; [ | split; [ | reflexivity]].
  - intros Hne. unfold connect_sdk, bind, call. rewrite Hnew. simpl. rewrite Hconnect. simpl.
    unfold failed. rewrite bool_decide_eq_true_2 by exact Hne. simpl.
    rewrite <- app_assoc. reflexivity.
  - intros -> connected w3 Hwait. unfold connect_sdk, bind, call, wait.
    rewrite Hnew. simpl. rewrite Hconnect. simpl. rewrite Hwait. simpl.
    rewrite <- !app_assoc. reflexivity.
Qed.

Lemma session_establishment_witness :
  (exists st, connect_sdk (scripted refused) default_timeout (fresh tt "") = (Exit 1, st)
              /\ length (stdout st) = 1%nat)
  /\ (exists st, connect_sdk (scripted desk) default_timeout (fresh tt "") = (Ret tt, st)
                 /\ calls st = [CallNew (inr tt); CallConnect (inr CE_Success);
                                CallWait default_timeout false]).
Proof.
  split.
  - eexists. split.
    + apply (session_establishment (scripted refused) (fresh tt "") tt tt
               (CE_Other "CE_NotConnected")); [reflexivity | reflexivity | discriminate].
    + reflexivity.
  - eexists. split.
    + apply (session_establishment (scripted desk) (fresh tt "") tt tt CE_Success)
        with (connected := false) (w3 := tt); reflexivity.
    + reflexivity.
Defined.

(** ** The enumeration *)

Lemma failed_false err : failed err = false <-> err = CE_Success.
Proof.
  unfold failed. destruct (decide (err = CE_Success)) as [-> | Hne].
  - split; [reflexivity | intros _; apply bool_decide_eq_false_2; auto].
  - rewrite bool_decide_eq_true_2 by exact Hne. split; [discriminate | contradiction].
Qed.

Lemma failed_true err : failed err = true <-> err <> CE_Success.
Proof. unfold failed. apply bool_decide_eq_true. Qed.

Section Described.

Lemma described_bounds devices : forall idx answers,
  Forall (fun e => idx <= e_index e) (described idx devices answers).
Proof.
  induction devices as [| d ds IH]; intros idx [| [info ierr] rest]; simpl; try constructor.
  assert (Forall (fun e => idx <= e_index e) (described (idx + 1) ds rest)) as Hrest.
  { eapply Forall_impl; [apply IH | ]. simpl. intros; lia. }
  destruct (failed ierr), info; try exact Hrest.
  constructor; [simpl; lia | exact Hrest].
Qed.

Lemma described_sorted devices : forall idx answers,
  StronglySorted Z.lt (map e_index (described idx devices answers)).
Proof.
  induction devices as [| d ds IH]; intros idx [| [info ierr] rest]; simpl; try constructor.
  destruct (failed ierr), info; try apply IH.
  simpl. constructor; [apply IH | ].
  apply Forall_map. eapply Forall_impl; [apply (described_bounds ds (idx + 1) rest) | ].
  simpl. intros; lia.
Qed.

Lemma elem_of_described devices : forall idx answers e,
  e ∈ described idx devices answers <->
  exists (k : nat) d info,
    devices !! k = Some d /\ answers !! k = Some (Some info, CE_Success)
    /\ e = make_entry (idx + Z.of_nat k) (device_id d) info.
Proof.
  induction devices as [| d ds IH]; intros idx answers e.
  - simpl. split; [intros H; inversion H | intros (k & d & info & H & _); destruct k; discriminate].
  - destruct answers as [| [info ierr] rest].
    { simpl. split; [intros H; inversion H | ].
      intros (k & d' & info & _ & H & _). destruct k; discriminate. }
    assert (Hrest : e ∈ described (idx + 1) ds rest <->
              exists (k : nat) d' info',
                (d :: ds) !! S k = Some d' /\ ((info, ierr) :: rest) !! S k = Some (Some info', CE_Success)
                /\ e = make_entry (idx + Z.of_nat (S k)) (device_id d') info').
    { rewrite IH. split; intros (k & d' & info' & H1 & H2 & H3); exists k, d', info';
        (split; [exact H1 | split; [exact H2 | ]]); rewrite H3; f_equal; lia. }
    simpl described. destruct (failed ierr) eqn:Hf; [ | destruct info as [info | ]].
    + rewrite Hrest. split.
      * intros (k & H); exists (S k); exact H.
      * intros ([| k] & d' & info' & H1 & H2 & H3); [ | exists k, d', info'; auto].
        simpl in H2. injection H2 as _ ->. apply failed_true in Hf. contradiction.
    + rewrite elem_of_cons, Hrest. apply failed_false in Hf. subst ierr. split.
      * intros [-> | (k & H)]; [ | exists (S k); exact H].
        exists 0%nat, d, info. simpl. repeat split. f_equal. lia.
      * intros ([| k] & d' & info' & H1 & H2 & H3); [left | right; exists k, d', info'; auto].
        simpl in H1, H2. injection H1 as <-. injection H2 as <-. rewrite H3. f_equal. lia.
    + rewrite Hrest. split.
      * intros (k & H); exists (S k); exact H.
      * intros ([| k] & d' & info' & H1 & H2 & H3); [ | exists k, d', info'; auto].
        simpl in H2. discriminate.
Qed.

End Described.

Section Mappings.

Lemma record_device_result acc idx dev_id info :
  en_result (record_device acc idx dev_id info)
  = en_result acc ++ [make_entry idx dev_id info].
Proof. reflexivity. Qed.

Lemma record_device_index acc idx dev_id info :
  index_to_id (record_device acc idx dev_id info)
  = note_index (index_to_id acc) (make_entry idx dev_id info).
Proof. unfold note_index. simpl. destruct dev_id; reflexivity. Qed.

Lemma record_device_id acc idx dev_id info :
  id_to_index (record_device acc idx dev_id info)
  = note_id (id_to_index acc) (make_entry idx dev_id info).
Proof. unfold note_id. simpl. destruct dev_id; reflexivity. Qed.

Lemma index_map_lookup (l : list Entry) (i : Z) (s : string) :
  NoDup (map e_index l) ->
  index_map l !! i = Some s <->
  exists e, e ∈ l /\ e_index e = i /\ e_device_id e = PStr s.
Proof.
  unfold index_map. induction l as [| e l IH] using rev_ind; intros Hnd.
  - simpl. rewrite lookup_empty. split; [discriminate | ].
    intros (e & He & _). inversion He.
  - rewrite map_app in Hnd. apply NoDup_app in Hnd as (Hl & Hfresh & _).
    specialize (IH Hl). rewrite foldl_app. simpl. unfold note_index at 1.
    assert (Hnew : forall e', e' ∈ l -> e_index e' <> e_index e).
    { intros e' He' Heq. apply (Hfresh (e_index e')).
      - apply list_elem_of_In, in_map, list_elem_of_In. exact He'.
      - rewrite Heq. simpl. left. }
    destruct (e_device_id e) as [ | | | | s0 | | | ] eqn:Hid;
      try (rewrite IH; split; intros (e' & He' & Hi & Hs);
           [ exists e'; split; [apply elem_of_app; left; exact He' | auto]
           | apply elem_of_app in He' as [He' | He'];
             [exists e'; auto | apply list_elem_of_singleton in He'; subst e'; congruence] ]).
    destruct (decide (e_index e = i)) as [Hi | Hi].
    + rewrite Hi, lookup_insert_eq. split.
      * intros [= <-]. exists e. split; [apply elem_of_app; right; left | auto].
      * intros (e' & He' & Hi' & Hs). apply elem_of_app in He' as [He' | He'].
        -- exfalso. apply (Hnew e' He'). congruence.
        -- apply list_elem_of_singleton in He'. subst e'. congruence.
    + rewrite lookup_insert_ne by exact Hi. rewrite IH. split.
      * intros (e' & He' & H). exists e'. split; [apply elem_of_app; left; exact He' | exact H].
      * intros (e' & He' & Hi' & Hs). apply elem_of_app in He' as [He' | He'].
        -- exists e'. auto.
        -- apply list_elem_of_singleton in He'. subst e'. contradiction.
Qed.

Lemma id_map_elem (l : list Entry) (i : Z) (s : string) :
  id_map l !! s = Some i ->
  exists e, e ∈ l /\ e_index e = i /\ e_device_id e = PStr s.
Proof.
  unfold id_map. induction l as [| e l IH] using rev_ind.
  - simpl. rewrite lookup_empty. discriminate.
  - rewrite foldl_app. simpl. unfold note_id at 1.
    assert (Hold : foldl note_id ∅ l !! s = Some i ->
                   exists e', e' ∈ l ++ [e] /\ e_index e' = i /\ e_device_id e' = PStr s).
    { intros H. destruct (IH H) as (e' & He' & H').
      exists e'. split; [apply elem_of_app; left; exact He' | exact H']. }
    destruct (e_device_id e) as [ | | | | s0 | | | ] eqn:Hid; try exact Hold.
    destruct (decide (s0 = s)) as [-> | Hs].
    + rewrite lookup_insert_eq. intros [= <-].
      exists e. split; [apply elem_of_app; right; left | auto].
    + rewrite lookup_insert_ne by exact Hs. exact Hold.
Qed.

Lemma id_map_lookup (l : list Entry) (e : Entry) (s : string) :
  NoDup (string_ids l) -> e ∈ l -> e_device_id e = PStr s ->
  id_map l !! s = Some (e_index e).
Proof.
  unfold id_map, string_ids. induction l as [| e0 l IH] using rev_ind; intros Hnd He Hs.
  - inversion He.
  - rewrite omap_app in Hnd. apply NoDup_app in Hnd as (Hl & Hfresh & _).
    rewrite foldl_app. simpl. unfold note_id at 1.
    apply elem_of_app in He as [He | He].
    + assert (Hin : s ∈ omap string_id l).
      { apply list_elem_of_omap. exists e. split; [exact He | ]. unfold string_id. rewrite Hs. reflexivity. }
      destruct (e_device_id e0) as [ | | | | s0 | | | ] eqn:Hid; try (apply IH; auto).
      rewrite lookup_insert_ne; [apply IH; auto | ].
      intros ->. apply (Hfresh s Hin). simpl. unfold string_id. rewrite Hid. left.
    + apply list_elem_of_singleton in He. subst e0. rewrite Hs. apply lookup_insert_eq.
Qed.

(** Every string id among the descriptors is a key of [id_map]. *)
Lemma id_map_total (l : list Entry) (e : Entry) (s : string) :
  e ∈ l -> e_device_id e = PStr s -> is_Some (id_map l !! s).
Proof.
  unfold id_map. induction l as [| e0 l IH] using rev_ind; intros He Hs.
  - inversion He.
  - rewrite foldl_app. simpl. unfold note_id at 1.
    apply elem_of_app in He as [He | He].
    + destruct (e_device_id e0) as [ | | | | s0 | | | ]; try (apply IH; auto).
      destruct (decide (s0 = s)) as [-> | Hne].
      * rewrite lookup_insert_eq. eauto.
      * rewrite lookup_insert_ne by exact Hne. apply IH; auto.
    + apply list_elem_of_singleton in He. subst e0. rewrite Hs, lookup_insert_eq. eauto.
Qed.

End Mappings.

Section EnumerationLoop.

Context {W : Type}.
Variable sdk : CueSdk W.

Lemma enumerate_from_returns devices : forall idx acc st en st',
  enumerate_from sdk idx devices acc st = (Ret en, st') ->
  exists answers,
    length answers = length devices
    /\ calls st' = calls st ++ zip_with info_event devices answers
    /\ en_result en = en_result acc ++ described idx devices answers
    /\ index_to_id en = foldl note_index (index_to_id acc) (described idx devices answers)
    /\ id_to_index en = foldl note_id (id_to_index acc) (described idx devices answers).
Proof.
  induction devices as [| d ds IH]; intros idx acc st en st' Hrun.
  - simpl in Hrun. injection Hrun as <- <-. exists []. simpl.
    rewrite !app_nil_r. auto.
  - simpl in Hrun. unfold bind, call in Hrun.
    destruct (sdk_get_device_info sdk (device_id d) (world st)) as [[e | [info ierr]] w];
      simpl in Hrun; [discriminate | ].
    match type of Hrun with
    | context [mkProc w ?o ?i ?c] => set (st1 := mkProc w o i c) in *
    end.
    assert (Hskip : enumerate_from sdk (idx + 1) ds acc st1 = (Ret en, st') ->
              (failed ierr = true \/ info = None) ->
              exists answers,
                length answers = length (d :: ds)
                /\ calls st' = calls st ++ zip_with info_event (d :: ds) answers
                /\ en_result en = en_result acc ++ described idx (d :: ds) answers
                /\ index_to_id en
                   = foldl note_index (index_to_id acc) (described idx (d :: ds) answers)
                /\ id_to_index en
                   = foldl note_id (id_to_index acc) (described idx (d :: ds) answers)).
    { intros Hrest Hwhy. destruct (IH _ _ _ _ _ Hrest) as (answers & Hlen & Hcalls & Hres & Hi & Hd).
      exists ((info, ierr) :: answers). simpl.
      assert (Hsame : match failed ierr, info with
                      | false, Some info0 =>
                          make_entry idx (device_id d) info0 :: described (idx + 1) ds answers
                      | _, _ => described (idx + 1) ds answers
                      end = described (idx + 1) ds answers).
      { destruct Hwhy as [-> | ->]; [reflexivity | destruct (failed ierr); reflexivity]. }
      rewrite Hsame. split; [congruence | ]. split; [ | auto].
      rewrite Hcalls. subst st1. simpl. rewrite <- app_assoc. reflexivity. }
    destruct (failed ierr) eqn:Hf; [apply Hskip; auto | ].
    destruct info as [info | ]; [ | apply Hskip; auto].
    clear Hskip.
    destruct (IH _ _ _ _ _ Hrun) as (answers & Hlen & Hcalls & Hres & Hi & Hd).
    exists ((Some info, ierr) :: answers). simpl. rewrite Hf.
    split; [congruence | ]. split; [ | split; [ | split]].
    + rewrite Hcalls. subst st1. simpl. rewrite <- app_assoc. reflexivity.
    + rewrite Hres, record_device_result, <- app_assoc. reflexivity.
    + rewrite Hi, record_device_index. reflexivity.
    + rewrite Hd, record_device_id. reflexivity.
Qed.

(** An enumeration that returns: what the SDK answered, and the
    three values in terms of these answers. *)
Lemma get_devices_with_indexes_returns st en st' :
  get_devices_with_indexes sdk st = (Ret en, st') ->
  exists devices answers,
    length answers = length (default [] devices)
    /\ calls st' = calls st ++ CallGetDevices (inr (devices, CE_Success))
                              :: zip_with info_event (default [] devices) answers
    /\ en_result en = described 0 (default [] devices) answers
    /\ index_to_id en = index_map (en_result en)
    /\ id_to_index en = id_map (en_result en).
Proof.
  unfold get_devices_with_indexes, bind at 1, call. intros Hrun.
  destruct (sdk_get_devices sdk (world st)) as [[e | [devices err]] w]; simpl in Hrun;
    [discriminate | ].
  unfold bind at 1 in Hrun. destruct (failed err) eqn:Hf; simpl in Hrun; [discriminate | ].
  apply failed_false in Hf. subst err.
  destruct (enumerate_from_returns _ _ _ _ _ _ Hrun) as (answers & Hlen & Hcalls & Hres & Hi & Hd).
  exists devices, answers. simpl in *.
  split; [exact Hlen | ]. split; [rewrite Hcalls, <- app_assoc; reflexivity | ].
  split; [exact Hres | ]. rewrite Hres. split; assumption.
Qed.

End EnumerationLoop.

(** What is left of the process when [json_out] has printed [obj]. *)
Lemma json_out_prints {W A : Type} (obj : pyval) (code : Z) (st : Proc W) :
  json_serializable obj = true ->
  json_out (A:=A) obj code st
  = (Exit code, mkProc (world st) (stdout st ++ [obj]) (stdin st) (calls st)).
Proof. intros H. unfold json_out, bind, json_dumps. rewrite H. reflexivity. Qed.

Lemma sorted_indices_NoDup (l : list Z) : StronglySorted Z.lt l -> NoDup l.
Proof.
  induction 1 as [| x l Hs IH Hall]; constructor; [ | exact IH].
  intros Hin. rewrite Forall_forall in Hall. specialize (Hall x Hin). lia.
Qed.

Section EnumerationFacts.

Context {W : Type}.
Variable sdk : CueSdk W.

Lemma enumeration_sorted st en st' :
  get_devices_with_indexes sdk st = (Ret en, st') ->
  StronglySorted Z.lt (map e_index (en_result en)).
Proof.
  intros Hrun. destruct (get_devices_with_indexes_returns sdk st en st' Hrun)
    as (devices & answers & _ & _ & Hres & _).
  rewrite Hres. apply described_sorted.
Qed.

Lemma index_to_id_spec st en st' i s :
  get_devices_with_indexes sdk st = (Ret en, st') ->
  index_to_id en !! i = Some s <->
  exists e, e ∈ en_result en /\ e_index e = i /\ e_device_id e = PStr s.
Proof.
  intros Hrun. destruct (get_devices_with_indexes_returns sdk st en st' Hrun)
    as (devices & answers & _ & _ & _ & Hi & _).
  rewrite Hi. apply index_map_lookup, sorted_indices_NoDup.
  eapply enumeration_sorted. exact Hrun.
Qed.

Lemma id_to_index_back st en st' i s :
  get_devices_with_indexes sdk st = (Ret en, st') ->
  id_to_index en !! s = Some i -> index_to_id en !! i = Some s.
Proof.
  intros Hrun H. destruct (get_devices_with_indexes_returns sdk st en st' Hrun)
    as (devices & answers & _ & _ & _ & _ & Hd).
  rewrite Hd in H. apply (index_to_id_spec st en st' i s Hrun). apply id_map_elem. exact H.
Qed.

Lemma index_to_id_forth st en st' i s :
  get_devices_with_indexes sdk st = (Ret en, st') ->
  NoDup (string_ids (en_result en)) ->
  index_to_id en !! i = Some s -> id_to_index en !! s = Some i.
Proof.
  intros Hrun Hnd H. destruct (get_devices_with_indexes_returns sdk st en st' Hrun)
    as (devices & answers & _ & _ & _ & _ & Hd).
  apply (index_to_id_spec st en st' i s Hrun) in H as (e & He & <- & Hs).
  rewrite Hd. apply id_map_lookup; assumption.
Qed.

Lemma index_to_id_known st en st' i s :
  get_devices_with_indexes sdk st = (Ret en, st') ->
  index_to_id en !! i = Some s -> is_Some (id_to_index en !! s).
Proof.
  intros Hrun H. destruct (get_devices_with_indexes_returns sdk st en st' Hrun)
    as (devices & answers & _ & _ & _ & _ & Hd).
  apply (index_to_id_spec st en st' i s Hrun) in H as (e & He & _ & Hs).
  rewrite Hd. eapply id_map_total; eauto.
Qed.


(** An enumeration that returns has printed nothing. *)
Lemma enumeration_silent st en st' :
  get_devices_with_indexes sdk st = (Ret en, st') -> stdout st' = stdout st.
Proof.
  intros Hrun. pose proof (obeys_get_devices_with_indexes sdk "" st) as H.
  rewrite Hrun in H. simpl in H. apply H.
Qed.

Lemma connect_sdk_silent t st st' :
  connect_sdk sdk t st = (Ret tt, st') -> stdout st' = stdout st.
Proof.
  intros Hrun. pose proof (obeys_connect_sdk sdk "" t st) as H.
  rewrite Hrun in H. simpl in H. apply H.
Qed.

End EnumerationFacts.

(** C10, as it holds.  In an enumeration that returns, the descriptors
    are exactly the devices whose info query answered Success with an
    info object, each with the position it has in the list returned by
    the SDK as its index and with the id of that device; the indices are
    strictly increasing (and so need not be contiguous).  [index_to_id]
    holds exactly the descriptors whose id is a string; [id_to_index]
    has exactly their ids as keys and maps each id back to an index that
    holds it; and when these ids are pairwise distinct the two mappings
    are inverse of each other.  [list_devices] prints one object per
    descriptor, in their order, whose [index] and [device_id] fields are
    the index and the id of the descriptor. *)
Theorem enumeration_indices {W : Type} (sdk : CueSdk W) (st st' : Proc W) (en : Enumeration) :
  get_devices_with_indexes sdk st = (Ret en, st') ->
  exists devices answers,
    length answers = length (default [] devices)
    /\ calls st' = calls st ++ CallGetDevices (inr (devices, CE_Success))
                              :: zip_with info_event (default [] devices) answers
    /\ (forall e,
          e ∈ en_result en <->
          exists (k : nat) d info,
            default [] devices !! k = Some d
            /\ answers !! k = Some (Some info, CE_Success)
            /\ e_index e = Z.of_nat k
            /\ e_device_id e = device_id d
            /\ e = make_entry (Z.of_nat k) (device_id d) info)
    /\ StronglySorted Z.lt (map e_index (en_result en))
    /\ (forall i s,
          index_to_id en !! i = Some s <->
          exists e, e ∈ en_result en /\ e_index e = i /\ e_device_id e = PStr s)
    /\ (forall i s, id_to_index en !! s = Some i -> index_to_id en !! i = Some s)
    /\ (forall i s, index_to_id en !! i = Some s -> is_Some (id_to_index en !! s))
    /\ (NoDup (string_ids (en_result en)) ->
        forall i s, index_to_id en !! i = Some s <-> id_to_index en !! s = Some i)
    /\ (forall st0 obj,
          connect_sdk sdk default_timeout st0 = (Ret tt, st) ->
          obj = PDict [("ok", PBool true);
                       ("devices",
                        PList (map (fun e =>
                                      PDict [("index", PInt (e_index e));
                                             ("device_id", e_device_id e);
                                             ("type", e_type e);
                                             ("model", e_model e);
                                             ("serial", e_serial e);
                                             ("led_count", e_led_count e);
                                             ("channel_count", e_channel_count e)])
                                 (en_result en)))] ->
          json_serializable obj = true ->
          list_devices_cmd sdk st0
          = (Exit 0, mkProc (world st') (stdout st' ++ [obj]) (stdin st') (calls st'))).
Proof.
  intros Hrun.
  destruct (get_devices_with_indexes_returns sdk st en st' Hrun)
    as (devices & answers & Hlen & Hcalls & Hres & _ & _).
  exists devices, answers.
  split; [exact Hlen | ]. split; [exact Hcalls | ].
  split.
  { intros e. rewrite Hres, elem_of_described. split.
    - intros (k & d & info & Hd & Ha & ->). exists k, d, info. repeat split; assumption.
    - intros (k & d & info & Hd & Ha & _ & _ & ->). exists k, d, info. repeat split; assumption. }
  split; [eapply enumeration_sorted; exact Hrun | ].
  split; [intros i s; eapply index_to_id_spec; exact Hrun | ].
  split; [intros i s; eapply id_to_index_back; exact Hrun | ].
  split; [intros i s; eapply index_to_id_known; exact Hrun | ].
  split.
  - intros Hnd i s. split.
    + eapply index_to_id_forth; eauto.
    + eapply id_to_index_back; exact Hrun.
  - intros st0 obj Hconnect -> Hser. unfold list_devices_cmd, bind at 1. rewrite Hconnect.
    unfold bind at 1. rewrite Hrun. apply json_out_prints. exact Hser.
Qed.

Lemma enumeration_indices_witness :
  exists en st',
    get_devices_with_indexes (scripted desk) (fresh tt "") = (Ret en, st')
    /\ map e_index (en_result en) = [0; 2]
    /\ index_to_id en !! 2 = Some "{fan}"
    /\ id_to_index en !! "{fan}" = Some 2.
Proof.
  destruct (get_devices_with_indexes (scripted desk) (fresh tt "")) as [o st'] eqn:Hrun.
  assert (Ho : exists en, o = Ret en /\ map e_index (en_result en) = [0; 2]
                          /\ index_to_id en !! 2 = Some "{fan}"
                          /\ string_ids (en_result en) = ["{kbd}"; "{fan}"]).
  { vm_compute in Hrun. injection Hrun as <- _. eexists. split; [reflexivity | ].
    repeat split; vm_compute; reflexivity. }
  destruct Ho as (en & -> & Hidx & Hfan & Hids).
  exists en, st'. split; [reflexivity | ]. split; [exact Hidx | ]. split; [exact Hfan | ].
  destruct (enumeration_indices (scripted desk) (fresh tt "") st' en Hrun)
    as (devices & answers & _ & _ & _ & _ & _ & _ & _ & Hinv & _).
  apply Hinv; [ | exact Hfan].
  rewrite Hids.
  constructor; [intros H; apply list_elem_of_singleton in H; discriminate | ].
  constructor; [intros H; inversion H | constructor].
Defined.

(** C10 as stated fails: the SDK lists two devices under the same id;
    [index_to_id] holds that id at the indices 0 and 1, [id_to_index]
    maps it to 1 alone, so the two mappings are not inverse of each
    other over the devices whose id is a string. *)
Lemma enumeration_indices_counterexample :
  exists en st',
    get_devices_with_indexes (scripted twins) (connected twins) = (Ret en, st')
    /\ map e_device_id (en_result en) = [PStr "{twin}"; PStr "{twin}"]
    /\ map e_index (en_result en) = [0; 1]
    /\ index_to_id en !! 0 = Some "{twin}"
    /\ id_to_index en !! "{twin}" = Some 1.
Proof.
  exists (enumeration_at twins (connected twins)), (after_enumeration_at twins (connected twins)).
  repeat split; vm_compute; reflexivity.
Qed.

(** ** Identifier resolution *)

(** C9.  An identifier that [int] accepts is resolved through
    [index_to_id] alone: the call returns the id found at that index, or
    reports the index as out of range, and [id_to_index] is not
    consulted.  So when the string is also the id of a device that was
    enumerated at another index, that device is not the one returned. *)
Theorem numeric_identifier_is_an_index {W : Type} (int_str : string -> result Z)
    (sdk : CueSdk W) (s : string) (idx : Z) (st st' : Proc W) (en : Enumeration) :
  int_str s = inr idx ->
  get_devices_with_indexes sdk st = (Ret en, st') ->
  to_device_id int_str sdk (IStr s) st
  = match index_to_id en !! idx with
    | Some dev_id => (Ret dev_id, st')
    | None =>
        (Exit 1,
         mkProc (world st') (stdout st' ++ [err_obj ("Index out of range: " ++ s)])
           (stdin st') (calls st'))
    end
  /\ (forall j,
        id_to_index en !! s = Some j -> j <> idx ->
        NoDup (string_ids (en_result en)) ->
        to_device_id int_str sdk (IStr s) st <> (Ret s, st')).
Proof.
  intros Hint Hrun.
  assert (Heq : to_device_id int_str sdk (IStr s) st
                = match index_to_id en !! idx with
                  | Some dev_id => (Ret dev_id, st')
                  | None =>
                      (Exit 1,
                       mkProc (world st') (stdout st' ++ [err_obj ("Index out of range: " ++ s)])
                         (stdin st') (calls st'))
                  end).
  { unfold to_device_id, bind at 1. rewrite Hrun. unfold is_int_str. rewrite Hint.
    unfold bind, py_int. rewrite Hint. simpl.
    destruct (index_to_id en !! idx); [reflexivity | ].
    apply json_out_prints. reflexivity. }
  split; [exact Heq | ].
  intros j Hj Hne Hnd. rewrite Heq.
  destruct (index_to_id en !! idx) as [d | ] eqn:Hd; [ | discriminate].
  intros [= ->]. apply Hne.
  pose proof (index_to_id_forth sdk st en st' idx s Hrun Hnd Hd) as Hback. congruence.
Qed.

Lemma numeric_identifier_is_an_index_witness :
  to_device_id int_known (scripted numbered) (IStr "0") (fresh tt "")
  = (Ret "7", after_enumeration numbered)
  /\ to_device_id int_known (scripted numbered) (IStr "0") (fresh tt "")
     <> (Ret "0", after_enumeration numbered).
Proof.
  assert (Hrun : get_devices_with_indexes (scripted numbered) (fresh tt "")
                 = (Ret (first_enumeration numbered), after_enumeration numbered))
    by (vm_compute; reflexivity).
  destruct (numeric_identifier_is_an_index int_known (scripted numbered) "0" 0 (fresh tt "")
              (after_enumeration numbered) (first_enumeration numbered)
              eq_refl Hrun) as [Heq Hother].
  split.
  - rewrite Heq. vm_compute. reflexivity.
  - apply (Hother 1); [vm_compute; reflexivity | discriminate | ].
    vm_compute.
    constructor; [intros H; apply list_elem_of_singleton in H; discriminate | ].
    constructor; [intros H; inversion H | constructor].
Defined.

(** C5.  An identifier that [int] rejects (it raises) is looked up in
    [id_to_index]: when it is there it is returned as it is, and when it
    is not the call prints "Unknown device identifier" with the
    identifier and exits with 1. *)
Theorem opaque_identifier_resolution {W : Type} (int_str : string -> result Z)
    (sdk : CueSdk W) (s : string) (e : exn) (st st' : Proc W) (en : Enumeration) :
  int_str s = inl e ->
  get_devices_with_indexes sdk st = (Ret en, st') ->
  (is_Some (id_to_index en !! s) -> to_device_id int_str sdk (IStr s) st = (Ret s, st'))
  /\ (id_to_index en !! s = None ->
      to_device_id int_str sdk (IStr s) st
      = (Exit 1,
         mkProc (world st') (stdout st' ++ [err_obj ("Unknown device identifier: " ++ s)])
           (stdin st') (calls st'))).
Proof.
  intros Hint Hrun. split.
  - intros [i Hi]. unfold to_device_id, bind at 1. rewrite Hrun. unfold is_int_str.
    rewrite Hint, Hi. reflexivity.
  - intros Hi. unfold to_device_id, bind at 1. rewrite Hrun. unfold is_int_str.
    rewrite Hint, Hi. apply json_out_prints. reflexivity.
Qed.

Lemma opaque_identifier_resolution_witness :
  to_device_id int_known (scripted desk) (IStr "{fan}") (fresh tt "")
  = (Ret "{fan}", after_enumeration desk)
  /\ (to_device_id int_known (scripted desk) (IStr "{nope}") (fresh tt "")).1 = Exit 1.
Proof.
  assert (Hrun : get_devices_with_indexes (scripted desk) (fresh tt "")
                 = (Ret (first_enumeration desk), after_enumeration desk))
    by (vm_compute; reflexivity).
  split.
  - apply (opaque_identifier_resolution int_known (scripted desk) "{fan}"
             (mk_exn ValueError "invalid literal for int() with base 10: '{fan}'")
             (fresh tt "") (after_enumeration desk) (first_enumeration desk) eq_refl Hrun).
    vm_compute. eauto.
  - rewrite (proj2 (opaque_identifier_resolution int_known (scripted desk) "{nope}"
                      (mk_exn ValueError "invalid literal for int() with base 10: '{nope}'")
                      (fresh tt "") (after_enumeration desk) (first_enumeration desk)
                      eq_refl Hrun));
      [reflexivity | ].
    vm_compute. reflexivity.
Defined.

(** ** From the arguments to the commands *)

Section Dispatch.

Context {W : Type}.
Variable json_loads : string -> result pyval.
Variable int_str : string -> result Z.
Variable sdk : CueSdk W.


Lemma main_set_color_all a1 a2 a3 r g b :
  int_str a1 = inr r -> int_str a2 = inr g -> int_str a3 = inr b ->
  forall st,
    main json_loads int_str sdk ["set_color"; a1; a2; a3] st
    = try_except (set_color_cmd int_str sdk r g b None) (fun _ => true) top_handler st.
Proof.
  intros H1 H2 H3 st. unfold main, dispatch, try_except.
  cbn [String.eqb Ascii.eqb Bool.eqb andb orb length Nat.leb Nat.eqb argv_get nth_error].
  cbn [bind lift ret py_int]. rewrite H1. cbn [bind lift ret py_int]. rewrite H2.
  cbn [bind lift ret py_int]. rewrite H3. reflexivity.
Qed.

Lemma main_set_leds dev text rest payload :
  json_loads text = inr payload ->
  forall st,
    main json_loads int_str sdk ("set_leds" :: dev :: text :: rest) st
    = try_except (set_leds_cmd int_str sdk dev payload) (fun _ => true) top_handler st.
Proof.
  intros H st. unfold main, dispatch, try_except.
  cbn [String.eqb Ascii.eqb Bool.eqb andb orb length Nat.leb Nat.eqb argv_get nth_error].
  unfold bind. cbn [lift ret]. rewrite H. reflexivity.
Qed.

(** A command that exits decides the invocation. *)
Lemma try_except_exit {A} (m : M W A) catches h st code st' :
  m st = (Exit code, st') -> try_except m catches h st = (Exit code, st').
Proof. intros H. unfold try_except. rewrite H. reflexivity. Qed.

Lemma try_except_raise {A} (m : M W A) h st e st' :
  m st = (Raise e, st') -> try_except m (fun _ => true) h st = h e st'.
Proof. intros H. unfold try_except. rewrite H. reflexivity. Qed.

End Dispatch.




(** ** The calls made to the SDK *)

Section Emits.

Context {W : Type}.
Variable sdk : CueSdk W.
Variable P : SdkCall -> Prop.

Lemma emits_ret {A} (a : A) : emits (W:=W) P (ret a).
Proof. intros st. exists []. simpl. rewrite app_nil_r. auto. Qed.

Lemma emits_raise {A} (e : exn) : emits (W:=W) (A:=A) P (raise e).
Proof. intros st. exists []. simpl. rewrite app_nil_r. auto. Qed.

Lemma emits_lift {A} (r : result A) : emits (W:=W) P (lift r).
Proof. destruct r; [apply emits_raise | apply emits_ret]. Qed.

Lemma emits_bind {A B} (m : M W A) (f : A -> M W B) :
  emits P m -> (forall a, emits P (f a)) -> emits P (bind m f).
Proof.
  intros Hm Hf st. destruct (Hm st) as (new1 & Hc1 & Hp1). unfold bind.
  destruct (m st) as [[a | e | c] st1]; simpl in *; [ | exists new1; auto ..].
  destruct (Hf a st1) as (new2 & Hc2 & Hp2). exists (new1 ++ new2).
  rewrite Hc2, Hc1, app_assoc. split; [reflexivity | apply Forall_app; auto].
Qed.

Lemma emits_try {A} (m : M W A) catches h :
  emits P m -> (forall e, emits P (h e)) -> emits P (try_except m catches h).
Proof.
  intros Hm Hh st. destruct (Hm st) as (new1 & Hc1 & Hp1). unfold try_except.
  destruct (m st) as [[a | e | c] st1]; simpl in *; [exists new1; auto | | exists new1; auto].
  destruct (catches e); [ | exists new1; auto].
  destruct (Hh e st1) as (new2 & Hc2 & Hp2). exists (new1 ++ new2).
  rewrite Hc2, Hc1, app_assoc. split; [reflexivity | apply Forall_app; auto].
Qed.

Lemma emits_call {A} (f : W -> result A * W) ev :
  (forall r, P (ev r)) -> emits P (call f ev).
Proof.
  intros Hev st. unfold call. destruct (f (world st)) as [r w].
  exists [ev r]. split; [destruct r; reflexivity | constructor; auto].
Qed.

Lemma emits_wait t : (forall b, P (CallWait t b)) -> emits P (wait sdk t).
Proof.
  intros Hev st. unfold wait. destruct (ready_wait sdk t (world st)) as [b w].
  exists [CallWait t b]. split; [reflexivity | constructor; auto].
Qed.

Lemma emits_when b (body : M W unit) : emits P body -> emits P (when b body).
Proof. destruct b; simpl; auto using emits_ret. Qed.

Lemma emits_json_out {A} obj code : emits (W:=W) P (json_out (A:=A) obj code).
Proof.
  intros st. exists []. unfold json_out, bind, json_dumps.
  destruct (json_serializable obj); simpl; rewrite app_nil_r; auto.
Qed.

Lemma emits_stdin_read : emits (W:=W) P stdin_read.
Proof. intros st. exists []. simpl. rewrite app_nil_r. auto. Qed.

End Emits.

Lemma emits_weaken {W A} (P Q : SdkCall -> Prop) (m : M W A) :
  (forall c, P c -> Q c) -> emits P m -> emits Q m.
Proof.
  intros Himp Hm st. destruct (Hm st) as (new & Hc & Hp). exists new.
  split; [exact Hc | eapply Forall_impl; eauto].
Qed.

Lemma emits_bind_lift {W A B} P (r : result A) (f : A -> M W B) :
  (forall a, r = inr a -> emits P (f a)) -> emits P (bind (lift r) f).
Proof.
  intros Hf. destruct r as [e | a].
  - intros st. exists []. simpl. rewrite app_nil_r. auto.
  - intros st. destruct (Hf a eq_refl st) as (new & Hc & Hp). exists new. auto.
Qed.

Create HintDb calls.

#[export] Hint Resolve emits_ret emits_raise emits_lift emits_json_out emits_stdin_read : calls.

Ltac emit_step :=
  lazymatch goal with
  | |- emits _ (bind (lift _) _) => apply emits_bind_lift; intros ? ?
  | |- emits _ (bind _ _) => apply emits_bind; [ | intros ? ]
  | |- emits _ (try_except _ _ _) => apply emits_try; [ | intros ? ]
  | |- emits _ (when _ _) => apply emits_when
  | |- emits _ (call _ _) => apply emits_call; intros ?; simpl; auto
  | |- emits _ (wait _ _) => apply emits_wait; intros ?; simpl; auto
  | |- emits _ _ => solve [auto with calls]
  end.

Ltac emit := repeat emit_step.

Section CallsOfTheAdapter.

Context {W : Type}.
Variable int_str : string -> result Z.
Variable sdk : CueSdk W.

Lemma emits_connect_sdk t : emits (fun c => kind_of c = KSession) (connect_sdk sdk t).
Proof. unfold connect_sdk. emit. Qed.

Lemma emits_enumerate_from devices : forall idx acc,
  emits (fun c => kind_of c = KEnumeration) (enumerate_from sdk idx devices acc).
Proof.
  induction devices as [| d rest IH]; intros idx acc; simpl; emit.
  destruct a as [info ierr]. destruct (failed ierr), info; apply IH.
Qed.

Lemma emits_get_devices_with_indexes :
  emits (fun c => kind_of c = KEnumeration) (get_devices_with_indexes sdk).
Proof.
  unfold get_devices_with_indexes. emit. destruct a as [devices err]. emit.
  apply emits_enumerate_from.
Qed.

Local Hint Resolve emits_get_devices_with_indexes : calls.

Lemma emits_to_device_id ident :
  emits (fun c => kind_of c = KEnumeration) (to_device_id int_str sdk ident).
Proof.
  unfold to_device_id. emit. destruct ident as [i | s].
  - destruct (index_to_id a !! i); emit.
  - destruct (is_int_str int_str s).
    + emit. destruct (index_to_id a !! a0); emit.
    + destruct (id_to_index a !! s); emit.
Qed.

Lemma emits_first_position_api dev_id names :
  emits (W:=W) (fun c => kind_of c = KPosition) (first_position_api dev_id names).
Proof. induction names as [| [api [fn |]] rest IH]; simpl; emit. Qed.

Lemma emits_get_led_positions ident :
  emits (fun c => kind_of c = KEnumeration \/ kind_of c = KPosition)
    (get_led_positions int_str sdk ident).
Proof.
  unfold get_led_positions.
  assert (Hid : emits (fun c => kind_of c = KEnumeration \/ kind_of c = KPosition)
    (bind (to_device_id int_str sdk ident) (fun dev_id =>
       first_position_api dev_id
         [(ByDeviceId, sdk_get_led_positions_by_device_id sdk);
          (Generic, sdk_get_led_positions sdk)]))).
  { apply emits_bind; [ | intros dev_id].
    - eapply emits_weaken; [ | apply emits_to_device_id]. auto.
    - eapply emits_weaken; [ | apply emits_first_position_api]. auto. }
  destruct ident as [i | s]; [ | exact Hid].
  destruct (sdk_get_led_positions_by_device_index sdk); [emit | exact Hid].
Qed.

Lemma emits_first_buffer_api dev_id colors names :
  emits (W:=W) (fun c => written_colors c = Some colors)
    (first_buffer_api dev_id colors names).
Proof. induction names as [| [api [fn |]] rest IH]; simpl; emit. Qed.

Lemma emits_set_colors_buffer ident colors :
  emits (fun c => kind_of c = KEnumeration \/ written_colors c = Some colors)
    (set_colors_buffer int_str sdk ident colors).
Proof.
  unfold set_colors_buffer.
  assert (Hid : emits (fun c => kind_of c = KEnumeration \/ written_colors c = Some colors)
    (bind (to_device_id int_str sdk ident) (fun dev_id =>
       first_buffer_api dev_id colors
         [(ByDeviceId, sdk_set_led_colors_buffer_by_device_id sdk);
          (Generic, sdk_set_led_colors_buffer sdk)]))).
  { apply emits_bind; [ | intros dev_id].
    - eapply emits_weaken; [ | apply emits_to_device_id]. auto.
    - eapply emits_weaken; [ | apply emits_first_buffer_api]. auto. }
  destruct ident as [i | s]; [ | exact Hid].
  destruct (sdk_set_led_colors_buffer_by_device_index sdk); [ | exact Hid].
  apply emits_try; [emit | intros; exact Hid].
Qed.

Lemma emits_flush_colors : emits (fun c => kind_of c = KFlush) (flush_colors sdk).
Proof. unfold flush_colors. destruct (sdk_set_led_colors_flush_buffer sdk); emit. Qed.

End CallsOfTheAdapter.

Lemma emits_from_fresh {W A : Type} (P : SdkCall -> Prop) (m : M W A) (w : W) (input : string) :
  emits P m -> Forall P (calls (m (fresh w input)).2).
Proof.
  intros Hm. destruct (Hm (fresh w input)) as (new & Hc & Hp). rewrite Hc. exact Hp.
Qed.

Lemma calls_of_invoke {W : Type} json_loads int_str (sdk : CueSdk W) argv w input :
  calls (invoke json_loads int_str sdk argv w input).2
  = calls (main json_loads int_str sdk argv (fresh w input)).2.
Proof.
  unfold invoke. destruct (main json_loads int_str sdk argv (fresh w input)); reflexivity.
Qed.

(** ** The colours submitted *)

Lemma carrying_other Q c : kind_of c <> KWrite -> carrying Q c.
Proof. intros Hk colors Hw. destruct c; simpl in *; congruence. Qed.

Lemma carrying_these (Q : list CorsairLedColor -> Prop) colors c :
  Q colors -> kind_of c = KEnumeration \/ written_colors c = Some colors -> carrying Q c.
Proof.
  intros HQ [Hk | Hw].
  - apply carrying_other. congruence.
  - intros cs Hcs. congruence.
Qed.

Lemma carrying_write_attempts Q (log : list SdkCall) :
  Forall (carrying Q) log -> Forall Q (write_attempts log).
Proof.
  unfold write_attempts. induction 1 as [| c log Hc _ IH]; simpl; [constructor | ].
  destruct (written_colors c) as [colors | ] eqn:Hw; [constructor; auto | exact IH].
Qed.

Section NoAssignment.

Variable int_str : string -> result Z.

Lemma uniform_colors_cons r g b lp rest :
  uniform_colors int_str r g b (lp :: rest)
  = match lp_led_id lp with
    | PNone => uniform_colors int_str r g b rest
    | _ =>
        match py_int int_str (lp_led_id lp) with
        | inl e => inl e
        | inr n => inl missing_alpha
        end
    end.
Proof. simpl. destruct (lp_led_id lp); try reflexivity; destruct (int_str _); reflexivity. Qed.

(** The loop of lines 181-185 ends without an exception only when no
    position has an id, and then it has made no assignment. *)
Lemma uniform_colors_returns r g b lps colors :
  uniform_colors int_str r g b lps = inr colors <->
  colors = [] /\ Forall (fun lp => lp_led_id lp = PNone) lps.
Proof.
  induction lps as [| lp rest IH].
  - simpl. split; [intros [= <-]; auto | intros [-> _]; reflexivity].
  - rewrite uniform_colors_cons.
    assert (Hraises : forall X : Type, forall x : X,
              match py_int int_str (lp_led_id lp) with
              | inl e => inl e
              | inr n => inl missing_alpha
              end <> @inr exn X x).
    { intros X x. destruct (py_int int_str (lp_led_id lp)); discriminate. }
    destruct (lp_led_id lp) eqn:Hid;
      try (split; [intros H; exfalso; exact (Hraises _ _ H)
                  | intros [_ H]; apply Forall_cons in H as [H _]; congruence]).
    rewrite IH. split; intros [-> H]; (split; [reflexivity | ]).
    + constructor; [exact Hid | exact H].
    + apply Forall_cons in H as [_ H]. exact H.
Qed.

(** An entry of the payload never becomes an assignment. *)
Lemma item_color_raises item : exists e, item_color int_str item = inl e.
Proof.
  unfold item_color, rbind.
  destruct (int_field int_str item "led_id") as [e | lid]; [eauto | ].
  destruct (int_field int_str item "r") as [e | r]; [eauto | ].
  destruct (int_field int_str item "g") as [e | g]; [eauto | ].
  destruct (int_field int_str item "b") as [e | b]; [eauto | ].
  unfold new_color. eauto.
Qed.

Lemma items_colors_returns items colors :
  items_colors int_str items = inr colors <-> items = [] /\ colors = [].
Proof.
  destruct items as [| item rest]; simpl.
  - split; [intros [= <-]; auto | intros [_ ->]; reflexivity].
  - destruct (item_color_raises item) as [e ->]. simpl.
    split; [discriminate | intros [H _]; discriminate].
Qed.

Lemma payload_colors_returns payload colors :
  payload_colors int_str payload = inr colors <-> py_iter payload = inr [] /\ colors = [].
Proof.
  unfold payload_colors, rbind. destruct (py_iter payload) as [e | items].
  - split; [discriminate | intros [H _]; discriminate].
  - rewrite items_colors_returns. split; intros [H ->]; (split; [congruence | reflexivity]).
Qed.

End NoAssignment.

Section ColoursOfTheCommands.

Context {W : Type}.
Variable json_loads : string -> result pyval.
Variable int_str : string -> result Z.
Variable sdk : CueSdk W.
Variable Q : list CorsairLedColor -> Prop.

Lemma carrying_connect_sdk t : emits (carrying Q) (connect_sdk sdk t).
Proof.
  eapply emits_weaken; [ | apply emits_connect_sdk].
  intros c Hc. apply carrying_other. congruence.
Qed.

Lemma carrying_get_devices_with_indexes : emits (carrying Q) (get_devices_with_indexes sdk).
Proof.
  eapply emits_weaken; [ | apply emits_get_devices_with_indexes].
  intros c Hc. apply carrying_other. congruence.
Qed.

Lemma carrying_get_led_positions ident :
  emits (carrying Q) (get_led_positions int_str sdk ident).
Proof.
  eapply emits_weaken; [ | apply emits_get_led_positions].
  intros c [Hc | Hc]; apply carrying_other; congruence.
Qed.

Lemma carrying_flush_colors : emits (carrying Q) (flush_colors sdk).
Proof.
  eapply emits_weaken; [ | apply emits_flush_colors].
  intros c Hc. apply carrying_other. congruence.
Qed.

Lemma carrying_set_colors_buffer ident colors :
  Q colors -> emits (carrying Q) (set_colors_buffer int_str sdk ident colors).
Proof.
  intros HQ. eapply emits_weaken; [ | apply emits_set_colors_buffer].
  intros c Hc. eapply carrying_these; eauto.
Qed.

Local Hint Resolve carrying_connect_sdk carrying_get_devices_with_indexes
  carrying_get_led_positions carrying_flush_colors : calls.

(** The loop body never reaches the write: the colours are built only
    when there is none to build. *)
Lemma carrying_color_target r g b ident :
  emits (carrying Q) (color_target int_str sdk r g b ident).
Proof.
  unfold color_target. apply emits_bind; [apply carrying_get_led_positions | ].
  intros [positions perr]. destruct (failed_status perr), positions; emit.
  match goal with
  | Hu : uniform_colors _ _ _ _ _ = inr ?cs |- _ =>
      apply uniform_colors_returns in Hu as [-> _]
  end.
  emit.
Qed.

Lemma carrying_color_targets r g b targets :
  emits (carrying Q) (color_targets int_str sdk r g b targets).
Proof.
  induction targets as [| ident rest IH]; simpl; emit. apply carrying_color_target.
Qed.

Lemma carrying_set_color_cmd r g b dev :
  emits (carrying Q) (set_color_cmd int_str sdk r g b dev).
Proof.
  unfold set_color_cmd. emit.
  - destruct dev as [[| c s] | ]; emit.
  - apply carrying_color_targets.
Qed.

Lemma carrying_set_leds_cmd dev payload :
  Q [] -> emits (carrying Q) (set_leds_cmd int_str sdk dev payload).
Proof.
  intros Hnil. unfold set_leds_cmd. apply emits_bind; [apply carrying_connect_sdk | intros _].
  apply emits_bind_lift. intros colors Hcolors.
  apply payload_colors_returns in Hcolors as [_ ->].
  apply emits_bind; [apply carrying_set_colors_buffer; exact Hnil | intros err].
  emit.
Qed.

Lemma carrying_list_devices_cmd : emits (carrying Q) (list_devices_cmd sdk).
Proof. unfold list_devices_cmd. emit. Qed.

Lemma carrying_list_leds_cmd dev : emits (carrying Q) (list_leds_cmd int_str sdk dev).
Proof.
  unfold list_leds_cmd. emit. destruct a0 as [positions err].
  destruct (failed_status err), positions; emit.
Qed.

Lemma carrying_dispatch argv cmd :
  Q [] -> emits (carrying Q) (dispatch json_loads int_str sdk argv cmd).
Proof.
  intros Hnil. unfold dispatch.
  destruct (String.eqb cmd "list_devices"); [apply carrying_list_devices_cmd | ].
  destruct (String.eqb cmd "list_leds" && (2 <=? length argv)%nat)%bool.
  { emit. apply carrying_list_leds_cmd. }
  destruct (String.eqb cmd "set_color"
            && ((length argv =? 4)%nat || (length argv =? 5)%nat))%bool.
  { emit.
    - destruct (length argv =? 5)%nat; emit.
    - apply carrying_set_color_cmd. }
  destruct (String.eqb cmd "set_leds" && (3 <=? length argv)%nat)%bool; [ | emit].
  emit.
  - destruct (3 <=? length argv)%nat; emit.
  - apply carrying_set_leds_cmd. exact Hnil.
Qed.

Lemma carrying_main argv :
  Q [] -> emits (carrying Q) (main json_loads int_str sdk argv).
Proof.
  intros Hnil. destruct argv as [| cmd rest]; simpl; [emit | ].
  apply emits_try; [apply carrying_dispatch; exact Hnil | intros e; emit].
Qed.

End ColoursOfTheCommands.


(** ** [set_leds] *)

Lemma returns_silently {W A : Type} (m : M W A) (st : Proc W) (a : A) (st' : Proc W) :
  obeys "" Goes m -> m st = (Ret a, st') -> stdout st' = stdout st.
Proof. intros Hm Hrun. specialize (Hm st). rewrite Hrun in Hm. apply Hm. Qed.

Lemma invoke_exit {W : Type} json_loads int_str (sdk : CueSdk W) argv w input code st :
  main json_loads int_str sdk argv (fresh w input) = (Exit code, st) ->
  invoke json_loads int_str sdk argv w input = (stdout st, code, st).
Proof. intros H. unfold invoke. rewrite H. reflexivity. Qed.

(** C6, where the code leaves it.  Once the session is established,
    [set_leds] with a payload whose first entry holds [led_id], [r], [g]
    and [b] that [int] accepts does not build the assignment of that
    entry: the call of [CorsairLedColor] at line 200 raises, the handler
    of line 229 prints the message of that [TypeError], the exit status
    is 1, and nothing was submitted to the SDK nor flushed. *)
Theorem set_leds_builds_no_assignment {W : Type} (json_loads : string -> result pyval)
    (int_str : string -> result Z) (sdk : CueSdk W) (dev text : string)
    (rest : list string) (payload item : pyval) (items : list pyval) (lid r g b : Z)
    (w : W) (input : string) (st1 : Proc W) :
  json_loads text = inr payload ->
  py_iter payload = inr (item :: items) ->
  int_field int_str item "led_id" = inr lid ->
  int_field int_str item "r" = inr r ->
  int_field int_str item "g" = inr g ->
  int_field int_str item "b" = inr b ->
  connect_sdk sdk default_timeout (fresh w input) = (Ret tt, st1) ->
  invoke json_loads int_str sdk ("set_leds" :: dev :: text :: rest) w input
  = ([err_obj (exn_str missing_alpha)], 1,
     mkProc (world st1) [err_obj (exn_str missing_alpha)] (stdin st1) (calls st1)).
Proof.
  intros Hloads Hiter Hl Hr Hg Hb Hconnect.
  assert (Hout1 : stdout st1 = []).
  { apply (returns_silently _ _ _ _ (obeys_connect_sdk sdk "" default_timeout) Hconnect). }
  assert (Hcolors : payload_colors int_str payload = inl missing_alpha).
  { unfold payload_colors, rbind. rewrite Hiter. cbn [items_colors].
    unfold item_color, rbind. rewrite Hl, Hr, Hg, Hb. reflexivity. }
  assert (Hmain : main json_loads int_str sdk ("set_leds" :: dev :: text :: rest)
                    (fresh w input)
                  = (Exit 1, mkProc (world st1) [err_obj (exn_str missing_alpha)]
                               (stdin st1) (calls st1))).
  { rewrite (main_set_leds _ _ _ _ _ _ _ Hloads).
    rewrite (try_except_raise _ _ _ missing_alpha st1).
    - unfold top_handler. rewrite json_out_prints by reflexivity. rewrite Hout1. reflexivity.
    - unfold set_leds_cmd, bind at 1. rewrite Hconnect. unfold bind. rewrite Hcolors.
      reflexivity. }
  rewrite (invoke_exit _ _ _ _ _ _ _ _ Hmain). reflexivity.
Qed.

Lemma set_leds_builds_no_assignment_witness :
  invoke loads_known int_known (scripted desk) ["set_leds"; "2"; one_red_led] tt ""
  = ([err_obj "CorsairLedColor.__init__() missing 1 required positional argument: 'a'"], 1,
     mkProc tt
       [err_obj "CorsairLedColor.__init__() missing 1 required positional argument: 'a'"]
       ""
       [CallNew (inr tt); CallConnect (inr CE_Success); CallWait default_timeout false]).
Proof.
  rewrite (set_leds_builds_no_assignment loads_known int_known (scripted desk) "2" one_red_led
             [] (PList [PDict [("led_id", PInt 3); ("r", PInt 255); ("g", PInt 0);
                               ("b", PInt 0)]])
             (PDict [("led_id", PInt 3); ("r", PInt 255); ("g", PInt 0); ("b", PInt 0)])
             [] 3 255 0 0 tt "" (connected desk));
    reflexivity.
Defined.

(** ** The fan-out of [set_color] *)

Lemma position_queries_app l k :
  position_queries (l ++ k) = position_queries l ++ position_queries k.
Proof. apply omap_app. Qed.

Lemma no_position_queries log :
  Forall (fun c => kind_of c <> KPosition) log -> position_queries log = [].
Proof.
  induction 1 as [| c log Hc _ IH]; [reflexivity | ].
  unfold position_queries in *. destruct c; simpl in *; try exact IH; congruence.
Qed.

Lemma uniform_colors_blind int_str r g b lps :
  Forall (fun lp => lp_led_id lp = PNone) lps -> uniform_colors int_str r g b lps = inr [].
Proof. intros H. apply uniform_colors_returns. auto. Qed.

Section FanOut.

Context {W : Type}.
Variable int_str : string -> result Z.
Variable sdk : CueSdk W.
Hypothesis Hunlit : unlit sdk.
Hypothesis Hapi : has_position_api sdk.
Variables r g b : Z.

Lemma to_device_id_adds ident st dev_id st' :
  to_device_id int_str sdk ident st = (Ret dev_id, st') ->
  exists new, adds st st' new /\ position_queries new = [] /\ reads_only new.
Proof.
  intros Hrun. destruct (emits_to_device_id int_str sdk ident st) as (new & Hc & Hp).
  rewrite Hrun in Hc. simpl in Hc. exists new.
  split; [split; [exact Hc | ] | split].
  - apply (returns_silently _ _ _ _ (obeys_to_device_id int_str sdk "" ident) Hrun).
  - apply no_position_queries. eapply Forall_impl; [exact Hp | ].
    simpl. intros c ->. discriminate.
  - eapply Forall_impl; [exact Hp | ]. simpl. intros c ->. split; discriminate.
Qed.

Lemma call_answers {A} (Q : A -> Prop) (f : W -> result A * W) ev st :
  answers Q f ->
  exists a st', call f ev st = (Ret a, st') /\ Q a /\ adds st st' [ev (inr a)].
Proof.
  intros Hf. destruct (Hf (world st)) as (a & w' & Hrun & Ha).
  unfold call. rewrite Hrun. simpl. eexists a, _. split; [reflexivity | ].
  split; [exact Ha | split; reflexivity].
Qed.

Lemma get_led_positions_step e st :
  is_Some (sdk_get_led_positions_by_device_index sdk) \/ resolves int_str sdk e ->
  exists res st' new q,
    get_led_positions int_str sdk (IInt (e_index e)) st = (Ret (unpack_positions res), st')
    /\ passed_over res
    /\ adds st st' new
    /\ position_queries new = [q]
    /\ queried e q
    /\ reads_only new.
Proof.
  intros Hres. unfold get_led_positions.
  destruct (sdk_get_led_positions_by_device_index sdk) as [fn | ] eqn:Hfn.
  - destruct (call_answers passed_over (fn (e_index e)) (CallPositionsByIndex (e_index e)) st)
      as (res & st' & Hrun & Hover & Hadds).
    { eapply positions_by_index_answers; eauto. }
    exists res, st', [CallPositionsByIndex (e_index e) (inr res)], (inl (e_index e), inr res).
    unfold bind. rewrite Hrun. simpl.
    split; [reflexivity | ]. split; [exact Hover | ]. split; [exact Hadds | ].
    split; [reflexivity | ]. split; [split; [left; reflexivity | eauto] | ].
    constructor; [split; discriminate | constructor].
  - destruct Hres as [[? Hsome] | (dev_id & Hdev & Hres)]; [discriminate | ].
    destruct (Hres st) as (st0 & Hid).
    destruct (to_device_id_adds _ _ _ _ Hid) as (new0 & [Hc0 Ho0] & Hp0 & Hw0).
    unfold bind at 1. rewrite Hid. simpl first_position_api.
    assert (Hstep : forall api fn,
              answers passed_over (fn dev_id) ->
              exists res st' new q,
                bind (call (fn dev_id) (CallPositions api dev_id))
                  (fun res => ret (unpack_positions res)) st0
                = (Ret (unpack_positions res), st')
                /\ passed_over res
                /\ adds st st' new
                /\ position_queries new = [q]
                /\ queried e q
                /\ reads_only new).
    { intros api fn Hfn'.
      destruct (call_answers passed_over (fn dev_id) (CallPositions api dev_id) st0 Hfn')
        as (res & st' & Hrun & Hover & [Hc Ho]).
      exists res, st', (new0 ++ [CallPositions api dev_id (inr res)]), (inr dev_id, inr res).
      unfold bind. rewrite Hrun. simpl.
      split; [reflexivity | ]. split; [exact Hover | ].
      split; [split; [rewrite Hc, Hc0, app_assoc; reflexivity | congruence] | ].
      split; [rewrite position_queries_app, Hp0; reflexivity | ].
      split; [split; [right; eauto | eauto] | ].
      apply Forall_app. split; [exact Hw0 | ].
      constructor; [split; discriminate | constructor]. }
    destruct (sdk_get_led_positions_by_device_id sdk) as [fn | ] eqn:Hbyid.
    + apply Hstep. eapply positions_by_id_answers; eauto.
    + destruct (sdk_get_led_positions sdk) as [fn | ] eqn:Hgen.
      * apply Hstep. eapply positions_answers; eauto.
      * exfalso. destruct Hapi as [[? H] | [[? H] | [? H]]]; congruence.
Qed.

Lemma color_target_step e st :
  is_Some (sdk_get_led_positions_by_device_index sdk) \/ resolves int_str sdk e ->
  exists st' new q,
    color_target int_str sdk r g b (IInt (e_index e)) st = (Ret tt, st')
    /\ adds st st' new
    /\ position_queries new = [q]
    /\ queried e q
    /\ reads_only new.
Proof.
  intros Hres.
  destruct (get_led_positions_step e st Hres)
    as (res & st1 & new & q & Hpos & Hover & Hadds & Hq & He & Hquiet).
  exists st1, new, q. split; [ | auto].
  unfold color_target, bind at 1. rewrite Hpos. unfold passed_over in Hover.
  destruct (unpack_positions res) as [[positions | ] perr];
    [ | destruct (failed_status perr); reflexivity].
  destruct (failed_status perr); [reflexivity | ].
  destruct Hover as [Hf | Hblind]; [discriminate | ].
  unfold bind. rewrite (uniform_colors_blind _ _ _ _ _ Hblind). reflexivity.
Qed.

Lemma color_targets_steps (entries : list Entry) : forall st,
  (is_Some (sdk_get_led_positions_by_device_index sdk)
   \/ forall e, e ∈ entries -> resolves int_str sdk e) ->
  exists st' new,
    color_targets int_str sdk r g b (map (fun e => IInt (e_index e)) entries) st
    = (Ret tt, st')
    /\ adds st st' new
    /\ Forall2 queried entries (position_queries new)
    /\ reads_only new.
Proof.
  induction entries as [| e rest IH]; intros st Hres.
  - exists st, []. simpl. unfold adds. rewrite app_nil_r.
    repeat split; constructor.
  - destruct (color_target_step e st) as (st1 & new1 & q & Hrun & [Hc1 Ho1] & Hq1 & He & Hw1).
    { destruct Hres as [H | H]; [left; exact H | right; apply H; left]. }
    destruct (IH st1) as (st2 & new2 & Hrest & [Hc2 Ho2] & Hq2 & Hw2).
    { destruct Hres as [H | H]; [left; exact H | right; intros j Hj; apply H; right; exact Hj]. }
    exists st2, (new1 ++ new2). simpl. unfold bind. rewrite Hrun, Hrest.
    split; [reflexivity | ].
    split; [split; [rewrite Hc2, Hc1, app_assoc; reflexivity | congruence] | ].
    rewrite position_queries_app, Hq1.
    split; [constructor; assumption | apply Forall_app; auto].
Qed.

End FanOut.

(** C2, as it holds.  [set_color] without an identifier, once the
    session is established and the devices are enumerated, behind an SDK
    that has a position entry point, whose position entry points return
    answers that pass the device over (a status other than Success, no
    positions, or positions without any LED id), and whose descriptors
    can be addressed (by index, or each index resolves to the id of its
    descriptor): the adapter queries the positions of the enumerated
    descriptors, one query each, in the order of the enumeration, each
    addressed to the index or to the id of its descriptor; it attempts
    no buffered write and no flush; and it prints the success object
    with status 0, whatever the statuses of the queries were. *)
Theorem set_color_fan_out {W : Type} (json_loads : string -> result pyval)
    (int_str : string -> result Z) (sdk : CueSdk W) (a1 a2 a3 : string) (r g b : Z)
    (w : W) (input : string) (st1 st2 : Proc W) (en : Enumeration) :
  int_str a1 = inr r -> int_str a2 = inr g -> int_str a3 = inr b ->
  connect_sdk sdk default_timeout (fresh w input) = (Ret tt, st1) ->
  get_devices_with_indexes sdk st1 = (Ret en, st2) ->
  unlit sdk -> has_position_api sdk -> addressable int_str sdk en ->
  let '(out, code, st) :=
    invoke json_loads int_str sdk ["set_color"; a1; a2; a3] w input in
  out = [ok_obj] /\ code = 0
  /\ Forall2 queried (en_result en) (position_queries (calls st))
  /\ Forall (fun c => kind_of c <> KWrite /\ kind_of c <> KFlush) (calls st).
Proof.
  intros H1 H2 H3 Hconnect Henum Hunlit Hapi Haddr.
  assert (Hout2 : stdout st2 = []).
  { rewrite (enumeration_silent sdk _ _ _ Henum), (connect_sdk_silent sdk _ _ _ Hconnect).
    reflexivity. }
  assert (Hk : Forall (fun c => kind_of c = KSession \/ kind_of c = KEnumeration) (calls st2)).
  { destruct (emits_connect_sdk sdk default_timeout (fresh w input)) as (new1 & Hc1 & Hp1).
    rewrite Hconnect in Hc1. simpl in Hc1.
    destruct (emits_get_devices_with_indexes sdk st1) as (new2 & Hc2 & Hp2).
    rewrite Henum in Hc2. simpl in Hc2.
    rewrite Hc2, Hc1. apply Forall_app. split; (eapply Forall_impl; [eassumption | ]);
      simpl; auto. }
  assert (Hq2 : position_queries (calls st2) = []).
  { apply no_position_queries. eapply Forall_impl; [exact Hk | ].
    simpl. intros c [-> | ->]; discriminate. }
  destruct (color_targets_steps int_str sdk Hunlit Hapi r g b (en_result en) st2)
    as (st3 & new & Hloop & [Hc3 Ho3] & Hqueries & Hquiet).
  { exact Haddr. }
  assert (Hmain : main json_loads int_str sdk ["set_color"; a1; a2; a3] (fresh w input)
                  = (Exit 0, mkProc (world st3) [ok_obj] (stdin st3) (calls st3))).
  { rewrite (main_set_color_all json_loads int_str sdk _ _ _ _ _ _ H1 H2 H3).
    apply try_except_exit. unfold set_color_cmd, bind at 1. rewrite Hconnect.
    unfold bind at 1. unfold bind at 1. rewrite Henum. cbn [ret].
    unfold bind at 1. rewrite Hloop.
    rewrite json_out_prints by reflexivity. rewrite Ho3, Hout2. reflexivity. }
  rewrite (invoke_exit _ _ _ _ _ _ _ _ Hmain). cbn [stdout calls].
  split; [reflexivity | ]. split; [reflexivity | ].
  rewrite Hc3, position_queries_app, Hq2. split; [exact Hqueries | ].
  apply Forall_app. split; [ | exact Hquiet].
  eapply Forall_impl; [exact Hk | ]. simpl. intros c [-> | ->]; split; discriminate.
Qed.

Lemma scripted_unlit (s : Script) :
  (forall i, passed_over (s_positions_at s i)) ->
  (forall dev_id, passed_over (s_positions_of s dev_id)) ->
  unlit (scripted s).
Proof.
  intros Hat Hof. split; simpl.
  - intros fn i H w. destruct (s_by_index s); [ | discriminate].
    injection H as <-. eauto.
  - discriminate.
  - intros fn dev_id [= <-] w. eauto.
Qed.

Lemma dark_unlit : unlit (scripted dark).
Proof.
  apply scripted_unlit.
  - intros i. exact I.
  - intros dev_id. unfold passed_over. simpl.
    destruct (String.eqb dev_id "{fan}"); simpl; [ | exact I].
    right. constructor.
Qed.

Lemma set_color_fan_out_witness :
  let '(out, code, st) :=
    invoke loads_known int_known (scripted dark) ["set_color"; "0"; "128"; "255"] tt "" in
  out = [ok_obj] /\ code = 0
  /\ Forall2 queried
       [make_entry 0 (PStr "{kbd}") keyboard_info; make_entry 1 (PStr "{fan}") keyboard_info]
       (position_queries (calls st)).
Proof.
  assert (Hconnect : connect_sdk (scripted dark) default_timeout (fresh tt "")
                     = (Ret tt, connected dark)) by (vm_compute; reflexivity).
  assert (Henum : get_devices_with_indexes (scripted dark) (connected dark)
                  = (Ret (enumeration_at dark (connected dark)),
                     after_enumeration_at dark (connected dark)))
    by (vm_compute; reflexivity).
  assert (Hapi : has_position_api (scripted dark)).
  { right; right. simpl. eauto. }
  assert (Haddr : addressable int_known (scripted dark) (enumeration_at dark (connected dark))).
  { right. intros e He. vm_compute in He.
    apply elem_of_cons in He as [-> | He];
      [ | apply list_elem_of_singleton in He; subst e];
      eexists; (split; [reflexivity | ]); intros st; eexists; vm_compute; reflexivity. }
  pose proof (set_color_fan_out loads_known int_known (scripted dark) "0" "128" "255"
                0 128 255 tt "" _ _ _ eq_refl eq_refl eq_refl Hconnect Henum dark_unlit
                Hapi Haddr) as H.
  destruct (invoke loads_known int_known (scripted dark) ["set_color"; "0"; "128"; "255"] tt "")
    as [[out code] st].
  destruct H as (Hout & Hcode & Hqueries & _).
  split; [exact Hout | ]. split; [exact Hcode | ]. exact Hqueries.
Defined.

(** C2 as stated fails: the enumeration describes two devices, the
    position query of the first one fails and the second one has no LED;
    no buffered write is attempted for either, and the success object
    is printed. *)
Lemma set_color_fan_out_counterexample :
  let '(out, code, st) :=
    invoke loads_known int_known (scripted dark) ["set_color"; "0"; "0"; "0"] tt "" in
  out = [ok_obj] /\ code = 0
  /\ map e_device_id (en_result (enumeration_at dark (connected dark)))
     = [PStr "{kbd}"; PStr "{fan}"]
  /\ position_queries (calls st)
     = [ (inr "{kbd}", inr (PosTuple None (CE_Other "CE_DeviceNotFound")));
         (inr "{fan}", inr (PosTuple (Some {| led_positions := Some [] |}) CE_Success)) ]
  /\ write_attempts (calls st) = [].
Proof. vm_compute. repeat split; reflexivity. Qed.

(** * Further properties of the adapter *)

(** ** Arguments *)

(** X1.  An empty fifth argument of [set_color] is the same as none:
    the test of line 171 takes the empty string for a missing
    identifier, so every enumerated device is a target. *)
Theorem empty_identifier_means_all_devices {W : Type} (json_loads : string -> result pyval)
    (int_str : string -> result Z) (sdk : CueSdk W) (a1 a2 a3 : string) (st : Proc W) :
  main json_loads int_str sdk ["set_color"; a1; a2; a3; ""] st
  = main json_loads int_str sdk ["set_color"; a1; a2; a3] st.
Proof.
  unfold main, dispatch, try_except.
  cbn [String.eqb Ascii.eqb Bool.eqb andb orb length Nat.leb Nat.eqb argv_get nth_error].
  cbn [bind lift ret py_int].
  destruct (int_str a1) as [e | r]; [reflexivity | ]. cbn [bind lift ret py_int].
  destruct (int_str a2) as [e | g]; [reflexivity | ]. cbn [bind lift ret py_int].
  destruct (int_str a3) as [e | b]; reflexivity.
Qed.

(** X2.  An invocation whose command is unknown, or whose number of
    arguments does not fit its command, is answered "Bad arguments"
    with status 1 before anything else happens: no SDK object is made,
    no call is made, standard input is not read. *)
Theorem bad_arguments_touch_nothing {W : Type} (json_loads : string -> result pyval)
    (int_str : string -> result Z) (sdk : CueSdk W) (argv : list string) (w : W) (input : string) :
  let cmd := hd "" argv in
  (argv <> [] /\ cmd <> "list_devices" /\ cmd <> "list_leds" /\ cmd <> "set_color"
   /\ cmd <> "set_leds")
  \/ (cmd = "list_leds" /\ (length argv < 2)%nat)
  \/ (cmd = "set_color" /\ length argv <> 4%nat /\ length argv <> 5%nat)
  \/ (cmd = "set_leds" /\ (length argv < 3)%nat) ->
  invoke json_loads int_str sdk argv w input
  = ([err_obj "Bad arguments"], 1, mkProc w [err_obj "Bad arguments"] input []).
Proof.
  intros cmd Hbad. destruct argv as [| c rest].
  { exfalso. simpl in *. destruct Hbad as [[H _] | [[H _] | [[H _] | [H _]]]];
      [contradiction | discriminate ..]. }
  simpl in cmd. subst cmd. unfold invoke, main, try_except, dispatch.
  destruct Hbad as [(_ & H1 & H2 & H3 & H4) | [[-> Hlen] | [(-> & Hl4 & Hl5) | [-> Hlen]]]].
  - destruct (String.eqb_spec c "list_devices"); [contradiction | ].
    destruct (String.eqb_spec c "list_leds"); [contradiction | ].
    destruct (String.eqb_spec c "set_color"); [contradiction | ].
    destruct (String.eqb_spec c "set_leds"); [contradiction | ].
    reflexivity.
  - cbn [String.eqb Ascii.eqb Bool.eqb andb].
    destruct (Nat.leb_spec 2 (length ("list_leds" :: rest))); [lia | reflexivity].
  - cbn [String.eqb Ascii.eqb Bool.eqb andb].
    destruct (Nat.eqb_spec (length ("set_color" :: rest)) 4); [contradiction | ].
    destruct (Nat.eqb_spec (length ("set_color" :: rest)) 5); [contradiction | ].
    reflexivity.
  - cbn [String.eqb Ascii.eqb Bool.eqb andb].
    destruct (Nat.leb_spec 3 (length ("set_leds" :: rest))); [lia | reflexivity].
Qed.

Lemma bad_arguments_touch_nothing_witness :
  (invoke loads_known int_known (scripted desk) ["blink"; "0"] tt "").1
  = ([err_obj "Bad arguments"], 1)
  /\ (invoke loads_known int_known (scripted desk) ["set_color"; "1"; "2"] tt "").1
     = ([err_obj "Bad arguments"], 1)
  /\ (invoke loads_known int_known (scripted desk) ["list_leds"] tt "").1
     = ([err_obj "Bad arguments"], 1).
Proof.
  split; [ | split].
  - rewrite (bad_arguments_touch_nothing loads_known int_known (scripted desk)
               ["blink"; "0"] tt "");
      [reflexivity | ].
    left. repeat split; discriminate.
  - rewrite (bad_arguments_touch_nothing loads_known int_known (scripted desk)
               ["set_color"; "1"; "2"] tt "");
      [reflexivity | ].
    right; right; left. repeat split; simpl; lia.
  - rewrite (bad_arguments_touch_nothing loads_known int_known (scripted desk)
               ["list_leds"] tt "");
      [reflexivity | ].
    right; left. split; [reflexivity | simpl; lia].
Defined.

(** X3.  [set_color] converts its three colour arguments before it
    opens the session: when [int] raises on one of them, the error
    object carries the message of the exception raised for the first
    such argument, the status is 1 and no SDK call was made. *)
Theorem set_color_rejects_non_integers {W : Type} (json_loads : string -> result pyval)
    (int_str : string -> result Z) (sdk : CueSdk W) (a1 a2 a3 : string) (rest : list string)
    (e : exn) (w : W) (input : string) :
  (length rest <= 1)%nat ->
  int_str a1 = inl e
  \/ ((exists r, int_str a1 = inr r) /\ int_str a2 = inl e)
  \/ ((exists r, int_str a1 = inr r) /\ (exists g, int_str a2 = inr g) /\ int_str a3 = inl e) ->
  invoke json_loads int_str sdk ("set_color" :: a1 :: a2 :: a3 :: rest) w input
  = ([err_obj (exn_str e)], 1, mkProc w [err_obj (exn_str e)] input []).
Proof.
  intros Hlen Hbad. unfold invoke, main, try_except, dispatch.
  assert (Hn : ((length ("set_color" :: a1 :: a2 :: a3 :: rest) =? 4)%nat
                || (length ("set_color" :: a1 :: a2 :: a3 :: rest) =? 5)%nat)%bool = true).
  { destruct rest as [| x [| y rest]]; simpl in *; [reflexivity | reflexivity | lia]. }
  cbn [String.eqb Ascii.eqb Bool.eqb andb]. rewrite Hn.
  cbn [argv_get nth_error bind lift ret py_int].
  destruct Hbad as [H1 | [([r H1] & H2) | ([r H1] & [g H2] & H3)]].
  - rewrite H1. reflexivity.
  - rewrite H1. cbn [bind lift ret py_int]. rewrite H2. reflexivity.
  - rewrite H1. cbn [bind lift ret py_int]. rewrite H2. cbn [bind lift ret py_int].
    rewrite H3. reflexivity.
Qed.

Lemma set_color_rejects_non_integers_witness :
  (invoke loads_known int_known (scripted desk) ["set_color"; "255"; "0x10"; "red"] tt "").1
  = ([err_obj "invalid literal for int() with base 10: '0x10'"], 1).
Proof.
  rewrite (set_color_rejects_non_integers loads_known int_known (scripted desk)
             "255" "0x10" "red" []
             (mk_exn ValueError "invalid literal for int() with base 10: '0x10'") tt "");
    [reflexivity | simpl; lia | ].
  right; left. split; [exists 255; reflexivity | reflexivity].
Defined.

(** X4.  [set_leds] decodes its payload before it opens the session:
    when [json.loads] raises on the third argument, the error carries
    the message of that exception, the status is 1 and no SDK call was
    made. *)
Theorem set_leds_rejects_undecodable_payload {W : Type} (json_loads : string -> result pyval)
    (int_str : string -> result Z) (sdk : CueSdk W) (dev text : string) (rest : list string)
    (e : exn) (w : W) (input : string) :
  json_loads text = inl e ->
  invoke json_loads int_str sdk ("set_leds" :: dev :: text :: rest) w input
  = ([err_obj (exn_str e)], 1, mkProc w [err_obj (exn_str e)] input []).
Proof.
  intros Hloads. unfold invoke, main, try_except, dispatch.
  cbn [String.eqb Ascii.eqb Bool.eqb andb orb length Nat.leb Nat.eqb argv_get nth_error].
  unfold bind. cbn [lift ret]. rewrite Hloads. reflexivity.
Qed.

Lemma set_leds_rejects_undecodable_payload_witness :
  (invoke loads_known int_known (scripted desk) ["set_leds"; "0"; "red"] tt "").1
  = ([err_obj "Expecting value: line 1 column 1 (char 0)"], 1).
Proof.
  rewrite (set_leds_rejects_undecodable_payload loads_known int_known (scripted desk) "0" "red" []
             (mk_exn ValueError "Expecting value: line 1 column 1 (char 0)") tt "");
    reflexivity.
Defined.

(** ** Standard input *)

Section KeepsStdin.

Context {W : Type}.
Variable sdk : CueSdk W.

Lemma keeps_ret {A} (a : A) : keeps_stdin (W:=W) (ret a).
Proof. intros st. reflexivity. Qed.

Lemma keeps_raise {A} (e : exn) : keeps_stdin (W:=W) (raise (A:=A) e).
Proof. intros st. reflexivity. Qed.

Lemma keeps_lift {A} (r : result A) : keeps_stdin (W:=W) (lift r).
Proof. intros st. destruct r; reflexivity. Qed.

Lemma keeps_bind {A B} (m : M W A) (f : A -> M W B) :
  keeps_stdin m -> (forall a, keeps_stdin (f a)) -> keeps_stdin (bind m f).
Proof.
  intros Hm Hf st. specialize (Hm st). unfold bind.
  destruct (m st) as [[a | e | c] st1]; simpl in *; [ | exact Hm ..].
  rewrite (Hf a st1). exact Hm.
Qed.

Lemma keeps_try {A} (m : M W A) catches h :
  keeps_stdin m -> (forall e, keeps_stdin (h e)) -> keeps_stdin (try_except m catches h).
Proof.
  intros Hm Hh st. specialize (Hm st). unfold try_except.
  destruct (m st) as [[a | e | c] st1]; simpl in *; [exact Hm | | exact Hm].
  destruct (catches e); [ | exact Hm]. rewrite (Hh e st1). exact Hm.
Qed.

Lemma keeps_call {A} (f : W -> result A * W) ev : keeps_stdin (call f ev).
Proof. intros st. unfold call. destruct (f (world st)) as [[e | a] w]; reflexivity. Qed.

Lemma keeps_wait t : keeps_stdin (wait sdk t).
Proof. intros st. unfold wait. destruct (ready_wait sdk t (world st)); reflexivity. Qed.

Lemma keeps_when b (body : M W unit) : keeps_stdin body -> keeps_stdin (when b body).
Proof. destruct b; simpl; auto using keeps_ret. Qed.

Lemma keeps_json_out {A} obj code : keeps_stdin (W:=W) (json_out (A:=A) obj code).
Proof.
  intros st. unfold json_out, bind, json_dumps. destruct (json_serializable obj); reflexivity.
Qed.

End KeepsStdin.

Create HintDb stdin.

#[export] Hint Resolve keeps_ret keeps_raise keeps_lift keeps_call keeps_wait keeps_json_out
  : stdin.

Ltac keep_step :=
  lazymatch goal with
  | |- keeps_stdin (bind _ _) => apply keeps_bind; [ | intros ? ]
  | |- keeps_stdin (try_except _ _ _) => apply keeps_try; [ | intros ? ]
  | |- keeps_stdin (when _ _) => apply keeps_when
  | |- keeps_stdin _ => solve [auto with stdin]
  end.

Ltac keep := repeat keep_step.

Section StdinOfTheAdapter.

Context {W : Type}.
Variable json_loads : string -> result pyval.
Variable int_str : string -> result Z.
Variable sdk : CueSdk W.

Lemma keeps_connect_sdk t : keeps_stdin (connect_sdk sdk t).
Proof. unfold connect_sdk. keep. Qed.

Lemma keeps_enumerate_from devices : forall idx acc,
  keeps_stdin (enumerate_from sdk idx devices acc).
Proof.
  induction devices as [| d rest IH]; intros idx acc; simpl; keep.
  destruct a as [info ierr]. destruct (failed ierr), info; apply IH.
Qed.

Lemma keeps_get_devices_with_indexes : keeps_stdin (get_devices_with_indexes sdk).
Proof.
  unfold get_devices_with_indexes. keep. destruct a as [devices err]. keep.
  apply keeps_enumerate_from.
Qed.

Local Hint Resolve keeps_connect_sdk keeps_get_devices_with_indexes : stdin.

Lemma keeps_to_device_id ident : keeps_stdin (to_device_id int_str sdk ident).
Proof.
  unfold to_device_id. keep. destruct ident as [i | s].
  - destruct (index_to_id a !! i); keep.
  - destruct (is_int_str int_str s).
    + keep. destruct (index_to_id a !! a0); keep.
    + destruct (id_to_index a !! s); keep.
Qed.

Local Hint Resolve keeps_to_device_id : stdin.

Lemma keeps_first_position_api dev_id names :
  keeps_stdin (W:=W) (first_position_api dev_id names).
Proof. induction names as [| [api [fn |]] rest IH]; simpl; keep. Qed.

Lemma keeps_first_buffer_api dev_id colors names :
  keeps_stdin (W:=W) (first_buffer_api dev_id colors names).
Proof. induction names as [| [api [fn |]] rest IH]; simpl; keep. Qed.

Local Hint Resolve keeps_first_position_api keeps_first_buffer_api : stdin.

Lemma keeps_get_led_positions ident : keeps_stdin (get_led_positions int_str sdk ident).
Proof.
  unfold get_led_positions.
  destruct ident as [i | s]; [destruct (sdk_get_led_positions_by_device_index sdk) | ]; keep.
Qed.

Lemma keeps_set_colors_buffer ident colors :
  keeps_stdin (set_colors_buffer int_str sdk ident colors).
Proof.
  unfold set_colors_buffer.
  destruct ident as [i | s];
    [destruct (sdk_set_led_colors_buffer_by_device_index sdk) | ]; keep.
Qed.

Lemma keeps_flush_colors : keeps_stdin (flush_colors sdk).
Proof. unfold flush_colors. destruct (sdk_set_led_colors_flush_buffer sdk); keep. Qed.

Local Hint Resolve keeps_get_led_positions keeps_set_colors_buffer keeps_flush_colors : stdin.

Lemma keeps_color_targets r g b targets : keeps_stdin (color_targets int_str sdk r g b targets).
Proof.
  induction targets as [| ident rest IH]; simpl; keep.
  unfold color_target. keep. destruct a as [positions perr].
  destruct (failed_status perr), positions; keep.
  destruct a; keep. destruct (failed a0); keep.
Qed.

Local Hint Resolve keeps_color_targets : stdin.

Lemma keeps_dispatch argv cmd : keeps_stdin (dispatch json_loads int_str sdk argv cmd).
Proof.
  unfold dispatch.
  destruct (String.eqb cmd "list_devices").
  { unfold list_devices_cmd. keep. }
  destruct (String.eqb cmd "list_leds" && (2 <=? length argv)%nat)%bool.
  { keep. unfold list_leds_cmd. keep. destruct a1 as [positions err].
    destruct (failed_status err), positions; keep. }
  destruct (String.eqb cmd "set_color"
            && ((length argv =? 4)%nat || (length argv =? 5)%nat))%bool.
  { keep.
    - destruct (length argv =? 5)%nat; keep.
    - unfold set_color_cmd. keep. destruct a5 as [[| c s] | ]; keep. }
  destruct (3 <=? length argv)%nat; rewrite ?andb_true_r, ?andb_false_r.
  - destruct (String.eqb cmd "set_leds"); keep. unfold set_leds_cmd. keep.
  - keep.
Qed.

End StdinOfTheAdapter.

(** X5.  No invocation reads standard input: whatever the arguments
    and the SDK, standard input is left as it was.  The only read of the
    source, at line 225, sits behind a test that is false whenever the
    branch of line 223 is taken. *)
Theorem standard_input_is_never_read {W : Type} (json_loads : string -> result pyval)
    (int_str : string -> result Z) (sdk : CueSdk W) (argv : list string) (w : W) (input : string) :
  stdin (invoke json_loads int_str sdk argv w input).2 = input.
Proof.
  unfold invoke.
  assert (H : keeps_stdin (main json_loads int_str sdk argv)).
  { destruct argv as [| cmd rest]; simpl; [keep | ].
    apply keeps_try; [apply keeps_dispatch | intros e; keep]. }
  specialize (H (fresh w input)).
  destruct (main json_loads int_str sdk argv (fresh w input)) as [o st]. exact H.
Qed.

(** ** What the commands call *)

Section Grows.

Context {W : Type}.
Variable int_str : string -> result Z.
Variable sdk : CueSdk W.

Lemma grows_connect_sdk t : emits (fun _ => True) (connect_sdk sdk t).
Proof. eapply emits_weaken; [ | apply emits_connect_sdk]. auto. Qed.

Lemma grows_get_devices_with_indexes : emits (fun _ => True) (get_devices_with_indexes sdk).
Proof. eapply emits_weaken; [ | apply emits_get_devices_with_indexes]. auto. Qed.

Lemma grows_get_led_positions ident : emits (fun _ => True) (get_led_positions int_str sdk ident).
Proof. eapply emits_weaken; [ | apply emits_get_led_positions]. auto. Qed.

Lemma grows_set_colors_buffer ident colors :
  emits (fun _ => True) (set_colors_buffer int_str sdk ident colors).
Proof. eapply emits_weaken; [ | apply emits_set_colors_buffer]. auto. Qed.

Lemma grows_flush_colors : emits (fun _ => True) (flush_colors sdk).
Proof. eapply emits_weaken; [ | apply emits_flush_colors]. auto. Qed.

Lemma grows_color_targets r g b targets :
  emits (fun _ => True) (color_targets int_str sdk r g b targets).
Proof.
  eapply emits_weaken; [ | apply carrying_color_targets with (Q := fun _ => True)]. auto.
Qed.

End Grows.

Create HintDb grows.

#[export] Hint Resolve emits_ret emits_lift emits_json_out grows_connect_sdk
  grows_get_devices_with_indexes grows_get_led_positions grows_set_colors_buffer
  grows_flush_colors grows_color_targets : grows.

Ltac grow_step :=
  lazymatch goal with
  | |- emits _ (bind _ _) => apply emits_bind; [ | intros ? ]
  | |- emits _ (when _ _) => apply emits_when
  | |- emits _ _ => solve [auto with grows]
  end.

Ltac grow := repeat grow_step.

Section ReadOnly.

Context {W : Type}.
Variable int_str : string -> result Z.
Variable sdk : CueSdk W.

Lemma emits_list_devices_cmd :
  emits (fun c => kind_of c = KSession \/ kind_of c = KEnumeration) (list_devices_cmd sdk).
Proof.
  unfold list_devices_cmd. apply emits_bind; [ | intros _; apply emits_bind; [ | intros en]].
  - eapply emits_weaken; [ | apply emits_connect_sdk]. auto.
  - eapply emits_weaken; [ | apply emits_get_devices_with_indexes]. auto.
  - apply emits_json_out.
Qed.

Lemma emits_list_leds_cmd dev :
  emits (fun c => kind_of c <> KWrite /\ kind_of c <> KFlush) (list_leds_cmd int_str sdk dev).
Proof.
  unfold list_leds_cmd. apply emits_bind; [ | intros _; apply emits_bind; [ | intros q]].
  - eapply emits_weaken; [ | apply emits_connect_sdk].
    simpl. intros c ->. split; discriminate.
  - eapply emits_weaken; [ | apply emits_get_led_positions].
    simpl. intros c [-> | ->]; split; discriminate.
  - destruct q as [positions err]. destruct (failed_status err), positions; apply emits_json_out.
Qed.

End ReadOnly.

(** X6.  The two listing commands only read: [list_devices] makes no
    other calls than those of the session and of the enumeration (no
    position query, no write, no flush), and [list_leds] never writes
    colours and never flushes. *)
Theorem listing_commands_only_read {W : Type} (json_loads : string -> result pyval)
    (int_str : string -> result Z) (sdk : CueSdk W) (rest : list string) (w : W) (input : string) :
  Forall (fun c => kind_of c = KSession \/ kind_of c = KEnumeration)
    (calls (invoke json_loads int_str sdk ("list_devices" :: rest) w input).2)
  /\ Forall (fun c => kind_of c <> KWrite /\ kind_of c <> KFlush)
       (calls (invoke json_loads int_str sdk ("list_leds" :: rest) w input).2).
Proof.
  rewrite !calls_of_invoke. split; apply emits_from_fresh.
  - change (main json_loads int_str sdk ("list_devices" :: rest))
      with (try_except (list_devices_cmd sdk) (fun _ => true)
              (fun e => json_out (W:=W) (A:=unit) (err_obj (exn_str e)) 1)).
    apply emits_try; [apply emits_list_devices_cmd | intros e; apply emits_json_out].
  - unfold main. apply emits_try; [ | intros e; apply emits_json_out].
    unfold dispatch. cbn [String.eqb Ascii.eqb Bool.eqb andb].
    destruct (2 <=? length ("list_leds" :: rest))%nat; [ | apply emits_json_out].
    apply emits_bind; [apply emits_lift | intros dev]. apply emits_list_leds_cmd.
Qed.

(** ** The session comes first *)

Section SessionFirst.

Context {W : Type}.
Variable json_loads : string -> result pyval.
Variable int_str : string -> result Z.
Variable sdk : CueSdk W.

Lemma silent_json_out {A} obj code : silent_to_sdk (W:=W) (json_out (A:=A) obj code).
Proof.
  intros st. unfold json_out, bind, json_dumps. destruct (json_serializable obj); reflexivity.
Qed.

Lemma opens_silent {A} (m : M W A) : silent_to_sdk m -> opens m.
Proof. intros Hm st Hst. rewrite Hm, Hst. left. left. reflexivity. Qed.

Lemma opens_bind_lift {A B} (r : result A) (f : A -> M W B) :
  (forall a, opens (f a)) -> opens (bind (lift r) f).
Proof.
  intros Hf st Hst. destruct r as [e | a]; simpl.
  - rewrite Hst. left. left. reflexivity.
  - apply Hf. exact Hst.
Qed.

Lemma silent_lift {A} (r : result A) : silent_to_sdk (W:=W) (lift r).
Proof. intros st. destruct r; reflexivity. Qed.

Lemma silent_raise {A} (e : exn) : silent_to_sdk (W:=W) (raise (A:=A) e).
Proof. intros st. reflexivity. Qed.

Lemma silent_ret {A} (a : A) : silent_to_sdk (W:=W) (ret a).
Proof. intros st. reflexivity. Qed.

Lemma silent_bind {A B} (m : M W A) (f : A -> M W B) :
  silent_to_sdk m -> (forall a, silent_to_sdk (f a)) -> silent_to_sdk (bind m f).
Proof.
  intros Hm Hf st. specialize (Hm st). unfold bind.
  destruct (m st) as [[a | e | c] st1]; simpl in *; [ | exact Hm ..].
  rewrite (Hf a st1). exact Hm.
Qed.

Lemma opens_bind_silent {A B} (m : M W A) (f : A -> M W B) :
  silent_to_sdk m -> (forall a, opens (f a)) -> opens (bind m f).
Proof.
  intros Hm Hf st Hst. specialize (Hm st). unfold bind.
  destruct (m st) as [[a | e | c] st1]; simpl in *;
    [ | rewrite Hm, Hst; left; left; reflexivity ..].
  apply Hf. rewrite Hm. exact Hst.
Qed.

Lemma opens_try {A} (m : M W A) catches h :
  opens m -> (forall e, silent_to_sdk (h e)) -> opens (try_except m catches h).
Proof.
  intros Hm Hh st Hst. specialize (Hm st Hst). unfold try_except.
  destruct (m st) as [[a | e | c] st1]; simpl in *; [exact Hm | | exact Hm].
  destruct (catches e); [ | exact Hm]. rewrite (Hh e st1). exact Hm.
Qed.

Lemma opens_after_connect {B} (f : unit -> M W B) :
  (forall a, emits (fun _ => True) (f a)) ->
  opens (bind (connect_sdk sdk default_timeout) f).
Proof.
  intros Hf [w out inp log] Hst. simpl in Hst. subst log.
  unfold bind at 1, connect_sdk, bind at 1, call. simpl.
  destruct (sdk_new sdk w) as [[e | []] w1]; simpl.
  { left. right. left. eauto. }
  unfold bind at 1, call. simpl.
  destruct (sdk_connect sdk w1) as [[e | err] w2]; simpl.
  { left. right. right. eexists. split; [reflexivity | discriminate]. }
  unfold bind at 1. destruct (failed err) eqn:Hfail; simpl.
  - apply failed_true in Hfail.
    assert (Hno : no_session [CallNew (inr tt); CallConnect (inr err)]).
    { right. right. eexists. split; [reflexivity | congruence]. }
    unfold json_out, bind, json_dumps. simpl. left. exact Hno.
  - apply failed_false in Hfail. subst err.
    unfold bind at 1, wait. simpl.
    destruct (ready_wait sdk default_timeout w2) as [connected w3]. simpl.
    match goal with
    | |- context [f tt ?s] => destruct (Hf tt s) as (new & Hc & _)
    end.
    right. exists connected, new. rewrite Hc. reflexivity.
Qed.

Lemma opens_dispatch argv cmd : opens (dispatch json_loads int_str sdk argv cmd).
Proof.
  unfold dispatch.
  destruct (String.eqb cmd "list_devices").
  { unfold list_devices_cmd. apply opens_after_connect. intros _. grow. }
  destruct (String.eqb cmd "list_leds" && (2 <=? length argv)%nat)%bool.
  { apply opens_bind_lift. intros dev. unfold list_leds_cmd.
    apply opens_after_connect. intros _. grow. destruct a as [positions err].
    destruct (failed_status err), positions; grow. }
  destruct (String.eqb cmd "set_color"
            && ((length argv =? 4)%nat || (length argv =? 5)%nat))%bool.
  { do 6 (apply opens_bind_lift; intros ?).
    assert (Hcmd : forall dev, opens (set_color_cmd int_str sdk a0 a2 a4 dev)).
    { intros dev. unfold set_color_cmd. apply opens_after_connect. intros _. grow.
      destruct dev as [[| c s] | ]; grow. }
    apply opens_bind_silent; [ | intros dev; apply Hcmd].
    destruct (length argv =? 5)%nat; [ | apply silent_ret].
    apply silent_bind; [apply silent_lift | intros dev; apply silent_ret]. }
  destruct (3 <=? length argv)%nat; rewrite ?andb_true_r, ?andb_false_r;
    [ | apply opens_silent, silent_json_out].
  destruct (String.eqb cmd "set_leds"); [ | apply opens_silent, silent_json_out].
  apply opens_bind_lift. intros dev.
  apply opens_bind_silent.
  { apply silent_bind; [apply silent_lift | intros text; apply silent_lift]. }
  intros payload. unfold set_leds_cmd.
  apply opens_after_connect. intros _. grow.
Qed.

End SessionFirst.

(** X7.  The session comes first.  In the log of any invocation,
    either there was no session (no call at all, a constructor that
    raised, or a connect call that raised or did not answer Success, and
    then nothing after it), or the log starts with the constructor, the
    connect call answered Success and the wait with the default timeout,
    in this order, before any other call. *)
Theorem session_comes_first {W : Type} (json_loads : string -> result pyval)
    (int_str : string -> result Z) (sdk : CueSdk W) (argv : list string) (w : W) (input : string) :
  session_first (calls (invoke json_loads int_str sdk argv w input).2).
Proof.
  rewrite calls_of_invoke.
  assert (H : opens (main json_loads int_str sdk argv)).
  { destruct argv as [| cmd rest]; simpl.
    - apply opens_silent, silent_json_out.
    - apply opens_try; [apply opens_dispatch | intros e; apply silent_json_out]. }
  apply H. reflexivity.
Qed.

(** ** Flushes *)

Lemma last_wrote_ok_snoc b log c : last_wrote_ok b (log ++ [c]) = wrote_ok c.
Proof. unfold last_wrote_ok. rewrite last_snoc. reflexivity. Qed.

Lemma flushes_follow_writes_app log : forall b k,
  flushes_follow_writes b (log ++ k)
  = (flushes_follow_writes b log && flushes_follow_writes (last_wrote_ok b log) k)%bool.
Proof.
  induction log as [| c log IH]; intros b k; [reflexivity | ].
  simpl. rewrite IH, andb_assoc. f_equal. f_equal.
  unfold last_wrote_ok. destruct log as [| c' log']; [reflexivity | ].
  change (last (c :: c' :: log')) with (last (c' :: log')).
  destruct (last (c' :: log')) eqn:Hlast; [reflexivity | ].
  apply last_None in Hlast. discriminate.
Qed.

Lemma flushes_follow_writes_other log : forall b,
  Forall (fun c => kind_of c <> KFlush) log -> flushes_follow_writes b log = true.
Proof.
  induction log as [| c log IH]; intros b H; [reflexivity | ].
  apply Forall_cons in H as [Hc Hlog]. simpl. rewrite (IH _ Hlog).
  destruct c; simpl in *; try reflexivity. contradiction.
Qed.

(** What the boolean says. *)
Lemma flushes_follow_writes_spec pre : forall b r post,
  flushes_follow_writes b (pre ++ CallFlush r :: post) = true ->
  (pre = [] /\ b = true) \/ exists pre' c, pre = pre' ++ [c] /\ wrote_ok c = true.
Proof.
  induction pre as [| c pre IH]; intros b r post H; simpl in H.
  - left. apply andb_true_iff in H as [H _]. auto.
  - right. apply andb_true_iff in H as [_ H].
    destruct (IH _ _ _ H) as [[-> Hc] | (pre' & c' & -> & Hc')].
    + exists [], c. auto.
    + exists (c :: pre'), c'. auto.
Qed.

Section Tidy.

Context {W : Type}.
Variable json_loads : string -> result pyval.
Variable int_str : string -> result Z.
Variable sdk : CueSdk W.

Lemma tidy_emits {A} (m : M W A) :
  emits (fun c => kind_of c <> KFlush) m -> keeps_tidy m.
Proof.
  intros Hm st Hst. destruct (Hm st) as (new & Hc & Hp).
  rewrite Hc, flushes_follow_writes_app, Hst. simpl.
  apply flushes_follow_writes_other. exact Hp.
Qed.

Lemma tidy_bind {A B} (m : M W A) (f : A -> M W B) :
  keeps_tidy m -> (forall a, keeps_tidy (f a)) -> keeps_tidy (bind m f).
Proof.
  intros Hm Hf st Hst. specialize (Hm st Hst). unfold bind.
  destruct (m st) as [[a | e | c] st1]; simpl in *; [ | exact Hm ..].
  apply Hf. exact Hm.
Qed.

Lemma tidy_try {A} (m : M W A) catches h :
  keeps_tidy m -> (forall e, keeps_tidy (h e)) -> keeps_tidy (try_except m catches h).
Proof.
  intros Hm Hh st Hst. specialize (Hm st Hst). unfold try_except.
  destruct (m st) as [[a | e | c] st1]; simpl in *; [exact Hm | | exact Hm].
  destruct (catches e); [ | exact Hm]. apply Hh. exact Hm.
Qed.

Lemma tidy_silent {A} (m : M W A) : silent_to_sdk m -> keeps_tidy m.
Proof. intros Hm st Hst. rewrite Hm. exact Hst. Qed.

Lemma call_returns {A} (f : W -> result A * W) ev st a st' :
  call f ev st = (Ret a, st') -> calls st' = calls st ++ [ev (inr a)].
Proof.
  unfold call. destruct (f (world st)) as [[e | a'] w]; simpl; [discriminate | ].
  intros [= <- <-]. reflexivity.
Qed.

Lemma first_buffer_api_wrote dev_id colors names : forall st st' : Proc W,
  first_buffer_api dev_id colors names st = (Ret CE_Success, st') ->
  last_wrote_ok false (calls st') = true.
Proof.
  induction names as [| [api [fn | ]] rest IH]; intros st st'; simpl.
  - discriminate.
  - unfold try_except.
    destruct (call (fn (WithTarget dev_id colors)) (CallBuffer api (WithTarget dev_id colors)) st)
      as [[err | e | c] st1] eqn:Hfirst.
    + intros [= -> <-]. rewrite (call_returns _ _ _ _ _ Hfirst), last_wrote_ok_snoc.
      reflexivity.
    + destruct (is_TypeError e); [ | discriminate].
      intros Hsecond. rewrite (call_returns _ _ _ _ _ Hsecond), last_wrote_ok_snoc.
      reflexivity.
    + discriminate.
  - apply IH.
Qed.

(** A buffered write that returns Success leaves a successful write as
    the last call of the log. *)
Lemma set_colors_buffer_wrote ident colors st st' :
  set_colors_buffer int_str sdk ident colors st = (Ret CE_Success, st') ->
  last_wrote_ok false (calls st') = true.
Proof.
  unfold set_colors_buffer.
  assert (Hid : forall st0,
            bind (to_device_id int_str sdk ident) (fun dev_id =>
              first_buffer_api dev_id colors
                [(ByDeviceId, sdk_set_led_colors_buffer_by_device_id sdk);
                 (Generic, sdk_set_led_colors_buffer sdk)]) st0 = (Ret CE_Success, st') ->
            last_wrote_ok false (calls st') = true).
  { intros st0. unfold bind.
    destruct (to_device_id int_str sdk ident st0) as [[dev_id | e | c] st1]; try discriminate.
    apply first_buffer_api_wrote. }
  destruct ident as [i | s]; [ | apply Hid].
  destruct (sdk_set_led_colors_buffer_by_device_index sdk) as [fn | ]; [ | apply Hid].
  unfold try_except.
  destruct (call (fn i colors) (CallBufferByIndex i colors) st) as [[err | e | c] st1] eqn:Hfirst.
  - intros [= -> <-]. rewrite (call_returns _ _ _ _ _ Hfirst), last_wrote_ok_snoc. reflexivity.
  - destruct (is_TypeError e); [apply Hid | discriminate].
  - discriminate.
Qed.

Lemma tidy_set_colors_buffer ident colors : keeps_tidy (set_colors_buffer int_str sdk ident colors).
Proof.
  apply tidy_emits. eapply emits_weaken; [ | apply emits_set_colors_buffer].
  simpl. intros c [-> | Hw]; [discriminate | ]. destruct c; simpl in *; congruence.
Qed.

(** A flush after a successful write keeps the log tidy. *)
Lemma tidy_flush_after st :
  flushes_follow_writes false (calls st) = true ->
  last_wrote_ok false (calls st) = true ->
  flushes_follow_writes false (calls (flush_colors sdk st).2) = true.
Proof.
  intros Htidy Hlast. unfold flush_colors.
  destruct (sdk_set_led_colors_flush_buffer sdk) as [fn | ]; [ | exact Htidy].
  unfold bind, call. destruct (fn (world st)) as [[e | ferr] w]; simpl;
    rewrite flushes_follow_writes_app, Htidy, Hlast; reflexivity.
Qed.

Lemma tidy_get_led_positions ident : keeps_tidy (get_led_positions int_str sdk ident).
Proof.
  apply tidy_emits. eapply emits_weaken; [ | apply emits_get_led_positions].
  simpl. intros c [-> | ->]; discriminate.
Qed.

Lemma tidy_connect_sdk t : keeps_tidy (connect_sdk sdk t).
Proof.
  apply tidy_emits. eapply emits_weaken; [ | apply emits_connect_sdk].
  simpl. intros c ->. discriminate.
Qed.

Lemma tidy_get_devices_with_indexes : keeps_tidy (get_devices_with_indexes sdk).
Proof.
  apply tidy_emits. eapply emits_weaken; [ | apply emits_get_devices_with_indexes].
  simpl. intros c ->. discriminate.
Qed.

Lemma tidy_color_target r g b ident : keeps_tidy (color_target int_str sdk r g b ident).
Proof.
  intros st Hst. unfold color_target, bind at 1.
  pose proof (tidy_get_led_positions ident st Hst) as H1.
  destruct (get_led_positions int_str sdk ident st) as [[[positions perr] | e | c] st1];
    simpl in H1 |- *; [ | exact H1 ..].
  destruct (failed_status perr); [exact H1 | ].
  destruct positions as [positions | ]; [ | exact H1].
  unfold bind at 1. destruct (uniform_colors int_str r g b (leds_of positions)) as [e | colors];
    [exact H1 | ].
  cbn [lift ret]. destruct colors as [| c colors]; [exact H1 | ].
  unfold bind at 1.
  pose proof (tidy_set_colors_buffer ident (c :: colors) st1 H1) as H2.
  destruct (set_colors_buffer int_str sdk ident (c :: colors) st1)
    as [[err | e | x] st2] eqn:Hwrite;
    simpl in H2 |- *; [ | exact H2 ..].
  destruct (failed err) eqn:Hf; [exact H2 | ].
  apply failed_false in Hf. subst err.
  pose proof (tidy_flush_after st2 H2 (set_colors_buffer_wrote _ _ _ _ Hwrite)) as H3.
  unfold bind. destruct (flush_colors sdk st2) as [[ferr | e | x] st3]; exact H3.
Qed.

Lemma tidy_color_targets r g b targets : keeps_tidy (color_targets int_str sdk r g b targets).
Proof.
  induction targets as [| ident rest IH]; simpl.
  - apply tidy_silent, silent_ret.
  - apply tidy_bind; [apply tidy_color_target | intros _; exact IH].
Qed.

Lemma tidy_set_color_cmd r g b dev : keeps_tidy (set_color_cmd int_str sdk r g b dev).
Proof.
  unfold set_color_cmd. apply tidy_bind; [apply tidy_connect_sdk | intros _].
  apply tidy_bind; [ | intros targets].
  - destruct dev as [[| c s] | ];
      try (apply tidy_bind; [apply tidy_get_devices_with_indexes | intros en]);
      apply tidy_silent, silent_ret.
  - apply tidy_bind; [apply tidy_color_targets | intros _].
    apply tidy_silent, silent_json_out.
Qed.

Lemma tidy_set_leds_cmd dev payload : keeps_tidy (set_leds_cmd int_str sdk dev payload).
Proof.
  unfold set_leds_cmd. apply tidy_bind; [apply tidy_connect_sdk | intros _].
  apply tidy_bind; [apply tidy_silent, silent_lift | intros colors].
  intros st1 H1. unfold bind at 1.
  pose proof (tidy_set_colors_buffer (parse_ident int_str dev) colors st1 H1) as H2.
  destruct (set_colors_buffer int_str sdk (parse_ident int_str dev) colors st1)
    as [[err | e | x] st2]
    eqn:Hwrite; simpl in H2 |- *; [ | exact H2 ..].
  destruct (failed err) eqn:Hf.
  - unfold bind at 1. cbn [when]. rewrite json_out_prints by reflexivity. exact H2.
  - apply failed_false in Hf. subst err. cbn [when]. unfold bind at 1. cbn [ret].
    pose proof (tidy_flush_after st2 H2 (set_colors_buffer_wrote _ _ _ _ Hwrite)) as H3.
    unfold bind at 1. destruct (flush_colors sdk st2) as [[ferr | e | x] st3]; exact H3.
Qed.

Lemma tidy_list_devices_cmd : keeps_tidy (list_devices_cmd sdk).
Proof.
  apply tidy_emits. eapply emits_weaken; [ | apply emits_list_devices_cmd].
  simpl. intros c [-> | ->]; discriminate.
Qed.

Lemma tidy_list_leds_cmd dev : keeps_tidy (list_leds_cmd int_str sdk dev).
Proof.
  apply tidy_emits. eapply emits_weaken; [ | apply emits_list_leds_cmd].
  simpl. intros c [_ H]. exact H.
Qed.

Lemma tidy_dispatch argv cmd : keeps_tidy (dispatch json_loads int_str sdk argv cmd).
Proof.
  unfold dispatch.
  destruct (String.eqb cmd "list_devices"); [apply tidy_list_devices_cmd | ].
  destruct (String.eqb cmd "list_leds" && (2 <=? length argv)%nat)%bool.
  { apply tidy_bind; [apply tidy_silent, silent_lift | intros dev; apply tidy_list_leds_cmd]. }
  destruct (String.eqb cmd "set_color"
            && ((length argv =? 4)%nat || (length argv =? 5)%nat))%bool.
  { do 6 (apply tidy_bind; [apply tidy_silent, silent_lift | intros ?]).
    apply tidy_bind; [ | intros dev; apply tidy_set_color_cmd].
    apply tidy_silent. destruct (length argv =? 5)%nat; [ | apply silent_ret].
    apply silent_bind; [apply silent_lift | intros dev; apply silent_ret]. }
  destruct (3 <=? length argv)%nat; rewrite ?andb_true_r, ?andb_false_r;
    [ | apply tidy_silent, silent_json_out].
  destruct (String.eqb cmd "set_leds"); [ | apply tidy_silent, silent_json_out].
  apply tidy_bind; [apply tidy_silent, silent_lift | intros dev].
  apply tidy_bind; [ | intros payload; apply tidy_set_leds_cmd].
  apply tidy_silent, silent_bind; [apply silent_lift | intros text; apply silent_lift].
Qed.

End Tidy.

(** X8.  A flush is only ever called right after a buffered write that
    answered Success: in the log of any invocation, the call just before
    a flush is such a write.  Nothing is flushed after a failed write,
    after a skipped device or on its own. *)
Theorem flush_only_after_a_successful_write {W : Type} (json_loads : string -> result pyval)
    (int_str : string -> result Z) (sdk : CueSdk W) (argv : list string) (w : W) (input : string) :
  forall pre r post,
    calls (invoke json_loads int_str sdk argv w input).2 = pre ++ CallFlush r :: post ->
    exists pre' c, pre = pre' ++ [c] /\ wrote_ok c = true.
Proof.
  intros pre r post Hlog. rewrite calls_of_invoke in Hlog.
  assert (H : keeps_tidy (main json_loads int_str sdk argv)).
  { destruct argv as [| cmd rest]; simpl.
    - apply tidy_silent, silent_json_out.
    - apply tidy_try; [apply tidy_dispatch | intros e; apply tidy_silent, silent_json_out]. }
  specialize (H (fresh w input) eq_refl). rewrite Hlog in H.
  destruct (flushes_follow_writes_spec _ _ _ _ H) as [[_ Hb] | Hex]; [discriminate | exact Hex].
Qed.

Lemma flush_only_after_a_successful_write_witness :
  exists pre' c,
    [CallNew (inr tt); CallConnect (inr CE_Success); CallWait default_timeout false;
     CallGetDevices (inr (Some (s_devices desk), CE_Success));
     CallGetDeviceInfo (PStr "{kbd}") (inr (s_info desk (PStr "{kbd}")));
     CallGetDeviceInfo (PStr "{gone}") (inr (s_info desk (PStr "{gone}")));
     CallGetDeviceInfo (PStr "{fan}") (inr (s_info desk (PStr "{fan}")));
     CallBuffer Generic (WithTarget "{fan}" []) (inr CE_Success)]
    = pre' ++ [c]
    /\ wrote_ok c = true.
Proof.
  eapply (flush_only_after_a_successful_write loads_known int_known (scripted desk)
            ["set_leds"; "2"; "[]"] tt "" _ (inr CE_Success) []).
  vm_compute. reflexivity.
Defined.

(** ** Resolution, again *)

(** X9.  Resolution only returns ids of the enumeration it has just
    made: when [to_device_id] returns, the enumeration returned from the
    same state and left the state that [to_device_id] leaves, and the
    id is the string device id of one of its descriptors: the one at the
    given index for an integer (or a string that [int] accepts), the
    identifier itself for any other string. *)
Theorem resolved_ids_are_enumerated {W : Type} (int_str : string -> result Z)
    (sdk : CueSdk W) (ident : Ident) (st st' : Proc W) (dev_id : string) :
  to_device_id int_str sdk ident st = (Ret dev_id, st') ->
  exists en e,
    get_devices_with_indexes sdk st = (Ret en, st')
    /\ e ∈ en_result en
    /\ e_device_id e = PStr dev_id
    /\ match ident with
       | IInt i => e_index e = i
       | IStr s =>
           int_str s = inr (e_index e) \/ ((exists ex, int_str s = inl ex) /\ dev_id = s)
       end.
Proof.
  unfold to_device_id, bind at 1. intros Hrun.
  destruct (get_devices_with_indexes sdk st) as [[en | e | c] st1] eqn:Henum;
    [ | discriminate ..].
  assert (Hfound : forall i,
            index_to_id en !! i = Some dev_id -> st1 = st' ->
            exists e, get_devices_with_indexes sdk st = (Ret en, st') /\ e ∈ en_result en
                      /\ e_device_id e = PStr dev_id /\ e_index e = i).
  { intros i Hi <-. apply (index_to_id_spec sdk st en st1 i dev_id Henum) in Hi
      as (e & He & Hidx & Hid). exists e. auto. }
  exists en. destruct ident as [i | s].
  - destruct (index_to_id en !! i) as [d | ] eqn:Hi.
    + injection Hrun as -> Hst. destruct (Hfound i Hi Hst) as (e & H1 & H2 & H3 & H4).
      exists e. repeat split; auto; congruence.
    + unfold json_out, bind in Hrun. simpl in Hrun. discriminate.
  - unfold is_int_str in Hrun. destruct (int_str s) as [ex | idx] eqn:Hs.
    + destruct (id_to_index en !! s) as [j | ] eqn:Hj.
      * injection Hrun as <- Hst.
        pose proof (id_to_index_back sdk st en st1 j s Henum Hj) as Hi.
        destruct (Hfound j Hi Hst) as (e & H1 & H2 & H3 & H4). exists e.
        repeat split; eauto; congruence.
      * unfold json_out, bind in Hrun. simpl in Hrun. discriminate.
    + unfold bind, py_int in Hrun. rewrite Hs in Hrun. simpl in Hrun.
      destruct (index_to_id en !! idx) as [d | ] eqn:Hi.
      * injection Hrun as -> Hst. destruct (Hfound idx Hi Hst) as (e & H1 & H2 & H3 & H4).
        exists e. rewrite H4. repeat split; auto; congruence.
      * discriminate.
Qed.

Lemma resolved_ids_are_enumerated_witness :
  exists en e,
    get_devices_with_indexes (scripted desk) (fresh tt "") = (Ret en, after_enumeration desk)
    /\ e ∈ en_result en /\ e_device_id e = PStr "{fan}" /\ e_index e = 2.
Proof.
  apply (resolved_ids_are_enumerated int_known (scripted desk) (IInt 2) (fresh tt "")
           (after_enumeration desk) "{fan}").
  vm_compute. reflexivity.
Defined.

(** X10.  A device can be addressed by its index or by its id, with the
    same effect: when the index [i] holds the id [dev_id] (an id on
    which [int] raises), resolving either gives the same
    result, and so do the position query and the buffered write when the
    SDK has no index-addressed entry point of their kind. *)
Theorem index_and_id_address_the_same_device {W : Type} (int_str : string -> result Z)
    (sdk : CueSdk W) (i : Z) (dev_id : string) (ex : exn) (st st' : Proc W)
    (en : Enumeration) :
  get_devices_with_indexes sdk st = (Ret en, st') ->
  index_to_id en !! i = Some dev_id ->
  int_str dev_id = inl ex ->
  to_device_id int_str sdk (IStr dev_id) st = (Ret dev_id, st')
  /\ to_device_id int_str sdk (IInt i) st = (Ret dev_id, st')
  /\ (sdk_get_led_positions_by_device_index sdk = None ->
      get_led_positions int_str sdk (IStr dev_id) st = get_led_positions int_str sdk (IInt i) st)
  /\ (sdk_set_led_colors_buffer_by_device_index sdk = None ->
      forall colors,
        set_colors_buffer int_str sdk (IStr dev_id) colors st
        = set_colors_buffer int_str sdk (IInt i) colors st).
Proof.
  intros Henum Hi Hopaque.
  assert (Hstr : to_device_id int_str sdk (IStr dev_id) st = (Ret dev_id, st')).
  { destruct (index_to_id_known sdk st en st' i dev_id Henum Hi) as [j Hj].
    unfold to_device_id, bind at 1. rewrite Henum. unfold is_int_str.
    rewrite Hopaque, Hj. reflexivity. }
  assert (Hint : to_device_id int_str sdk (IInt i) st = (Ret dev_id, st')).
  { unfold to_device_id, bind at 1. rewrite Henum, Hi. reflexivity. }
  split; [exact Hstr | ]. split; [exact Hint | ]. split.
  - intros Hnone. unfold get_led_positions. rewrite Hnone. cbv zeta.
    unfold bind. rewrite Hstr, Hint. reflexivity.
  - intros Hnone colors. unfold set_colors_buffer. rewrite Hnone. cbv zeta.
    unfold bind. rewrite Hstr, Hint. reflexivity.
Qed.

Lemma index_and_id_address_the_same_device_witness :
  get_led_positions int_known (scripted desk) (IStr "{fan}") (connected desk)
  = get_led_positions int_known (scripted desk) (IInt 2) (connected desk).
Proof.
  assert (Hrun : get_devices_with_indexes (scripted desk) (connected desk)
                 = (Ret (enumeration_at desk (connected desk)),
                    after_enumeration_at desk (connected desk)))
    by (vm_compute; reflexivity).
  apply (index_and_id_address_the_same_device int_known (scripted desk) 2 "{fan}"
           (mk_exn ValueError "invalid literal for int() with base 10: '{fan}'") _ _ _ Hrun);
    vm_compute; reflexivity.
Defined.
(** ** [list_leds] and [list_devices], to the end *)

Lemma json_out_raises {W A : Type} (obj : pyval) (code : Z) (e : exn) (st : Proc W) :
  json_dumps obj = inl e -> json_out (A:=A) obj code st = (Raise e, st).
Proof. intros H. unfold json_out, bind. rewrite H. reflexivity. Qed.

Lemma json_dumps_returns (obj line : pyval) :
  json_dumps obj = inr line -> line = obj /\ json_serializable obj = true.
Proof.
  unfold json_dumps. destruct (json_serializable obj); [ | discriminate].
  intros [= <-]. auto.
Qed.

(** What the handler of line 229 makes of an exception raised by a
    command that had printed nothing. *)
Lemma handler_reports {W : Type} json_loads int_str (sdk : CueSdk W) cmd rest w input e st :
  dispatch json_loads int_str sdk (cmd :: rest) cmd (fresh w input) = (Raise e, st) ->
  invoke json_loads int_str sdk (cmd :: rest) w input
  = ([err_obj (exn_str e)], 1,
     mkProc (world st) [err_obj (exn_str e)] (stdin st) (calls st)).
Proof.
  intros Hrun.
  assert (Hout : stdout st = []).
  { pose proof (obeys_dispatch json_loads int_str sdk (cmd :: rest) cmd (fresh w input)) as H.
    rewrite Hrun in H. simpl in H. apply H. }
  assert (Hmain : main json_loads int_str sdk (cmd :: rest) (fresh w input)
                  = (Exit 1, mkProc (world st) [err_obj (exn_str e)] (stdin st) (calls st))).
  { unfold main. rewrite (try_except_raise _ _ _ e st Hrun).
    rewrite json_out_prints by reflexivity. rewrite Hout. reflexivity. }
  rewrite (invoke_exit _ _ _ _ _ _ _ _ Hmain). reflexivity.
Qed.

Lemma command_decides {W : Type} json_loads int_str (sdk : CueSdk W) cmd rest w input code st :
  dispatch json_loads int_str sdk (cmd :: rest) cmd (fresh w input) = (Exit code, st) ->
  invoke json_loads int_str sdk (cmd :: rest) w input = (stdout st, code, st).
Proof.
  intros Hrun. apply invoke_exit. unfold main. apply try_except_exit. exact Hrun.
Qed.

(** X11.  Once the session is established, [list_leds] answers as the
    position query did.  A status other than Success, or no positions,
    gives the error object with the status as [str] prints it (the name
    of the member for a status that the SDK returned, 0 for the
    attribute that lines 112 and 118 put where the SDK returned none) and
    the identifier as it was typed, and the exit status 1.  Otherwise
    the success object lists one dictionary per LED position, in the
    order of the SDK (none when the positions have no [led_positions]),
    with status 0; when an attribute of a position cannot be encoded,
    the answer is the error object of the encoder's exception, with
    status 1. *)
Theorem list_leds_contract {W : Type} (json_loads : string -> result pyval)
    (int_str : string -> result Z) (sdk : CueSdk W)
    (dev : string) (rest : list string) (w : W) (input : string) (st1 st2 : Proc W)
    (positions : option Positions) (status : Status) :
  connect_sdk sdk default_timeout (fresh w input) = (Ret tt, st1) ->
  get_led_positions int_str sdk (parse_ident int_str dev) st1
  = (Ret (positions, status), st2) ->
  let answer (obj : pyval) (code : Z) : Prop :=
    invoke json_loads int_str sdk ("list_leds" :: dev :: rest) w input
    = ([obj], code, mkProc (world st2) [obj] (stdin st2) (calls st2)) in
  let listing (leds : list pyval) : pyval :=
    PDict [("ok", PBool true); ("device", PStr dev); ("leds", PList leds)] in
  (failed_status status = true \/ positions = None ->
     answer (PDict [("error", PStr "Could not get LED positions");
                    ("code", PStr (str_of_status status)); ("device", PStr dev)]) 1)
  /\ (forall p, failed_status status = false -> positions = Some p ->
        match json_dumps (listing (map led_json (leds_of p))) with
        | inr obj => answer obj 0
        | inl e => answer (err_obj (exn_str e)) 1
        end)
  /\ (forall p, failed_status status = false -> positions = Some p ->
        led_positions p = None -> answer (listing []) 0)
  /\ (status = Attribute_Success -> positions = None ->
        answer (PDict [("error", PStr "Could not get LED positions");
                       ("code", PStr "0"); ("device", PStr dev)]) 1).
Proof.
  intros Hconnect Hquery answer listing.
  assert (Hout1 : stdout st1 = []).
  { apply (returns_silently _ _ _ _ (obeys_connect_sdk sdk "" default_timeout) Hconnect). }
  assert (Hout2 : stdout st2 = []).
  { rewrite <- Hout1.
    apply (returns_silently _ _ _ _ (obeys_get_led_positions int_str sdk "" _) Hquery). }
  assert (Hcmd : dispatch json_loads int_str sdk ("list_leds" :: dev :: rest) "list_leds"
                   (fresh w input)
                 = match failed_status status, positions with
                   | false, Some p => json_out (listing (map led_json (leds_of p))) 0 st2
                   | _, _ =>
                       json_out (PDict [("error", PStr "Could not get LED positions");
                                        ("code", PStr (str_of_status status));
                                        ("device", PStr dev)]) 1 st2
                   end).
  { change (dispatch json_loads int_str sdk ("list_leds" :: dev :: rest) "list_leds")
      with (bind (ret dev) (list_leds_cmd int_str sdk)).
    unfold bind at 1. cbn [ret]. unfold list_leds_cmd, bind at 1. rewrite Hconnect.
    unfold bind at 1. rewrite Hquery. destruct (failed_status status), positions; reflexivity. }
  assert (Hgood : forall p, failed_status status = false -> positions = Some p ->
            match json_dumps (listing (map led_json (leds_of p))) with
            | inr obj => answer obj 0
            | inl e => answer (err_obj (exn_str e)) 1
            end).
  { intros p Hf ->. rewrite Hf in Hcmd.
    destruct (json_dumps (listing (map led_json (leds_of p)))) as [e | obj] eqn:Hdumps.
    - rewrite (json_out_raises _ _ e) in Hcmd by exact Hdumps. subst answer. cbv beta.
      rewrite (handler_reports _ _ _ _ _ _ _ _ _ Hcmd). reflexivity.
    - apply json_dumps_returns in Hdumps as [-> Hs].
      rewrite json_out_prints in Hcmd by exact Hs. subst answer. cbv beta.
      rewrite (command_decides _ _ _ _ _ _ _ _ _ Hcmd). cbn [stdout].
      rewrite Hout2. reflexivity. }
  assert (Hbad : failed_status status = true \/ positions = None ->
            answer (PDict [("error", PStr "Could not get LED positions");
                           ("code", PStr (str_of_status status)); ("device", PStr dev)]) 1).
  { intros Hbad.
    assert (Hfail : dispatch json_loads int_str sdk ("list_leds" :: dev :: rest) "list_leds"
                      (fresh w input)
                    = json_out (PDict [("error", PStr "Could not get LED positions");
                                       ("code", PStr (str_of_status status));
                                       ("device", PStr dev)]) 1 st2).
    { rewrite Hcmd. destruct (failed_status status) eqn:Hf; [reflexivity | ].
      destruct positions; [ | reflexivity].
      destruct Hbad; discriminate. }
    rewrite json_out_prints in Hfail by reflexivity. subst answer. cbv beta.
    rewrite (command_decides _ _ _ _ _ _ _ _ _ Hfail). cbn [stdout].
    rewrite Hout2. reflexivity. }
  split; [exact Hbad | ]. split; [exact Hgood | ]. split.
  - intros p He Hp Hnone. specialize (Hgood p He Hp). unfold leds_of in Hgood.
    rewrite Hnone in Hgood. exact Hgood.
  - intros -> Hnone. apply Hbad. right. exact Hnone.
Qed.

Lemma list_leds_contract_witness :
  (invoke loads_known int_known (scripted desk) ["list_leds"; "2"] tt "").1
  = ([PDict [("ok", PBool true); ("device", PStr "2");
             ("leds", PList [led_json (led 1); led_json (led 2)])]], 0).
Proof.
  pose (p := {| led_positions := Some [led 1; led 2] |}).
  pose (st2 := (get_led_positions int_known (scripted desk) (parse_ident int_known "2")
                  (connected desk)).2).
  assert (Hconnect : connect_sdk (scripted desk) default_timeout (fresh tt "")
                     = (Ret tt, connected desk)) by (vm_compute; reflexivity).
  assert (Hquery : get_led_positions int_known (scripted desk) (parse_ident int_known "2")
                     (connected desk)
                   = (Ret (Some p, Returned CE_Success), st2)) by (vm_compute; reflexivity).
  destruct (list_leds_contract loads_known int_known (scripted desk) "2" [] tt ""
              (connected desk) st2 (Some p) (Returned CE_Success) Hconnect Hquery)
    as (_ & H & _).
  specialize (H p eq_refl eq_refl). cbv beta in H.
  change (json_dumps (PDict [("ok", PBool true); ("device", PStr "2");
                             ("leds", PList (map led_json (leds_of p)))]))
    with (@inr exn _ (PDict [("ok", PBool true); ("device", PStr "2");
                             ("leds", PList [led_json (led 1); led_json (led 2)])])) in H.
  rewrite H. reflexivity.
Defined.

(** X12.  Once the devices are enumerated, [list_devices] on descriptors
    that the encoder refuses (an attribute that is neither a number, a
    string, a boolean, [None] nor a container of such) prints the error
    object of the encoder's exception and exits with 1; nothing else is
    printed. *)
Theorem list_devices_unencodable {W : Type} (json_loads : string -> result pyval)
    (int_str : string -> result Z) (sdk : CueSdk W) (rest : list string) (w : W)
    (input : string) (st1 st2 : Proc W) (en : Enumeration) (e : exn) :
  connect_sdk sdk default_timeout (fresh w input) = (Ret tt, st1) ->
  get_devices_with_indexes sdk st1 = (Ret en, st2) ->
  json_dumps (PDict [("ok", PBool true); ("devices", PList (map entry_json (en_result en)))])
  = inl e ->
  invoke json_loads int_str sdk ("list_devices" :: rest) w input
  = ([err_obj (exn_str e)], 1,
     mkProc (world st2) [err_obj (exn_str e)] (stdin st2) (calls st2)).
Proof.
  intros Hconnect Henum Hdumps.
  apply handler_reports.
  change (dispatch json_loads int_str sdk ("list_devices" :: rest) "list_devices")
    with (list_devices_cmd sdk).
  unfold list_devices_cmd, bind at 1. rewrite Hconnect. unfold bind at 1. rewrite Henum.
  apply json_out_raises. exact Hdumps.
Qed.

Lemma list_devices_unencodable_witness :
  (invoke loads_known int_known (scripted sealed) ["list_devices"] tt "").1
  = ([err_obj "Object of type bytes is not JSON serializable"], 1).
Proof.
  pose (st2 := after_enumeration_at sealed (connected sealed)).
  assert (Hconnect : connect_sdk (scripted sealed) default_timeout (fresh tt "")
                     = (Ret tt, connected sealed)) by (vm_compute; reflexivity).
  assert (Henum : get_devices_with_indexes (scripted sealed) (connected sealed)
                  = (Ret (enumeration_at sealed (connected sealed)), st2))
    by (vm_compute; reflexivity).
  rewrite (list_devices_unencodable loads_known int_known (scripted sealed) [] tt ""
             (connected sealed)
             st2 (enumeration_at sealed (connected sealed))
             (mk_exn TypeError "Object of type bytes is not JSON serializable")
             Hconnect Henum); [reflexivity | vm_compute; reflexivity].
Defined.

(** ** The writes of [set_color] *)

Section SetColorCalls.

Context {W : Type}.
Variable json_loads : string -> result pyval.
Variable int_str : string -> result Z.
Variable sdk : CueSdk W.


Lemma reading_color_target r g b ident :
  emits (fun c => kind_of c = KEnumeration \/ kind_of c = KPosition)
    (color_target int_str sdk r g b ident).
Proof.
  unfold color_target. apply emits_bind; [apply emits_get_led_positions | ].
  intros [positions perr]. destruct (failed_status perr), positions; emit.
  match goal with
  | Hu : uniform_colors _ _ _ _ _ = inr ?cs |- _ =>
      apply uniform_colors_returns in Hu as [-> _]
  end.
  emit.
Qed.

Lemma reading_color_targets r g b targets :
  emits (fun c => kind_of c = KEnumeration \/ kind_of c = KPosition)
    (color_targets int_str sdk r g b targets).
Proof.
  induction targets as [| ident rest IH]; simpl; emit. apply reading_color_target.
Qed.

Lemma reading_set_color_cmd r g b dev :
  emits (fun c => kind_of c = KSession \/ kind_of c = KEnumeration \/ kind_of c = KPosition)
    (set_color_cmd int_str sdk r g b dev).
Proof.
  unfold set_color_cmd. apply emits_bind; [ | intros _; apply emits_bind; [ | intros targets]].
  - eapply emits_weaken; [ | apply emits_connect_sdk]. simpl. auto.
  - destruct dev as [[| c s] | ]; emit;
      (eapply emits_weaken; [ | apply emits_get_devices_with_indexes]); simpl; auto.
  - apply emits_bind; [ | intros _; emit].
    eapply emits_weaken; [ | apply reading_color_targets]. simpl. tauto.
Qed.

Lemma reading_dispatch_set_color argv :
  emits (fun c => kind_of c = KSession \/ kind_of c = KEnumeration \/ kind_of c = KPosition)
    (dispatch json_loads int_str sdk argv "set_color").
Proof.
  unfold dispatch. cbn [String.eqb Ascii.eqb Bool.eqb andb].
  destruct ((length argv =? 4)%nat || (length argv =? 5)%nat)%bool; [ | emit].
  emit.
  - destruct (length argv =? 5)%nat; emit.
  - apply reading_set_color_cmd.
Qed.

End SetColorCalls.


(** X24.  [set_color] only reads: the SDK calls of a [set_color]
    invocation are those of the session, of the enumeration and the
    position queries.  No buffered write is attempted and nothing is
    flushed, since the call of [CorsairLedColor] at line 185 raises
    before line 188 is reached. *)
Theorem set_color_only_reads {W : Type} (json_loads : string -> result pyval)
    (int_str : string -> result Z) (sdk : CueSdk W) (rest : list string) (w : W)
    (input : string) :
  Forall (fun c => kind_of c = KSession \/ kind_of c = KEnumeration \/ kind_of c = KPosition)
    (calls (invoke json_loads int_str sdk ("set_color" :: rest) w input).2).
Proof.
  rewrite calls_of_invoke. apply emits_from_fresh. unfold main.
  apply emits_try; [ | intros e; emit].
  apply reading_dispatch_set_color.
Qed.

(** X14.  An enumeration that the SDK answers with a status other than
    Success is fatal: the error object with that status is printed and
    the process exits with 1 without asking for the info of any device.
    The resolution of an identifier, which enumerates first, ends the
    same way whatever the identifier, and so does [list_devices]. *)
Theorem enumeration_failure_is_fatal {W : Type} (int_str : string -> result Z)
    (sdk : CueSdk W) (st : Proc W) (devices : option (list Device)) (err : CorsairError)
    (w' : W) :
  sdk_get_devices sdk (world st) = (inr (devices, err), w') ->
  err <> CE_Success ->
  let obj := PDict [("error", PStr "Could not enumerate devices");
                    ("code", PStr (str_of_err err))] in
  let report := mkProc w' (stdout st ++ [obj]) (stdin st)
                  (calls st ++ [CallGetDevices (inr (devices, err))]) in
  get_devices_with_indexes sdk st = (Exit 1, report)
  /\ (forall ident, to_device_id int_str sdk ident st = (Exit 1, report))
  /\ (forall json_loads rest w input,
        connect_sdk sdk default_timeout (fresh w input) = (Ret tt, st) ->
        invoke json_loads int_str sdk ("list_devices" :: rest) w input
        = ([obj], 1, mkProc w' [obj] (stdin st)
                       (calls st ++ [CallGetDevices (inr (devices, err))]))).
Proof.
  intros Hget Hne obj report.
  assert (Henum : get_devices_with_indexes sdk st = (Exit 1, report)).
  { unfold get_devices_with_indexes, bind at 1, call. rewrite Hget. cbn [lift ret].
    apply failed_true in Hne. rewrite Hne. cbn [when]. unfold bind at 1.
    rewrite json_out_prints by reflexivity. reflexivity. }
  split; [exact Henum | split].
  - intros ident. unfold to_device_id, bind at 1. rewrite Henum. reflexivity.
  - intros json_loads rest w input Hconnect.
    assert (Hout : stdout st = []).
    { apply (returns_silently _ _ _ _ (obeys_connect_sdk sdk "" default_timeout) Hconnect). }
    assert (Hcmd : dispatch json_loads int_str sdk ("list_devices" :: rest) "list_devices"
                     (fresh w input) = (Exit 1, report)).
    { change (dispatch json_loads int_str sdk ("list_devices" :: rest) "list_devices")
        with (list_devices_cmd sdk).
      unfold list_devices_cmd, bind at 1. rewrite Hconnect. unfold bind at 1.
      rewrite Henum. reflexivity. }
    rewrite (command_decides _ _ _ _ _ _ _ _ _ Hcmd). subst report. cbn [stdout].
    rewrite Hout. reflexivity.
Qed.

Lemma enumeration_failure_is_fatal_witness :
  (invoke loads_known int_known unlisted ["list_devices"] tt "").1
  = ([PDict [("error", PStr "Could not enumerate devices");
             ("code", PStr (str_of_err (CE_Other "CE_NotConnected")))]], 1).
Proof.
  assert (Hget : sdk_get_devices unlisted (world (connected desk))
                 = (inr (None, CE_Other "CE_NotConnected"), tt)) by reflexivity.
  assert (Hne : CE_Other "CE_NotConnected" <> CE_Success) by discriminate.
  destruct (enumeration_failure_is_fatal int_known unlisted (connected desk) None
              (CE_Other "CE_NotConnected") tt Hget Hne) as (_ & _ & H).
  rewrite (H loads_known [] tt ""); [reflexivity | vm_compute; reflexivity].
Defined.

Lemma same_index_same_entry (l : list Entry) (x y : Entry) :
  NoDup (map e_index l) -> x ∈ l -> y ∈ l -> e_index x = e_index y -> x = y.
Proof.
  induction l as [| z l IH]; simpl; intros Hnd Hx Hy Heq.
  - inversion Hx.
  - apply NoDup_cons in Hnd as [Hz Hnd].
    apply elem_of_cons in Hx as [-> | Hx]; apply elem_of_cons in Hy as [-> | Hy].
    + reflexivity.
    + exfalso. apply Hz. rewrite Heq. apply list_elem_of_In, in_map, list_elem_of_In, Hy.
    + exfalso. apply Hz. rewrite <- Heq. apply list_elem_of_In, in_map, list_elem_of_In, Hx.
    + apply IH; assumption.
Qed.

(** X15.  A device that is listed but whose [device_id] is not a string
    cannot be addressed by the index it is listed with: the index is not
    in [index_to_id], and resolving it ends with "Index out of range"
    and status 1. *)
Theorem listed_without_string_id {W : Type} (int_str : string -> result Z)
    (sdk : CueSdk W) (st st' : Proc W) (en : Enumeration) (e : Entry) :
  get_devices_with_indexes sdk st = (Ret en, st') ->
  e ∈ en_result en ->
  string_id e = None ->
  index_to_id en !! e_index e = None
  /\ to_device_id int_str sdk (IInt (e_index e)) st
     = (Exit 1,
        mkProc (world st')
          (stdout st' ++ [err_obj ("Index out of range: " ++ str_of_int (e_index e))])
          (stdin st') (calls st')).
Proof.
  intros Hrun He Hid.
  assert (Habsent : index_to_id en !! e_index e = None).
  { destruct (index_to_id en !! e_index e) as [s | ] eqn:Hs; [exfalso | reflexivity].
    apply (index_to_id_spec sdk st en st' _ s Hrun) in Hs as (e' & He' & Hi & Hs).
    assert (e' = e).
    { apply (same_index_same_entry (en_result en)); [ | assumption ..].
      apply sorted_indices_NoDup. eapply enumeration_sorted. exact Hrun. }
    subst e'. unfold string_id in Hid. rewrite Hs in Hid. discriminate. }
  split; [exact Habsent | ].
  unfold to_device_id, bind at 1. rewrite Hrun, Habsent. apply json_out_prints. reflexivity.
Qed.

Lemma listed_without_string_id_witness :
  exists e,
    e ∈ en_result (first_enumeration nameless)
    /\ e_index e = 1
    /\ (to_device_id int_known (scripted nameless) (IInt 1) (fresh tt "")).1 = Exit 1.
Proof.
  assert (Hrun : get_devices_with_indexes (scripted nameless) (fresh tt "")
                 = (Ret (first_enumeration nameless), after_enumeration nameless))
    by (vm_compute; reflexivity).
  exists (make_entry 1 PNone keyboard_info).
  assert (He : make_entry 1 PNone keyboard_info ∈ en_result (first_enumeration nameless)).
  { change (en_result (first_enumeration nameless))
      with [make_entry 0 (PStr "{kbd}") keyboard_info; make_entry 1 PNone keyboard_info].
    apply elem_of_cons. right. apply elem_of_cons. left. reflexivity. }
  split; [exact He | split; [reflexivity | ]].
  destruct (listed_without_string_id int_known (scripted nameless) (fresh tt "")
              (after_enumeration nameless) (first_enumeration nameless)
              (make_entry 1 PNone keyboard_info) Hrun He eq_refl) as [_ H].
  change (e_index (make_entry 1 PNone keyboard_info)) with 1 in H.
  rewrite H. reflexivity.
Defined.

(** ** Indices that the SDK takes *)

(** X16.  When the SDK has the index-addressed position entry point, a
    numeric identifier given to [list_leds] goes to it as it is: after
    the session, the only call is that query with the integer typed,
    whatever it is; the devices are not enumerated and the index is not
    checked against them. *)
Theorem index_goes_unchecked_to_the_sdk {W : Type} (json_loads : string -> result pyval)
    (int_str : string -> result Z) (sdk : CueSdk W) (fn : Z -> W -> result PosRet * W)
    (dev : string) (i : Z) (rest : list string) (w : W) (input : string) (st1 : Proc W) :
  sdk_get_led_positions_by_device_index sdk = Some fn ->
  int_str dev = inr i ->
  connect_sdk sdk default_timeout (fresh w input) = (Ret tt, st1) ->
  calls (invoke json_loads int_str sdk ("list_leds" :: dev :: rest) w input).2
  = calls st1 ++ [CallPositionsByIndex i (fn i (world st1)).1].
Proof.
  intros Hfn Hint Hconnect. rewrite calls_of_invoke.
  assert (Hident : parse_ident int_str dev = IInt i).
  { unfold parse_ident. rewrite Hint. reflexivity. }
  pose (st2 := mkProc (fn i (world st1)).2 (stdout st1) (stdin st1)
                 (calls st1 ++ [CallPositionsByIndex i (fn i (world st1)).1])).
  assert (Hquery : get_led_positions int_str sdk (IInt i) st1
                   = match (fn i (world st1)).1 with
                     | inl e => (Raise e, st2)
                     | inr res => (Ret (unpack_positions res), st2)
                     end).
  { unfold get_led_positions. rewrite Hfn. unfold bind, call. subst st2.
    destruct (fn i (world st1)) as [[e | res] w2]; reflexivity. }
  assert (Hcmd : calls (dispatch json_loads int_str sdk ("list_leds" :: dev :: rest) "list_leds"
                          (fresh w input)).2 = calls st2).
  { change (dispatch json_loads int_str sdk ("list_leds" :: dev :: rest) "list_leds")
      with (bind (ret dev) (list_leds_cmd int_str sdk)).
    unfold bind at 1. cbn [ret]. unfold list_leds_cmd, bind at 1. rewrite Hconnect.
    unfold bind at 1. rewrite Hident, Hquery.
    destruct (fn i (world st1)).1 as [e | res]; [reflexivity | ].
    destruct (unpack_positions res) as [positions err].
    destruct (failed_status err), positions; apply silent_json_out. }
  unfold main, try_except.
  destruct (dispatch json_loads int_str sdk ("list_leds" :: dev :: rest) "list_leds"
              (fresh w input))
    as [[a | e | code] st] eqn:Hrun; cbn [snd] in *; try exact Hcmd.
Qed.

Lemma index_goes_unchecked_to_the_sdk_witness :
  calls (invoke loads_known int_known (scripted desk_by_index) ["list_leds"; "-7"] tt "").2
  = calls (connected desk_by_index)
    ++ [CallPositionsByIndex (-7) (inr (PosTuple None (CE_Other "CE_InvalidArguments")))].
Proof.
  rewrite (index_goes_unchecked_to_the_sdk loads_known int_known (scripted desk_by_index)
             (fun i w => (inr (s_positions_at desk_by_index i), w)) "-7" (-7) [] tt ""
             (connected desk_by_index)); vm_compute; reflexivity.
Defined.

(** ** An SDK without a buffered write *)

(** X17.  When the SDK has none of the three buffered-write entry
    points, [set_colors_buffer] still resolves the identifier and then
    reaches line 140, where reading [CorsairError.CE_Unknown] raises:
    the class has no member of that name.  No write is made; [set_leds]
    with a payload that has no entry then prints the error object of
    that exception and exits with 1. *)
Theorem no_write_entry_point {W : Type} (int_str : string -> result Z) (sdk : CueSdk W)
    (ident : Ident) (st st' : Proc W) (dev_id : string) :
  sdk_set_led_colors_buffer_by_device_index sdk = None ->
  sdk_set_led_colors_buffer_by_device_id sdk = None ->
  sdk_set_led_colors_buffer sdk = None ->
  to_device_id int_str sdk ident st = (Ret dev_id, st') ->
  (forall colors,
     set_colors_buffer int_str sdk ident colors st = (Raise no_CE_Unknown, st'))
  /\ (forall json_loads dev text rest payload w input,
        json_loads text = inr payload ->
        py_iter payload = inr [] ->
        parse_ident int_str dev = ident ->
        connect_sdk sdk default_timeout (fresh w input) = (Ret tt, st) ->
        let obj := err_obj "type object 'CorsairError' has no attribute 'CE_Unknown'" in
        invoke json_loads int_str sdk ("set_leds" :: dev :: text :: rest) w input
        = ([obj], 1, mkProc (world st') [obj] (stdin st') (calls st'))).
Proof.
  intros H1 H2 H3 Hid.
  assert (Hwrite : forall colors,
            set_colors_buffer int_str sdk ident colors st = (Raise no_CE_Unknown, st')).
  { intros colors. unfold set_colors_buffer. rewrite H1, H2, H3. cbv zeta.
    destruct ident; unfold bind; rewrite Hid; reflexivity. }
  split; [exact Hwrite | ].
  intros json_loads dev text rest payload w input Hloads Hiter Hident Hconnect obj.
  assert (Hout : stdout st' = []).
  { rewrite (returns_silently _ _ _ _ (obeys_to_device_id int_str sdk "" ident) Hid).
    apply (returns_silently _ _ _ _ (obeys_connect_sdk sdk "" default_timeout) Hconnect). }
  assert (Hcolors : payload_colors int_str payload = inr []).
  { unfold payload_colors, rbind. rewrite Hiter. reflexivity. }
  assert (Hmain : main json_loads int_str sdk ("set_leds" :: dev :: text :: rest)
                    (fresh w input)
                  = (Exit 1, mkProc (world st') [obj] (stdin st') (calls st'))).
  { rewrite (main_set_leds _ _ _ _ _ _ _ Hloads).
    rewrite (try_except_raise _ _ _ no_CE_Unknown st').
    - unfold top_handler. rewrite json_out_prints by reflexivity. rewrite Hout. reflexivity.
    - unfold set_leds_cmd, bind at 1. rewrite Hconnect. unfold bind at 1. rewrite Hcolors.
      cbn [lift ret]. unfold bind at 1. rewrite Hident, Hwrite. reflexivity. }
  rewrite (invoke_exit _ _ _ _ _ _ _ _ Hmain). reflexivity.
Qed.

Lemma no_write_entry_point_witness :
  (invoke loads_known int_known read_only ["set_leds"; "2"; "[]"] tt "").1
  = ([err_obj "type object 'CorsairError' has no attribute 'CE_Unknown'"], 1).
Proof.
  pose (st := (connect_sdk read_only default_timeout (fresh tt "")).2).
  pose (st' := (to_device_id int_known read_only (IInt 2) st).2).
  assert (Hid : to_device_id int_known read_only (IInt 2) st = (Ret "{fan}", st'))
    by (vm_compute; reflexivity).
  destruct (no_write_entry_point int_known read_only (IInt 2) st st' "{fan}"
              eq_refl eq_refl eq_refl Hid) as [_ H].
  rewrite (H loads_known "2" "[]" [] (PList []) tt ""); vm_compute; reflexivity.
Defined.

(** ** The payload of [set_leds] *)

(** X18.  The payloads from which [set_leds] builds its colours are the
    empty array, the empty object and the empty string, which give no
    assignment at all.  Every other payload raises: one that cannot be
    iterated, and one that has an entry, since the conversion of an
    entry always ends with an exception (line 200). *)
Theorem accepted_payloads (int_str : string -> result Z) (payload : pyval)
    (colors : list CorsairLedColor) :
  payload_colors int_str payload = inr colors <->
  colors = [] /\ (payload = PList [] \/ payload = PDict [] \/ payload = PStr "").
Proof.
  rewrite payload_colors_returns. split.
  - intros [Hiter ->]. split; [reflexivity | ].
    destruct payload as [| b | n | f | s | items | kvs | t]; try discriminate.
    + destruct s as [| c s]; [auto | discriminate].
    + injection Hiter as ->. auto.
    + destruct kvs as [| kv kvs]; [auto | discriminate].
  - intros [-> [-> | [-> | ->]]]; split; reflexivity.
Qed.

(** X19.  The conversion of a payload that has entries ends at the
    first one: the exception reported is the one of that entry,
    whatever follows it.  Within the entry the fields are converted in
    the order [led_id], [r], [g], [b]: the first of them that is missing
    or that [int] refuses gives the exception; when all four are
    integers, the exception is the [TypeError] of the call of
    [CorsairLedColor]. *)
Theorem first_entry_decides (int_str : string -> result Z) (first : pyval)
    (rest : list pyval) :
  exists e,
    payload_colors int_str (PList (first :: rest)) = inl e
    /\ (forall e', int_field int_str first "led_id" = inl e' -> e = e')
    /\ (forall lid e',
          int_field int_str first "led_id" = inr lid ->
          int_field int_str first "r" = inl e' -> e = e')
    /\ (forall lid r e',
          int_field int_str first "led_id" = inr lid ->
          int_field int_str first "r" = inr r ->
          int_field int_str first "g" = inl e' -> e = e')
    /\ (forall lid r g e',
          int_field int_str first "led_id" = inr lid ->
          int_field int_str first "r" = inr r ->
          int_field int_str first "g" = inr g ->
          int_field int_str first "b" = inl e' -> e = e')
    /\ (forall lid r g b,
          int_field int_str first "led_id" = inr lid ->
          int_field int_str first "r" = inr r ->
          int_field int_str first "g" = inr g ->
          int_field int_str first "b" = inr b -> e = missing_alpha).
Proof.
  destruct (item_color_raises int_str first) as [e He]. exists e.
  split; [ | split; [ | split; [ | split; [ | split]]]].
  - unfold payload_colors, rbind, py_iter. cbn [items_colors]. unfold rbind. rewrite He.
    reflexivity.
  - intros e' H. unfold item_color, rbind in He. rewrite H in He. congruence.
  - intros lid e' Hl H. unfold item_color, rbind in He. rewrite Hl, H in He. congruence.
  - intros lid r e' Hl Hr H. unfold item_color, rbind in He. rewrite Hl, Hr, H in He.
    congruence.
  - intros lid r g e' Hl Hr Hg H. unfold item_color, rbind in He.
    rewrite Hl, Hr, Hg, H in He. congruence.
  - intros lid r g b Hl Hr Hg Hb. unfold item_color, rbind in He.
    rewrite Hl, Hr, Hg, Hb in He. unfold new_color in He. congruence.
Qed.

(** ** The colours of [set_color] *)

Lemma uniform_colors_first int_str r g b blind lp rest :
  Forall (fun lp => lp_led_id lp = PNone) blind ->
  lp_led_id lp <> PNone ->
  uniform_colors int_str r g b (blind ++ lp :: rest)
  = match py_int int_str (lp_led_id lp) with
    | inl e => inl e
    | inr _ => inl missing_alpha
    end.
Proof.
  intros Hblind Hid. induction Hblind as [| x blind Hx _ IH].
  - cbn [app]. rewrite uniform_colors_cons.
    destruct (lp_led_id lp); try contradiction;
      destruct (py_int int_str _); reflexivity.
  - cbn [app]. rewrite uniform_colors_cons, Hx. exact IH.
Qed.

(** X20.  From the LED positions of a device, [set_color] makes no
    assignment.  Positions without an id are passed over, so that
    positions none of which has an id give the empty list; the first
    position that has an id ends the loop with an exception: that of
    [int] when it refuses the id, the [TypeError] of the call of
    [CorsairLedColor] otherwise. *)
Theorem uniform_colors_spec (int_str : string -> result Z) (r g b : Z)
    (lps : list LedPosition) :
  (forall colors,
     uniform_colors int_str r g b lps = inr colors <->
     colors = [] /\ Forall (fun lp => lp_led_id lp = PNone) lps)
  /\ (forall blind lp rest,
        lps = blind ++ lp :: rest ->
        Forall (fun lp => lp_led_id lp = PNone) blind ->
        lp_led_id lp <> PNone ->
        uniform_colors int_str r g b lps
        = match py_int int_str (lp_led_id lp) with
          | inl e => inl e
          | inr _ => inl missing_alpha
          end).
Proof.
  split.
  - intros colors. apply uniform_colors_returns.
  - intros blind lp rest -> Hblind Hid. apply uniform_colors_first; assumption.
Qed.

(** X25.  [set_color] on a device whose positions hold an LED with an
    integer id stops there: once the session is established and the
    position query has returned Success with positions whose first LED
    that has an id has one that [int] accepts, the call of
    [CorsairLedColor] at line 185 raises, the handler of line 229 prints
    the message of that [TypeError] and the exit status is 1; the
    position query is the last call made. *)
Theorem set_color_stops_at_the_first_led {W : Type} (json_loads : string -> result pyval)
    (int_str : string -> result Z) (sdk : CueSdk W) (a1 a2 a3 : string) (c : ascii)
    (s : string) (r g b : Z) (w : W) (input : string) (st1 st2 : Proc W)
    (positions : Positions) (status : Status) (blind : list LedPosition)
    (lp : LedPosition) (rest : list LedPosition) (n : Z) :
  int_str a1 = inr r -> int_str a2 = inr g -> int_str a3 = inr b ->
  connect_sdk sdk default_timeout (fresh w input) = (Ret tt, st1) ->
  get_led_positions int_str sdk (parse_ident int_str (String c s)) st1
  = (Ret (Some positions, status), st2) ->
  failed_status status = false ->
  leds_of positions = blind ++ lp :: rest ->
  Forall (fun lp => lp_led_id lp = PNone) blind ->
  py_int int_str (lp_led_id lp) = inr n ->
  invoke json_loads int_str sdk ["set_color"; a1; a2; a3; String c s] w input
  = ([err_obj (exn_str missing_alpha)], 1,
     mkProc (world st2) [err_obj (exn_str missing_alpha)] (stdin st2) (calls st2)).
Proof.
  intros H1 H2 H3 Hconnect Hquery Hok Hleds Hblind Hn.
  assert (Hid : lp_led_id lp <> PNone).
  { intros Hnone. rewrite Hnone in Hn. discriminate. }
  apply handler_reports.
  unfold dispatch.
  cbn [String.eqb Ascii.eqb Bool.eqb andb orb length Nat.leb Nat.eqb argv_get nth_error].
  cbn [bind lift ret py_int]. rewrite H1. cbn [bind lift ret py_int]. rewrite H2.
  cbn [bind lift ret py_int]. rewrite H3. cbn [bind lift ret py_int].
  unfold set_color_cmd, bind at 1. rewrite Hconnect.
  unfold bind at 1. cbn [ret]. unfold bind at 1. cbn [color_targets].
  unfold bind at 1. unfold color_target, bind at 1. rewrite Hquery, Hok.
  unfold bind at 1. rewrite Hleds, (uniform_colors_first _ _ _ _ _ _ _ Hblind Hid), Hn.
  reflexivity.
Qed.

Lemma set_color_stops_at_the_first_led_witness :
  (invoke loads_known int_known (scripted desk) ["set_color"; "255"; "0"; "0"; "2"] tt "").1
  = ([err_obj "CorsairLedColor.__init__() missing 1 required positional argument: 'a'"], 1).
Proof.
  pose (st2 := (get_led_positions int_known (scripted desk) (IInt 2) (connected desk)).2).
  assert (Hconnect : connect_sdk (scripted desk) default_timeout (fresh tt "")
                     = (Ret tt, connected desk)) by (vm_compute; reflexivity).
  assert (Hquery : get_led_positions int_known (scripted desk) (parse_ident int_known "2")
                     (connected desk)
                   = (Ret (Some {| led_positions := Some [led 1; led 2] |},
                           Returned CE_Success), st2)) by (vm_compute; reflexivity).
  rewrite (set_color_stops_at_the_first_led loads_known int_known (scripted desk)
             "255" "0" "0" "2"%char "" 255 0 0 tt "" (connected desk) st2
             {| led_positions := Some [led 1; led 2] |} (Returned CE_Success)
             [] (led 1) [led 2] 1 eq_refl eq_refl eq_refl Hconnect Hquery eq_refl eq_refl
             (List.Forall_nil _) eq_refl).
  reflexivity.
Defined.

(** ** Exceptions of the SDK *)

Section Relays.

Context {W : Type}.

Lemma relays_silent {A} (m : M W A) : silent_to_sdk m -> relays m.
Proof.
  intros Hm st. exists []. rewrite Hm, app_nil_r. split; [reflexivity | ].
  intros c e H. discriminate.
Qed.

Lemma relays_call {A} (f : W -> result A * W) (ev : result A -> SdkCall) :
  (forall r e, raised (ev r) = Some e -> r = inl e) -> relays (call f ev).
Proof.
  intros Hev st. unfold call. destruct (f (world st)) as [r w'].
  exists [ev r]. split; [destruct r; reflexivity | ].
  intros c e [= <-] Hc. apply Hev in Hc. subst r. reflexivity.
Qed.

Lemma relays_bind {A B} (m : M W A) (f : A -> M W B) :
  relays m -> (forall a, relays (f a)) -> relays (bind m f).
Proof.
  intros Hm Hf st. destruct (Hm st) as (new1 & Hc1 & Hr1). unfold bind.
  destruct (m st) as [[a | e | code] st1]; cbn [fst snd] in *;
    [ | exists new1; split;
        [exact Hc1
        | intros c0 e0 Hl Hc0; specialize (Hr1 c0 e0 Hl Hc0); congruence] ..].
  destruct (Hf a st1) as (new2 & Hc2 & Hr2). exists (new1 ++ new2).
  split; [rewrite Hc2, Hc1, app_assoc; reflexivity | ].
  intros c e' Hlast Hc. rewrite last_app in Hlast.
  destruct (last new2) as [c2 | ] eqn:Hl2.
  - injection Hlast as ->. apply (Hr2 c e'); [reflexivity | exact Hc].
  - specialize (Hr1 c e' Hlast Hc). discriminate.
Qed.

Lemma relays_try {A} (m : M W A) catches h :
  relays m -> (forall e, relays (h e)) -> (forall e, calls_first (h e)) ->
  relays (try_except m catches h).
Proof.
  intros Hm Hh Hfirst st. destruct (Hm st) as (new1 & Hc1 & Hr1). unfold try_except.
  destruct (m st) as [[a | e | code] st1]; cbn [fst snd] in *;
    [exists new1; split; [exact Hc1 | exact Hr1] | | exists new1; split; [exact Hc1 | exact Hr1]].
  destruct (catches e); [ | exists new1; split; [exact Hc1 | exact Hr1]].
  destruct (Hh e st1) as (new2 & Hc2 & Hr2). destruct (Hfirst e st1) as (c0 & more & Hc0).
  exists (new1 ++ new2). split; [rewrite Hc2, Hc1, app_assoc; reflexivity | ].
  intros c e' Hlast Hc. rewrite last_app in Hlast.
  destruct (last new2) as [c2 | ] eqn:Hl2.
  - injection Hlast as ->. apply (Hr2 c e'); [reflexivity | exact Hc].
  - apply last_None in Hl2. subst new2. rewrite app_nil_r in Hc2. rewrite Hc2 in Hc0.
    apply (f_equal length) in Hc0. rewrite length_app in Hc0. simpl in Hc0. lia.
Qed.

Lemma relays_when b (body : M W unit) : relays body -> relays (when b body).
Proof.
  intros Hb. destruct b; [exact Hb | ]. apply relays_silent. intros st. reflexivity.
Qed.

Lemma calls_first_call {A} (f : W -> result A * W) (ev : result A -> SdkCall) :
  calls_first (call f ev).
Proof.
  intros st. unfold call. destruct (f (world st)) as [r w'].
  exists (ev r), []. destruct r; reflexivity.
Qed.

Lemma calls_first_bind {A B} (m : M W A) (f : A -> M W B) :
  calls_first m -> (forall a, emits (fun _ => True) (f a)) -> calls_first (bind m f).
Proof.
  intros Hm Hf st. destruct (Hm st) as (c & more & Hc). unfold bind.
  destruct (m st) as [[a | e | code] st1]; cbn [snd] in *;
    [ | exists c, more; exact Hc ..].
  destruct (Hf a st1) as (new & Hnew & _). exists c, (more ++ new).
  rewrite Hnew, Hc, <- app_assoc. reflexivity.
Qed.

End Relays.

Create HintDb relays.

#[export] Hint Resolve silent_json_out silent_lift silent_ret silent_raise : relays.

Ltac relay_step :=
  lazymatch goal with
  | |- relays (bind _ _) => apply relays_bind; [ | intros ? ]
  | |- relays (when _ _) => apply relays_when
  | |- relays (call _ _) =>
      apply relays_call; intros [? | ?] ?; simpl; congruence
  | |- relays _ => solve [apply relays_silent; auto with relays | auto with relays]
  end.

Ltac relay := repeat relay_step.

Section RelaysOfTheAdapter.

Context {W : Type}.
Variable json_loads : string -> result pyval.
Variable int_str : string -> result Z.
Variable sdk : CueSdk W.

Lemma relays_wait t : relays (wait sdk t).
Proof.
  intros st. unfold wait. destruct (ready_wait sdk t (world st)) as [connected w'].
  exists [CallWait t connected]. split; [reflexivity | ].
  intros c e [= <-] Hc. discriminate.
Qed.

Lemma relays_connect_sdk t : relays (connect_sdk sdk t).
Proof. unfold connect_sdk. relay. apply relays_wait. Qed.

Lemma relays_enumerate_from devices : forall idx acc,
  relays (enumerate_from sdk idx devices acc).
Proof.
  induction devices as [| d rest IH]; intros idx acc; simpl; relay.
  destruct a as [info ierr]. destruct (failed ierr), info; apply IH.
Qed.

Lemma relays_get_devices_with_indexes : relays (get_devices_with_indexes sdk).
Proof.
  unfold get_devices_with_indexes. relay. destruct a as [devices err]. relay.
  apply relays_enumerate_from.
Qed.

Local Hint Resolve relays_connect_sdk relays_get_devices_with_indexes : relays.

Lemma relays_to_device_id ident : relays (to_device_id int_str sdk ident).
Proof.
  unfold to_device_id. relay. destruct ident as [i | s].
  - destruct (index_to_id a !! i); relay.
  - destruct (is_int_str int_str s).
    + relay. destruct (index_to_id a !! a0); relay.
    + destruct (id_to_index a !! s); relay.
Qed.

Lemma calls_first_to_device_id ident : calls_first (to_device_id int_str sdk ident).
Proof.
  unfold to_device_id, get_devices_with_indexes.
  apply calls_first_bind.
  - apply calls_first_bind; [apply calls_first_call | ].
    intros [devices err]. grow. apply emits_weaken with (P := fun c => kind_of c = KEnumeration);
      [auto | apply emits_enumerate_from].
  - intros en. destruct ident as [i | s].
    + destruct (index_to_id en !! i); grow.
    + destruct (is_int_str int_str s).
      * apply emits_bind_lift. intros idx _. destruct (index_to_id en !! idx); grow.
      * destruct (id_to_index en !! s); grow.
Qed.

Local Hint Resolve relays_to_device_id : relays.

Lemma relays_first_position_api dev_id names :
  relays (W:=W) (first_position_api dev_id names).
Proof. induction names as [| [api [fn |]] rest IH]; simpl; relay. Qed.

Lemma relays_first_buffer_api dev_id colors names :
  relays (W:=W) (first_buffer_api dev_id colors names).
Proof.
  induction names as [| [api [fn |]] rest IH]; simpl; relay.
  apply relays_try; [relay | intros e; relay | intros e; apply calls_first_call].
Qed.

Lemma emits_first_buffer_api_grows dev_id colors names :
  emits (W:=W) (fun _ => True) (first_buffer_api dev_id colors names).
Proof. eapply emits_weaken; [ | apply emits_first_buffer_api]. auto. Qed.

Local Hint Resolve relays_first_position_api relays_first_buffer_api : relays.

Lemma relays_get_led_positions ident : relays (get_led_positions int_str sdk ident).
Proof.
  unfold get_led_positions. cbv zeta. destruct ident as [i | s]; [ | relay].
  destruct (sdk_get_led_positions_by_device_index sdk); relay.
Qed.

Lemma relays_set_colors_buffer ident colors : relays (set_colors_buffer int_str sdk ident colors).
Proof.
  unfold set_colors_buffer. cbv zeta. destruct ident as [i | s]; [ | relay].
  destruct (sdk_set_led_colors_buffer_by_device_index sdk); [ | relay].
  apply relays_try; [relay | intros e; relay | intros e].
  apply calls_first_bind; [apply calls_first_to_device_id | ].
  intros dev_id. apply emits_first_buffer_api_grows.
Qed.

Lemma relays_flush_colors : relays (flush_colors sdk).
Proof. unfold flush_colors. destruct (sdk_set_led_colors_flush_buffer sdk); relay. Qed.

Local Hint Resolve relays_get_led_positions relays_set_colors_buffer relays_flush_colors
  : relays.

Lemma relays_color_target r g b ident : relays (color_target int_str sdk r g b ident).
Proof.
  unfold color_target. relay. destruct a as [positions perr].
  destruct (failed_status perr), positions; relay.
  destruct a as [| c colors]; relay. destruct (failed a); relay.
Qed.

Lemma relays_color_targets r g b targets : relays (color_targets int_str sdk r g b targets).
Proof.
  induction targets as [| ident rest IH]; simpl; relay. apply relays_color_target.
Qed.

Local Hint Resolve relays_color_targets : relays.

Lemma relays_dispatch argv cmd : relays (dispatch json_loads int_str sdk argv cmd).
Proof.
  unfold dispatch, list_devices_cmd, list_leds_cmd, set_color_cmd, set_leds_cmd.
  destruct (String.eqb cmd "list_devices"); [relay | ].
  destruct (String.eqb cmd "list_leds" && (2 <=? length argv)%nat)%bool.
  { relay. destruct a1 as [positions err]. destruct (failed_status err), positions; relay. }
  destruct (String.eqb cmd "set_color"
            && ((length argv =? 4)%nat || (length argv =? 5)%nat))%bool.
  { relay.
    - destruct (length argv =? 5)%nat; relay.
    - destruct a5 as [[| c s] | ]; relay. }
  destruct (String.eqb cmd "set_leds" && (3 <=? length argv)%nat)%bool; [ | relay].
  relay. destruct (3 <=? length argv)%nat; relay.
  apply relays_silent. intros st. reflexivity.
Qed.

End RelaysOfTheAdapter.

(** X21.  An exception raised by an SDK call that is not retried ends
    the invocation: when the last call of an invocation raised, the
    document printed is the error object with the message of that
    exception, and the exit status is 1. *)
Theorem sdk_exception_is_reported {W : Type} (json_loads : string -> result pyval)
    (int_str : string -> result Z) (sdk : CueSdk W) (argv : list string) (w : W)
    (input : string) (pre : list SdkCall)
    (c : SdkCall) (e : exn) :
  calls (invoke json_loads int_str sdk argv w input).2 = pre ++ [c] ->
  raised c = Some e ->
  (invoke json_loads int_str sdk argv w input).1 = ([err_obj (exn_str e)], 1).
Proof.
  intros Hlog Hc. destruct argv as [| cmd rest].
  - exfalso. apply (f_equal length) in Hlog. rewrite length_app in Hlog.
    simpl in Hlog. lia.
  - destruct (relays_dispatch json_loads int_str sdk (cmd :: rest) cmd (fresh w input))
      as (new & Hnew & Hraise).
    rewrite calls_of_invoke in Hlog. unfold main, try_except in Hlog.
    destruct (dispatch json_loads int_str sdk (cmd :: rest) cmd (fresh w input))
      as [[a | e' | code] st] eqn:Hrun; cbn [fst snd] in *.
    + rewrite Hnew in Hlog. simpl in Hlog. subst new.
      specialize (Hraise c e (last_snoc _ _) Hc). discriminate.
    + rewrite (handler_reports _ _ _ _ _ _ _ _ _ Hrun). cbn [fst].
      rewrite silent_json_out in Hlog. rewrite Hnew in Hlog. simpl in Hlog. subst new.
      specialize (Hraise c e (last_snoc _ _) Hc). congruence.
    + rewrite Hnew in Hlog. simpl in Hlog. subst new.
      specialize (Hraise c e (last_snoc _ _) Hc). discriminate.
Qed.

Lemma sdk_exception_is_reported_witness :
  (invoke loads_known int_known broken_positions ["list_leds"; "2"] tt "").1
  = ([err_obj "library not loaded"], 1).
Proof.
  apply (sdk_exception_is_reported loads_known int_known broken_positions ["list_leds"; "2"] tt ""
           (calls (after_enumeration_at desk (connected desk)))
           (CallPositions Generic "{fan}" (inl (mk_exn OtherError "library not loaded")))
           (mk_exn OtherError "library not loaded")).
  - vm_compute. reflexivity.
  - reflexivity.
Defined.

(** ** Writes and their flush *)

Lemma writes_are_flushed_app (l k : list SdkCall) :
  writes_are_flushed l = true -> writes_are_flushed k = true ->
  writes_are_flushed (l ++ k) = true.
Proof.
  intros Hl Hk. induction l as [| c l IH]; [exact Hk | ].
  cbn [writes_are_flushed app] in *. apply andb_true_iff in Hl as [Hc Hl].
  rewrite (IH Hl), andb_true_r.
  destruct (wrote_ok c); [ | reflexivity].
  destruct l as [| [] l]; try discriminate Hc. reflexivity.
Qed.

Lemma writes_are_flushed_quiet (k : list SdkCall) :
  Forall (fun c => wrote_ok c = false) k -> writes_are_flushed k = true.
Proof.
  induction 1 as [| c k Hc _ IH]; [reflexivity | ].
  cbn [writes_are_flushed]. rewrite Hc, IH. reflexivity.
Qed.

Lemma writes_are_flushed_spec (pre : list SdkCall) : forall c post,
  writes_are_flushed (pre ++ c :: post) = true ->
  wrote_ok c = true ->
  exists r post', post = CallFlush r :: post'.
Proof.
  induction pre as [| x pre IH]; intros c post H Hc.
  - cbn [app writes_are_flushed] in H. rewrite Hc in H.
    destruct post as [| [] post']; try discriminate H. eauto.
  - cbn [app writes_are_flushed] in H. apply andb_true_iff in H as [_ H]. eauto.
Qed.

Section Settles.

Context {W : Type}.
Variable json_loads : string -> result pyval.
Variable int_str : string -> result Z.
Variable sdk : CueSdk W.
Variable flush : W -> result CorsairError * W.
Hypothesis has_flush : sdk_set_led_colors_flush_buffer sdk = Some flush.

Lemma settles_emits {A} (m : M W A) :
  emits (fun c => kind_of c <> KWrite) m -> settles m.
Proof.
  intros Hm st Hst. destruct (Hm st) as (new & Hc & Hp). rewrite Hc.
  apply writes_are_flushed_app; [exact Hst | ].
  apply writes_are_flushed_quiet. eapply Forall_impl; [exact Hp | ].
  intros c Hk. destruct c; try reflexivity; simpl in Hk; congruence.
Qed.

Lemma settles_bind {A B} (m : M W A) (f : A -> M W B) :
  settles m -> (forall a, settles (f a)) -> settles (bind m f).
Proof.
  intros Hm Hf st Hst. specialize (Hm st Hst). unfold bind.
  destruct (m st) as [[a | e | c] st1]; simpl in *; [ | exact Hm ..].
  apply Hf. exact Hm.
Qed.

Lemma settles_try {A} (m : M W A) catches h :
  settles m -> (forall e, settles (h e)) -> settles (try_except m catches h).
Proof.
  intros Hm Hh st Hst. specialize (Hm st Hst). unfold try_except.
  destruct (m st) as [[a | e | c] st1]; simpl in *; [exact Hm | | exact Hm].
  destruct (catches e); [ | exact Hm]. apply Hh. exact Hm.
Qed.

Lemma settles_silent {A} (m : M W A) : silent_to_sdk m -> settles m.
Proof. intros Hm st Hst. rewrite Hm. exact Hst. Qed.

Lemma writes_last_first_buffer_api dev_id colors names :
  writes_last (W:=W) (first_buffer_api dev_id colors names).
Proof.
  induction names as [| [api [fn | ]] rest IH]; intros st; cbn [first_buffer_api].
  - exists []. split; [constructor | left]. rewrite app_nil_r. reflexivity.
  - unfold try_except, call.
    destruct (fn (WithTarget dev_id colors) (world st)) as [[e | err] w1]; cbn [lift raise ret].
    + destruct (is_TypeError e); cbn [world stdout stdin calls].
      * destruct (fn (ColorsOnly colors) w1) as [[e2 | err2] w2]; cbn [lift raise ret fst snd calls].
        -- exists [CallBuffer api (WithTarget dev_id colors) (inl e);
                   CallBuffer api (ColorsOnly colors) (inl e2)].
           split; [repeat constructor | left]. rewrite <- app_assoc. reflexivity.
        -- destruct (decide (err2 = CE_Success)) as [-> | Hne].
           ++ exists [CallBuffer api (WithTarget dev_id colors) (inl e)].
              split; [repeat constructor | right].
              exists (CallBuffer api (ColorsOnly colors) (inr CE_Success)).
              split; [reflexivity | split; [ | reflexivity]].
              rewrite <- app_assoc. reflexivity.
           ++ exists [CallBuffer api (WithTarget dev_id colors) (inl e);
                      CallBuffer api (ColorsOnly colors) (inr err2)].
              split; [ | left; rewrite <- app_assoc; reflexivity].
              constructor; [reflexivity | constructor; [ | constructor]].
              destruct err2; [contradiction | reflexivity ..].
      * exists [CallBuffer api (WithTarget dev_id colors) (inl e)].
        split; [repeat constructor | left; reflexivity].
    + cbn [fst snd calls]. destruct (decide (err = CE_Success)) as [-> | Hne].
      * exists []. split; [constructor | right].
        exists (CallBuffer api (WithTarget dev_id colors) (inr CE_Success)).
        split; [reflexivity | split; reflexivity].
      * exists [CallBuffer api (WithTarget dev_id colors) (inr err)].
        split; [ | left; reflexivity].
        constructor; [ | constructor]. destruct err; [contradiction | reflexivity ..].
  - apply IH.
Qed.

Lemma writes_last_by_id ident colors :
  writes_last
    (bind (to_device_id int_str sdk ident) (fun dev_id =>
       first_buffer_api dev_id colors
         [(ByDeviceId, sdk_set_led_colors_buffer_by_device_id sdk);
          (Generic, sdk_set_led_colors_buffer sdk)])).
Proof.
  intros st. destruct (emits_to_device_id int_str sdk ident st) as (new & Hc & Hp).
  assert (Hquiet : Forall (fun c => wrote_ok c = false) new).
  { eapply Forall_impl; [exact Hp | ]. intros c Hk.
    destruct c; try reflexivity; discriminate Hk. }
  unfold bind. destruct (to_device_id int_str sdk ident st) as [[dev_id | e | code] st1];
    cbn [fst snd] in *; [ | exists new; split; [exact Hquiet | left; exact Hc] ..].
  destruct (writes_last_first_buffer_api dev_id colors
              [(ByDeviceId, sdk_set_led_colors_buffer_by_device_id sdk);
               (Generic, sdk_set_led_colors_buffer sdk)] st1)
    as (quiet & Hq & [Hlog | (c & Hok & Hlog & Hret)]).
  - exists (new ++ quiet). split; [apply Forall_app; auto | left].
    rewrite Hlog, Hc, app_assoc. reflexivity.
  - exists (new ++ quiet). split; [apply Forall_app; auto | right].
    exists c. split; [exact Hok | split; [ | exact Hret]].
    rewrite Hlog, Hc, <- !app_assoc. reflexivity.
Qed.

Lemma writes_last_set_colors_buffer ident colors :
  writes_last (set_colors_buffer int_str sdk ident colors).
Proof.
  unfold set_colors_buffer. cbv zeta.
  destruct ident as [i | s]; [ | apply writes_last_by_id].
  destruct (sdk_set_led_colors_buffer_by_device_index sdk) as [fn | ];
    [ | apply writes_last_by_id].
  intros st. unfold try_except, call.
  destruct (fn i colors (world st)) as [[e | err] w1]; cbn [lift raise ret].
  - destruct (is_TypeError e).
    + destruct (writes_last_by_id (IInt i) colors
                  (mkProc w1 (stdout st) (stdin st)
                     (calls st ++ [CallBufferByIndex i colors (inl e)])))
        as (quiet & Hq & [Hlog | (c & Hok & Hlog & Hret)]); cbn [calls] in Hlog.
      * exists (CallBufferByIndex i colors (inl e) :: quiet).
        split; [constructor; [reflexivity | exact Hq] | left].
        rewrite Hlog, <- app_assoc. reflexivity.
      * exists (CallBufferByIndex i colors (inl e) :: quiet).
        split; [constructor; [reflexivity | exact Hq] | right].
        exists c. split; [exact Hok | split; [ | exact Hret]].
        rewrite Hlog, <- app_assoc. reflexivity.
    + exists [CallBufferByIndex i colors (inl e)].
      split; [repeat constructor | left; reflexivity].
  - cbn [fst snd calls]. destruct (decide (err = CE_Success)) as [-> | Hne].
    + exists []. split; [constructor | right].
      exists (CallBufferByIndex i colors (inr CE_Success)).
      split; [reflexivity | split; reflexivity].
    + exists [CallBufferByIndex i colors (inr err)].
      split; [ | left; reflexivity].
      constructor; [ | constructor]. destruct err; [contradiction | reflexivity ..].
Qed.

(** After the write, the log is settled when the write failed, and
    settled again after the flush when it answered Success. *)
Lemma write_then_flush ident colors st :
  writes_are_flushed (calls st) = true ->
  match set_colors_buffer int_str sdk ident colors st with
  | (Ret err, st2) =>
      if failed err then writes_are_flushed (calls st2) = true
      else writes_are_flushed (calls (flush_colors sdk st2).2) = true
  | (_, st2) => writes_are_flushed (calls st2) = true
  end.
Proof.
  intros Hst.
  destruct (writes_last_set_colors_buffer ident colors st)
    as (quiet & Hq & [Hlog | (c & Hok & Hlog & Hret)]).
  - assert (H2 : writes_are_flushed (calls (set_colors_buffer int_str sdk ident colors st).2)
                 = true).
    { rewrite Hlog. apply writes_are_flushed_app; [exact Hst | ].
      apply writes_are_flushed_quiet. exact Hq. }
    destruct (set_colors_buffer int_str sdk ident colors st) as [[err | e | code] st2];
      cbn [snd] in H2; try exact H2.
    destruct (failed err); [exact H2 | ].
    unfold flush_colors. rewrite has_flush. unfold bind, call.
    destruct (flush (world st2)) as [[e | ferr] w3]; simpl;
      (apply writes_are_flushed_app; [exact H2 | reflexivity]).
  - destruct (set_colors_buffer int_str sdk ident colors st) as [[err | e | code] st2];
      cbn [fst snd] in *; try discriminate Hret.
    injection Hret as ->. change (failed CE_Success) with false. cbv iota.
    unfold flush_colors. rewrite has_flush. unfold bind, call.
    destruct (flush (world st2)) as [[e | ferr] w3]; simpl; rewrite Hlog, <- !app_assoc;
      (apply writes_are_flushed_app; [exact Hst | ]);
      (apply writes_are_flushed_app; [apply writes_are_flushed_quiet; exact Hq | ]);
      cbn [app writes_are_flushed]; rewrite Hok; reflexivity.
Qed.

Lemma settles_get_led_positions ident : settles (get_led_positions int_str sdk ident).
Proof.
  apply settles_emits. eapply emits_weaken; [ | apply emits_get_led_positions].
  simpl. intros c [-> | ->]; discriminate.
Qed.

Lemma settles_connect_sdk t : settles (connect_sdk sdk t).
Proof.
  apply settles_emits. eapply emits_weaken; [ | apply emits_connect_sdk].
  simpl. intros c ->. discriminate.
Qed.

Lemma settles_get_devices_with_indexes : settles (get_devices_with_indexes sdk).
Proof.
  apply settles_emits. eapply emits_weaken; [ | apply emits_get_devices_with_indexes].
  simpl. intros c ->. discriminate.
Qed.

Lemma settles_color_target r g b ident : settles (color_target int_str sdk r g b ident).
Proof.
  intros st Hst. unfold color_target, bind at 1.
  pose proof (settles_get_led_positions ident st Hst) as H1.
  destruct (get_led_positions int_str sdk ident st) as [[[positions perr] | e | c] st1];
    simpl in H1 |- *; [ | exact H1 ..].
  destruct (failed_status perr); [exact H1 | ].
  destruct positions as [positions | ]; [ | exact H1].
  unfold bind at 1. destruct (uniform_colors int_str r g b (leds_of positions)) as [e | colors];
    [exact H1 | ].
  cbn [lift ret]. destruct colors as [| c colors]; [exact H1 | ].
  unfold bind at 1.
  pose proof (write_then_flush ident (c :: colors) st1 H1) as H2.
  destruct (set_colors_buffer int_str sdk ident (c :: colors) st1) as [[err | e | x] st2];
    cbn [fst snd]; [ | exact H2 ..].
  destruct (failed err); [exact H2 | ].
  unfold bind. destruct (flush_colors sdk st2) as [[ferr | e | x] st3]; exact H2.
Qed.

Lemma settles_color_targets r g b targets : settles (color_targets int_str sdk r g b targets).
Proof.
  induction targets as [| ident rest IH]; simpl.
  - apply settles_silent, silent_ret.
  - apply settles_bind; [apply settles_color_target | intros _; exact IH].
Qed.

Lemma settles_set_color_cmd r g b dev : settles (set_color_cmd int_str sdk r g b dev).
Proof.
  unfold set_color_cmd. apply settles_bind; [apply settles_connect_sdk | intros _].
  apply settles_bind; [ | intros targets].
  - destruct dev as [[| c s] | ];
      try (apply settles_bind; [apply settles_get_devices_with_indexes | intros en]);
      apply settles_silent, silent_ret.
  - apply settles_bind; [apply settles_color_targets | intros _].
    apply settles_silent, silent_json_out.
Qed.

Lemma settles_set_leds_cmd dev payload : settles (set_leds_cmd int_str sdk dev payload).
Proof.
  unfold set_leds_cmd. apply settles_bind; [apply settles_connect_sdk | intros _].
  apply settles_bind; [apply settles_silent, silent_lift | intros colors].
  intros st1 H1. unfold bind at 1.
  pose proof (write_then_flush (parse_ident int_str dev) colors st1 H1) as H2.
  destruct (set_colors_buffer int_str sdk (parse_ident int_str dev) colors st1)
    as [[err | e | x] st2];
    cbn [fst snd]; [ | exact H2 ..].
  destruct (failed err).
  - unfold bind at 1. cbn [when]. rewrite json_out_prints by reflexivity. exact H2.
  - cbn [when]. unfold bind at 1. cbn [ret].
    unfold bind at 1. destruct (flush_colors sdk st2) as [[ferr | e | x] st3];
      cbn [snd] in *; try exact H2.
Qed.

Lemma settles_dispatch argv cmd : settles (dispatch json_loads int_str sdk argv cmd).
Proof.
  unfold dispatch.
  destruct (String.eqb cmd "list_devices").
  { apply settles_emits. eapply emits_weaken; [ | apply emits_list_devices_cmd].
    simpl. intros c [-> | ->]; discriminate. }
  destruct (String.eqb cmd "list_leds" && (2 <=? length argv)%nat)%bool.
  { apply settles_bind; [apply settles_silent, silent_lift | intros dev].
    apply settles_emits. eapply emits_weaken; [ | apply emits_list_leds_cmd].
    simpl. intros c [H _]. exact H. }
  destruct (String.eqb cmd "set_color"
            && ((length argv =? 4)%nat || (length argv =? 5)%nat))%bool.
  { do 6 (apply settles_bind; [apply settles_silent, silent_lift | intros ?]).
    apply settles_bind; [ | intros dev; apply settles_set_color_cmd].
    apply settles_silent. destruct (length argv =? 5)%nat; [ | apply silent_ret].
    apply silent_bind; [apply silent_lift | intros dev; apply silent_ret]. }
  destruct (3 <=? length argv)%nat; rewrite ?andb_true_r, ?andb_false_r;
    [ | apply settles_silent, silent_json_out].
  destruct (String.eqb cmd "set_leds"); [ | apply settles_silent, silent_json_out].
  apply settles_bind; [apply settles_silent, silent_lift | intros dev].
  apply settles_bind; [ | intros payload; apply settles_set_leds_cmd].
  apply settles_silent, silent_bind; [apply silent_lift | intros text; apply silent_lift].
Qed.

End Settles.

(** X23.  No successful write is left without its flush: when the SDK
    has the flush entry point, every buffered write of an invocation
    that answered Success is followed at once by a flush call, whatever
    that call answers. *)
Theorem successful_writes_are_flushed {W : Type} (json_loads : string -> result pyval)
    (int_str : string -> result Z) (sdk : CueSdk W) (flush : W -> result CorsairError * W)
    (argv : list string) (w : W) (input : string) (pre : list SdkCall) (c : SdkCall)
    (post : list SdkCall) :
  sdk_set_led_colors_flush_buffer sdk = Some flush ->
  calls (invoke json_loads int_str sdk argv w input).2 = pre ++ c :: post ->
  wrote_ok c = true ->
  exists r post', post = CallFlush r :: post'.
Proof.
  intros Hflush Hlog Hok. rewrite calls_of_invoke in Hlog.
  assert (H : settles (main json_loads int_str sdk argv)).
  { destruct argv as [| cmd rest]; simpl.
    - apply settles_silent, silent_json_out.
    - apply settles_try; [eapply settles_dispatch; exact Hflush | ].
      intros e. apply settles_silent, silent_json_out. }
  specialize (H (fresh w input) eq_refl). rewrite Hlog in H.
  eapply writes_are_flushed_spec; eauto.
Qed.

Lemma successful_writes_are_flushed_witness :
  exists r post', [CallFlush (inr CE_Success)] = CallFlush r :: post'.
Proof.
  eapply (successful_writes_are_flushed loads_known int_known (scripted desk)
            (fun w => (inr CE_Success, w)) ["set_leds"; "2"; "[]"] tt ""
            (calls (after_enumeration_at desk (connected desk)))
            (CallBuffer Generic (WithTarget "{fan}" []) (inr CE_Success))).
  - reflexivity.
  - vm_compute. reflexivity.
  - reflexivity.
Defined.

(** X26.  The only list of colours that reaches the SDK is the empty
    one: every buffered write attempted in an invocation, whatever the
    command, carries no assignment.  It is the write of [set_leds] on a
    payload that has no entry. *)
Theorem only_the_empty_list_is_submitted {W : Type} (json_loads : string -> result pyval)
    (int_str : string -> result Z) (sdk : CueSdk W) (argv : list string) (w : W)
    (input : string) :
  Forall (fun colors => colors = [])
    (write_attempts (calls (invoke json_loads int_str sdk argv w input).2)).
Proof.
  rewrite calls_of_invoke. apply carrying_write_attempts, emits_from_fresh.
  apply carrying_main. reflexivity.
Qed.
